(** * The command dispatcher of the container startup system

    A shallow embedding of [gp_startup/gp_errors.py], of the parts of
    [gp_startup/gp_helpers.py] and [gp_startup/gp_log.py] the dispatcher
    calls, and of [gp_startup/gp_cmdproc.py], followed by the properties of
    the dispatcher.

    Conventions of the embedding.
    - A Python [str] is a [string]; a character stands for the code point of
      the same number (U+0000 to U+00FF).
    - Python values that are inspected with [type(x) is ...] are [pyval]s.
    - Exceptions are values of [exn]; code that may raise returns [exn + A],
      and code that also reads standard input, logs, or updates list objects
      runs in the monad [M].
    - Python list objects that are copied or updated in place live in a heap
      of list objects and are referred to by location.
    - A handler is represented by what it returns or raises for the
      arguments it is called with; the calls are recorded as events, next to
      what is logged and printed. Exceptions are instances of subclasses of
      [Exception], the ones an [except Exception] clause catches.
    - Standard input is the sequence of the lines still to be read and the
      answer of [isatty]; waiting for a line is not represented. *)

From stdpp Require Import base tactics option list strings numbers gmap pretty.
From Stdlib Require Import Ascii.
From Stdlib Require String.

Local Open Scope string_scope.
Local Open Scope Z_scope.
Local Open Scope list_scope.

(** ** Python strings *)

Module Str.

(** Characters [str.strip] and [str.rstrip] remove: the code points below
    U+0100 that are white space. *)
Definition isspace (c : ascii) : bool :=
  let n := N_of_ascii c in
  ((9 <=? n) && (n <=? 13) || (28 <=? n) && (n <=? 32)
   || (n =? 133) || (n =? 160))%N.

(** [str.lower] on one code point below U+0100. *)
Definition lower_char (c : ascii) : ascii :=
  let n := N_of_ascii c in
  if ((65 <=? n) && (n <=? 90)
      || (192 <=? n) && (n <=? 222) && negb (n =? 215))%N
  then ascii_of_N (n + 32) else c.

Fixpoint lower (s : string) : string :=
  match s with
  | EmptyString => EmptyString
  | String c r => String (lower_char c) (lower r)
  end.

Fixpoint lstrip (s : string) : string :=
  match s with
  | EmptyString => EmptyString
  | String c r => if isspace c then lstrip r else s
  end.

Fixpoint rstrip (s : string) : string :=
  match s with
  | EmptyString => EmptyString
  | String c r =>
      match rstrip r with
      | EmptyString => if isspace c then EmptyString else String c EmptyString
      | r' => String c r'
      end
  end.

Definition strip (s : string) : string := lstrip (rstrip s).

Definition startswith (p s : string) : bool := String.prefix p s.

(** [s[n:]] *)
Fixpoint drop (n : nat) (s : string) : string :=
  match n, s with
  | O, _ => s
  | S n', String _ r => drop n' r
  | S _, EmptyString => EmptyString
  end.

(** [s.split(sep)] for a one-character separator. *)
Fixpoint split (sep : ascii) (s : string) : list string :=
  match s with
  | EmptyString => [EmptyString]
  | String c r =>
      if Ascii.eqb c sep then EmptyString :: split sep r
      else match split sep r with
           | h :: t => String c h :: t
           | [] => [String c EmptyString]
           end
  end.

(** [sep.join(parts)] *)
Definition join (sep : string) (parts : list string) : string :=
  String.concat sep parts.

(** [s.format()] with no argument: doubled braces are unescaped; any
    replacement field, and any brace left alone, raises (there is nothing
    to substitute), which is [None] here. *)
Fixpoint format0 (s : string) : option string :=
  match s with
  | EmptyString => Some EmptyString
  | String c r =>
      if Ascii.eqb c "{" then
        match r with
        | String c' r' =>
            if Ascii.eqb c' "{" then String "{"%char <$> format0 r' else None
        | EmptyString => None
        end
      else if Ascii.eqb c "}" then
        match r with
        | String c' r' =>
            if Ascii.eqb c' "}" then String "}"%char <$> format0 r' else None
        | EmptyString => None
        end
      else String c <$> format0 r
  end.

(** A string in which no brace occurs. *)
Fixpoint brace_free (s : string) : bool :=
  match s with
  | EmptyString => true
  | String c r =>
      negb (Ascii.eqb c "{") && negb (Ascii.eqb c "}") && brace_free r
  end.

End Str.

(** ** Python values and exceptions *)

(** The values whose type the code tests. *)
Inductive pyval :=
| VNone
| VBool (b : bool)
| VInt (z : Z)
| VStr (s : string)
| VObject (type_name : string).

(** Exception classes: those of [gp_errors.py], the built-in ones the code
    raises, the one [str.format] raises ([FormatError] stands for the
    [ValueError], [IndexError] or [KeyError] of a bad format string), and
    classes defined elsewhere, deriving from [ExitCodeError] or not. *)
Inductive etype :=
| ExitCodeError
| GeneralError
| CommandLineArgumentError
| FileNotFoundError
| IoError
| ConfigurationError
| NotImplementedError
| TypeError
| ValueError
| NameError
| RuntimeError
| IndexError
| FormatError
| UserError (class_name : string) (derives_exit_code_error : bool).

#[global] Instance etype_eq_dec : EqDecision etype.
Proof. solve_decision. Defined.

#[global] Instance pyval_eq_dec : EqDecision pyval.
Proof. solve_decision. Defined.

(** The direct base class, inside the hierarchy rooted at [ExitCodeError]. *)
Definition base_class (c : etype) : option etype :=
  match c with
  | GeneralError | CommandLineArgumentError | FileNotFoundError
  | IoError | ConfigurationError => Some ExitCodeError
  | UserError _ true => Some ExitCodeError
  | _ => None
  end.

(** [issubclass(c, d)] *)
Definition issubclass (c d : etype) : bool :=
  bool_decide (c = d) || bool_decide (base_class c = Some d).

(** An exception object: its class and, for the exit-code-bearing ones, the
    attributes [exitcode] and [message]. *)
Record exn := Exn {
  exn_type : etype;
  exn_exitcode : pyval;
  exn_message : string
}.

#[global] Instance exn_eq_dec : EqDecision exn.
Proof. solve_decision. Defined.

Definition raise_plain (t : etype) (msg : string) : exn := Exn t VNone msg.

(** ** gp_errors.py *)

Module Errors.

Definition EXIT_CODE_SUCCESS : Z := 0.
Definition EXIT_CODE_GENERAL_ERROR : Z := 1.
Definition EXIT_CODE_COMMAND_LINE_ARGUMENT_ERROR : Z := 2.
Definition EXIT_CODE_FILE_NOT_FOUND : Z := 3.
Definition EXIT_CODE_IO_ERROR : Z := 4.
Definition EXIT_CODE_CONFIGURATION_EROR : Z := 5.

(** The integer constants bound at module level, under the names the
    module binds them to. *)
Definition module_globals : list (string * Z) :=
  [ ("EXIT_CODE_SUCCESS", EXIT_CODE_SUCCESS);
    ("EXIT_CODE_GENERAL_ERROR", EXIT_CODE_GENERAL_ERROR);
    ("EXIT_CODE_COMMAND_LINE_ARGUMENT_ERROR", EXIT_CODE_COMMAND_LINE_ARGUMENT_ERROR);
    ("EXIT_CODE_FILE_NOT_FOUND", EXIT_CODE_FILE_NOT_FOUND);
    ("EXIT_CODE_IO_ERROR", EXIT_CODE_IO_ERROR);
    ("EXIT_CODE_CONFIGURATION_EROR", EXIT_CODE_CONFIGURATION_EROR) ].

(** Evaluation of a global name inside a method body. *)
Definition global (name : string) : exn + Z :=
  match list_find (fun p => bool_decide (p.1 = name)) module_globals with
  | Some (_, (_, v)) => inr v
  | None => inl (raise_plain NameError name)
  end.

(** [super(cls, self)] for [self] of class [self_type]: the class whose
    method is looked up next, or the [TypeError] of a [self] that is not an
    instance of [cls]. *)
Definition py_super (cls self_type : etype) : exn + option etype :=
  if issubclass self_type cls then inr (base_class cls)
  else inl (raise_plain TypeError
              "super(type, obj): obj must be an instance or subtype of type").

(** [ExitCodeError.__init__(self, exitcode, message)] (no format
    arguments). *)
Definition ExitCodeError_init (self_type : etype) (exitcode : Z)
    (message : string) : exn + exn :=
  match Str.format0 message with
  | Some m => inr (Exn self_type (VInt exitcode) m)
  | None => inl (raise_plain FormatError message)
  end.

(** The body shared by the subclasses' [__init__]:
    [super(cls, self).__init__(<code_name>, message)]. The [super] object
    is built first, then the arguments are evaluated. The classes of the
    module derive from [ExitCodeError] directly, so the method reached is
    [ExitCodeError.__init__]. *)
Definition subclass_init (self_type cls : etype) (code_name : string)
    (message : string) : exn + exn :=
  match py_super cls self_type with
  | inl e => inl e
  | inr parent =>
      match global code_name with
      | inl e => inl e
      | inr code =>
          match parent with
          | Some ExitCodeError => ExitCodeError_init self_type code message
          | _ => inr (Exn self_type VNone message)
          end
      end
  end.

(** [GeneralError(message)] *)
Definition new_GeneralError (message : string) : exn + exn :=
  subclass_init GeneralError CommandLineArgumentError
    "EXIT_CODE_GENERAL_ERROR" message.

(** [CommandLineArgumentError(message)] *)
Definition new_CommandLineArgumentError (message : string) : exn + exn :=
  subclass_init CommandLineArgumentError CommandLineArgumentError
    "EXIT_CODE_COMMAND_LINE_ARGUMENT_ERROR" message.

(** [FileNotFoundError(message)] *)
Definition new_FileNotFoundError (message : string) : exn + exn :=
  subclass_init FileNotFoundError FileNotFoundError
    "EXIT_CODE_FILE_NOT_FOUND" message.

(** [IoError(message)] *)
Definition new_IoError (message : string) : exn + exn :=
  subclass_init IoError IoError "EXIT_CODE_IO_ERROR" message.

(** [ConfigurationError(message)] *)
Definition new_ConfigurationError (message : string) : exn + exn :=
  subclass_init ConfigurationError ConfigurationError
    "EXIT_CODE_CONFIGURATION_ERROR" message.

End Errors.

(** ** Argument definitions (gp_cmdproc.py) *)

(** [PositionalArgument]: one literal token of a command. *)
Record PositionalArgument := { pa_name : string }.

(** [NamedArgument]: a [--name[=value]] option. Instances have no [__eq__],
    so [==], [in] and [list.remove] compare them by identity; [na_id] is the
    identity of the instance. *)
Record NamedArgument := {
  na_id : nat;
  na_name : string;
  na_from_stdin : bool;
  na_min_occurrence : Z;
  na_max_occurrence : Z
}.

#[global] Instance PositionalArgument_eq_dec : EqDecision PositionalArgument.
Proof. solve_decision. Defined.

#[global] Instance NamedArgument_eq_dec : EqDecision NamedArgument.
Proof. solve_decision. Defined.

(** [NamedArgument.__init__(self, name, from_stdin, min_occurrence,
    max_occurrence)], [self] being the identity of the new instance. *)
Definition NamedArgument_init (self : nat)
    (name from_stdin min_occurrence max_occurrence : pyval)
    : exn + NamedArgument :=
  match name with
  | VStr n =>
    match from_stdin with
    | VBool b =>
      match min_occurrence with
      | VInt mn =>
        match max_occurrence with
        | VInt mx =>
            if mn >? mx then
              inl (raise_plain ValueError
                     "Maximum number of arguments must not exceed the minimum number.")
            else if b && (mx >? 1) then
              inl (raise_plain ValueError
                     "The argument must occur only once, if it should be read from stdin as well.")
            else
              inr {| na_id := self; na_name := n; na_from_stdin := b;
                     na_min_occurrence := mn; na_max_occurrence := mx |}
        | _ => inl (raise_plain TypeError "Argument 'max_occurrence' must be int.")
        end
      | _ => inl (raise_plain TypeError "Argument 'min_occurrence' must be int.")
      end
    | _ => inl (raise_plain TypeError "Argument 'from_stdin' must be bool.")
    end
  | _ => inl (raise_plain TypeError "Argument 'name' must be str.")
  end.

(** The defaults of the optional parameters. *)
Definition default_from_stdin : pyval := VBool false.
Definition default_min_occurrence : pyval := VInt 0.
Definition default_max_occurrence : pyval := VInt 1.

(** An element of [*args] of [add_handler]: any object. *)
Inductive argdef :=
| APositional (p : PositionalArgument)
| ANamed (n : NamedArgument)
| AOther (v : pyval).

(** ** Dictionaries from names to value lists

    [specified_named_arguments] and [effective_named_arguments] are
    dictionaries; iteration follows insertion order. *)

Abbreviation dict := (list (string * list string)).

Fixpoint dict_get (k : string) (d : dict) : option (list string) :=
  match d with
  | [] => None
  | (k', v) :: r => if bool_decide (k' = k) then Some v else dict_get k r
  end.

(** [d[k] = v] *)
Fixpoint dict_set (k : string) (v : list string) (d : dict) : dict :=
  match d with
  | [] => [(k, v)]
  | (k', v') :: r =>
      if bool_decide (k' = k) then (k, v) :: r else (k', v') :: dict_set k v r
  end.

(** [if not k in d: d[k] = []] followed by [d[k].append(x)] *)
Definition dict_append (k : string) (x : string) (d : dict) : dict :=
  match dict_get k d with
  | Some vs => dict_set k (vs ++ [x]) d
  | None => dict_set k [x] d
  end.

(** ** Handlers, registrations and the state *)

Inductive hresult :=
| HReturn (v : pyval)
| HRaise (e : exn).

(** A command handler is called with the positional tokens and the effective
    named arguments; an exception handler with the exception. Handlers are
    represented by what they return or raise. *)
Abbreviation handler := (list string -> dict -> hresult).
Abbreviation exception_handler := (exn -> hresult).

Abbreviation loc := nat.

(** A registration [(handler, pos_args, named_args)]; [named_args] is the
    list object built by [add_handler]. *)
Record registration := {
  reg_handler : handler;
  reg_positional : list PositionalArgument;
  reg_named : loc
}.

(** What the dispatcher emits or calls. *)
Inductive event :=
| LogDebug (text : string) (args : list string)
| LogError (message : string)
| PrintError (line : string)
| CallHandler (index : nat) (positional : list string) (named : dict)
| CallExceptionHandler (index : nat) (e : exn).

(** The state of [Log.instance]: the levels it writes and whether it writes
    to stdout/stderr. *)
Record logger := {
  debug_level_enabled : bool;
  error_level_enabled : bool;
  uses_stdio : bool
}.

(** The command processor ([__cmdline_handlers], [__exception_handlers]),
    the heap of list objects holding named definitions, standard input (the
    lines [readline] will return, in order), the logger and the events so
    far. *)
Record state := {
  cmdline_handlers : list registration;
  exception_handlers : list (exception_handler * etype);
  heap : gmap loc (list NamedArgument);
  stdin_isatty : bool;
  stdin_lines : list string;
  log : logger;
  trace : list event
}.

Definition with_cmdline_handlers (v : list registration) (s : state) : state :=
  {| cmdline_handlers := v; exception_handlers := exception_handlers s;
     heap := heap s; stdin_isatty := stdin_isatty s;
     stdin_lines := stdin_lines s; log := log s; trace := trace s |}.

Definition with_exception_handlers (v : list (exception_handler * etype))
    (s : state) : state :=
  {| cmdline_handlers := cmdline_handlers s; exception_handlers := v;
     heap := heap s; stdin_isatty := stdin_isatty s;
     stdin_lines := stdin_lines s; log := log s; trace := trace s |}.

Definition with_heap (v : gmap loc (list NamedArgument)) (s : state) : state :=
  {| cmdline_handlers := cmdline_handlers s;
     exception_handlers := exception_handlers s;
     heap := v; stdin_isatty := stdin_isatty s;
     stdin_lines := stdin_lines s; log := log s; trace := trace s |}.

Definition with_stdin_lines (v : list string) (s : state) : state :=
  {| cmdline_handlers := cmdline_handlers s;
     exception_handlers := exception_handlers s;
     heap := heap s; stdin_isatty := stdin_isatty s;
     stdin_lines := v; log := log s; trace := trace s |}.

Definition emit (e : event) (s : state) : state :=
  {| cmdline_handlers := cmdline_handlers s;
     exception_handlers := exception_handlers s;
     heap := heap s; stdin_isatty := stdin_isatty s;
     stdin_lines := stdin_lines s; log := log s; trace := trace s ++ [e] |}.

(** ** The monad of the dispatcher

    A computation ends normally with a value, returns from [process] with a
    value, or raises. *)

Inductive res (A : Type) :=
| Ok (a : A)
| Return (v : pyval)
| Raise (e : exn).
Arguments Ok {A} a.
Arguments Return {A} v.
Arguments Raise {A} e.

Definition M (A : Type) : Type := state -> res A * state.

#[global] Instance M_ret : MRet M := fun A a s => (Ok a, s).

#[global] Instance M_bind : MBind M := fun A B f m s =>
  match m s with
  | (Ok a, s') => f a s'
  | (Return v, s') => (Return v, s')
  | (Raise e, s') => (Raise e, s')
  end.

Definition return_ {A} (v : pyval) : M A := fun s => (Return v, s).
Definition raise {A} (e : exn) : M A := fun s => (Raise e, s).
Definition gets {A} (f : state -> A) : M A := fun s => (Ok (f s), s).
Definition modify (f : state -> state) : M unit := fun s => (Ok tt, f s).

(** [try: body except Exception as e: handler(e)] *)
Definition try_except {A} (body : M A) (handle : exn -> M A) : M A := fun s =>
  match body s with
  | (Raise e, s') => handle e s'
  | r => r
  end.

Definition skip : M unit := mret tt.

(** [for x in xs: body(x)] *)
Fixpoint for_each {X} (xs : list X) (body : X -> M unit) : M unit :=
  match xs with
  | [] => skip
  | x :: r => body x ;; for_each r body
  end.

(** A loop that carries a value from one iteration to the next. *)
Fixpoint for_fold {X A} (xs : list X) (a : A) (body : A -> X -> M A) : M A :=
  match xs with
  | [] => mret a
  | x :: r => a' ← body a x; for_fold r a' body
  end.

(** ** The logger and the console (gp_log.py, gp_helpers.py) *)

(** [Log.write_debug(text, *args)]: the format strings of the dispatcher are
    constants with one field and a [str] argument, so formatting succeeds. *)
Definition Log_write_debug (text : string) (args : list string) : M unit :=
  fun s =>
    if debug_level_enabled (log s) then (Ok tt, emit (LogDebug text args) s)
    else (Ok tt, s).

(** [Log.write_error(text)]: the logger formats [text] (with no argument)
    when the error level is enabled. *)
Definition Log_write_error (text : string) : M unit := fun s =>
  if error_level_enabled (log s) then
    match Str.format0 text with
    | Some m => (Ok tt, emit (LogError m) s)
    | None => (Raise (raise_plain FormatError text), s)
    end
  else (Ok tt, s).

(** [Log.uses_stdio] *)
Definition Log_uses_stdio : M bool := gets (fun s => uses_stdio (log s)).

(** [print_error(message)] *)
Definition print_error (message : string) : M unit := fun s =>
  match Str.format0 message with
  | Some m => (Ok tt, emit (PrintError ("ERROR: " +:+ m)) s)
  | None => (Raise (raise_plain FormatError message), s)
  end.

(** [sys.stdin.isatty()] *)
Definition stdin_isatty_ : M bool := gets stdin_isatty.

(** [sys.stdin.readline()]: the next line with its newline, or the empty
    string at the end of the input. *)
Definition stdin_readline : M string := fun s =>
  match stdin_lines s with
  | [] => (Ok "", s)
  | l :: r => (Ok l, with_stdin_lines r s)
  end.

(** [readline_if_no_tty()] *)
Definition readline_if_no_tty : M (option string) :=
  tty ← stdin_isatty_;
  if negb tty then
    line ← stdin_readline;
    if (0 <? String.length line)%nat then mret (Some (Str.rstrip line))
    else mret None
  else mret None.

(** ** List objects *)

(** [l[:]]: a new list object with the same elements. *)
Definition list_copy (l : loc) : M loc := fun s =>
  let l' := fresh (dom (heap s)) in
  (Ok l', with_heap (<[l' := heap s !!! l]> (heap s)) s).

(** The elements of the list object [l], as an iteration sees them. *)
Definition list_read (l : loc) : M (list NamedArgument) :=
  gets (fun s => heap s !!! l).

(** [x in l] *)
Definition list_contains (l : loc) (x : NamedArgument) : M bool :=
  gets (fun s => bool_decide (x ∈ heap s !!! l)).

(** The list without the first element equal to [x]. *)
Fixpoint remove_first (x : NamedArgument) (xs : list NamedArgument)
    : list NamedArgument :=
  match xs with
  | [] => []
  | y :: r => if bool_decide (y = x) then r else y :: remove_first x r
  end.

(** [l.remove(x)] *)
Definition list_remove (l : loc) (x : NamedArgument) : M unit := fun s =>
  if bool_decide (x ∈ heap s !!! l) then
    (Ok tt, with_heap (<[l := remove_first x (heap s !!! l)]> (heap s)) s)
  else (Raise (raise_plain ValueError "list.remove(x): x not in list"), s).

(** [if x in l: l.remove(x)] *)
Definition remove_if_present (l : loc) (x : NamedArgument) : M unit :=
  b ← list_contains l x;
  if b : bool then list_remove l x else skip.

(** ** Registration (gp_cmdproc.py) *)

(** [CommandProcessor.__init__]: both lists empty. *)
Definition CommandProcessor_init (s : state) : state :=
  with_exception_handlers [] (with_cmdline_handlers [] s).

(** The loop of [add_handler] that sorts the definitions by kind. *)
Fixpoint partition_args (args : list argdef)
    (pos_args : list PositionalArgument) (named_args : list NamedArgument)
    : exn + (list PositionalArgument * list NamedArgument) :=
  match args with
  | [] => inr (pos_args, named_args)
  | APositional p :: r => partition_args r (pos_args ++ [p]) named_args
  | ANamed n :: r => partition_args r pos_args (named_args ++ [n])
  | AOther _ :: _ =>
      inl (raise_plain TypeError
             "Only 'PositionalArgument' and 'NamedArgument' objects are expected.")
  end.

(** [add_handler(handler, *args)] *)
Definition add_handler (h : handler) (args : list argdef) : M unit := fun s =>
  match partition_args args [] [] with
  | inl e => (Raise e, s)
  | inr (pos_args, named_args) =>
      let l := fresh (dom (heap s)) in
      let r := {| reg_handler := h; reg_positional := pos_args; reg_named := l |} in
      (Ok tt,
       with_cmdline_handlers (cmdline_handlers s ++ [r])
         (with_heap (<[l := named_args]> (heap s)) s))
  end.

(** [add_exception_handler(handler, exception_type)] *)
Definition add_exception_handler (h : exception_handler)
    (exception_type : etype) : M unit :=
  modify (fun s =>
    with_exception_handlers (exception_handlers s ++ [(h, exception_type)]) s).

(** ** Dispatch (gp_cmdproc.py, [process]) *)

(** The loop that splits the arguments into positional and named ones;
    [None] when a named argument has an empty key. *)
Fixpoint split_arguments (args : list string)
    (specified_positional_arguments : list string)
    (specified_named_arguments : dict) : option (list string * dict) :=
  match args with
  | [] => Some (specified_positional_arguments, specified_named_arguments)
  | arg :: rest =>
      let arg := Str.strip arg in
      if Str.startswith "--" arg then
        let arg := Str.drop 2 arg in
        let arg_tokens := Str.split "="%char arg in
        let key := Str.strip (Str.lower (hd EmptyString arg_tokens)) in
        if (0 <? String.length key)%nat then
          split_arguments rest specified_positional_arguments
            (dict_append key (Str.join "=" (tl arg_tokens))
               specified_named_arguments)
        else None
      else
        split_arguments rest (specified_positional_arguments ++ [arg])
          specified_named_arguments
  end.

(** The inner loop of the search: the number of leading definitions whose
    name equals, ignoring case, the argument at the same index of [args]. *)
Fixpoint count_matches (args : list string)
    (expected : list PositionalArgument) (i : nat) (match_count : Z)
    : exn + Z :=
  match expected with
  | [] => inr match_count
  | p :: rest =>
      match args !! i with
      | None => inl (raise_plain IndexError "tuple index out of range")
      | Some a =>
          if bool_decide (Str.lower a ≠ Str.lower (pa_name p)) then inr match_count
          else count_matches args rest (S i) (match_count + 1)
      end
  end.

(** The search for the registration that fits best, from [index] on;
    the result is [(best_fit_index, best_fit_count)]. *)
Fixpoint best_fit (args : list string) (specified : nat)
    (registrations : list registration) (index : Z)
    (best_fit_index best_fit_count : Z) : exn + (Z * Z) :=
  match registrations with
  | [] => inr (best_fit_index, best_fit_count)
  | r :: rest =>
      let expected := reg_positional r in
      if (specified <? length expected)%nat then
        best_fit args specified rest (index + 1) best_fit_index best_fit_count
      else
        match count_matches args expected 0 0 with
        | inl e => inl e
        | inr match_count =>
            if (match_count =? Z.of_nat (length expected))
               && (match_count >? best_fit_count)
            then best_fit args specified rest (index + 1) index match_count
            else best_fit args specified rest (index + 1)
                   best_fit_index best_fit_count
        end
  end.

(** The error path shared by the argument checks: log the error, print it
    unless the logger writes to the console, return the exit code. *)
Definition report_error (error : string) : M unit :=
  Log_write_error error ;;
  stdio ← Log_uses_stdio;
  if negb stdio then print_error error else skip.

Definition fail_command_line {A} (error : string) : M A :=
  report_error error ;;
  return_ (VInt Errors.EXIT_CODE_COMMAND_LINE_ARGUMENT_ERROR).

Definition msg_invalid_format : string := "Invalid named argument format.".

Definition msg_not_allowed (arg_name : string) : string :=
  "The named argument '--" +:+ arg_name
  +:+ "' is not allowed in conjunction with the specified positional arguments.".

Definition msg_at_least (arg_name : string) (n : Z) : string :=
  "The named argument '--" +:+ arg_name +:+ "' is required at least "
  +:+ pretty n +:+ " times.".

Definition msg_at_most (arg_name : string) (n : Z) : string :=
  "The named argument '--" +:+ arg_name +:+ "' is allowed at maximum "
  +:+ pretty n +:+ " times.".

Definition msg_must_be_specified (arg_name : string) : string :=
  "The named argument '--" +:+ arg_name +:+ "' must be specified. ".

(** The definition a supplied key refers to: the first whose [name] is the
    lower-cased key. *)
Definition find_definition (arg_name : string)
    (expected : list NamedArgument) : option NamedArgument :=
  find (fun x => bool_decide (Str.lower arg_name = na_name x)) expected.

(** One iteration of the check of the supplied named arguments. *)
Definition check_specified (expected : list NamedArgument)
    (not_specified : loc) (item : string * list string) : M unit :=
  let arg_name := item.1 in
  let arg_values := item.2 in
  match find_definition arg_name expected with
  | None => fail_command_line (msg_not_allowed arg_name)
  | Some arg_def =>
      remove_if_present not_specified arg_def ;;
      if Z.of_nat (length arg_values) <? na_min_occurrence arg_def then
        fail_command_line (msg_at_least arg_name (na_min_occurrence arg_def))
      else if Z.of_nat (length arg_values) >? na_max_occurrence arg_def then
        fail_command_line (msg_at_most arg_name (na_max_occurrence arg_def))
      else skip
  end.

(** The value read from standard input for a definition, if configured. *)
Definition read_stdin_value (arg_def : NamedArgument) (not_specified : loc)
    : M (option string) :=
  if na_from_stdin arg_def && (na_max_occurrence arg_def =? 1) then
    arg_value_from_stdin ← readline_if_no_tty;
    match arg_value_from_stdin with
    | Some line =>
        Log_write_debug "=> Reading from stdin returned '{0}'." [line] ;;
        remove_if_present not_specified arg_def ;;
        mret (Some line)
    | None =>
        tty ← stdin_isatty_;
        if tty : bool then
          Log_write_debug
            "=> Reading from stdin does not work, running in terminal mode." [] ;;
          remove_if_present not_specified arg_def ;;
          mret None
        else
          Log_write_debug
            "=> Reading from stdin failed. Not enough data piped in?" [] ;;
          mret None
    end
  else mret None.

(** The values given on the command line for a definition. *)
Definition read_command_line_values (arg_def : NamedArgument)
    (specified : dict) : M (list string) :=
  match dict_get (na_name arg_def) specified with
  | Some arg_values =>
      for_fold arg_values []
        (fun (effective_argument_values : list string) arg_value =>
        Log_write_debug "=> Reading from command line returned '{0}'."
          [arg_value] ;;
        mret (effective_argument_values ++ [arg_value])%list)
  | None => mret []
  end.

(** One iteration of the loop that crafts the effective named arguments. *)
Definition craft_argument (specified : dict) (not_specified : loc)
    (effective_named_arguments : dict) (arg_def : NamedArgument) : M dict :=
  Log_write_debug "Evaluating named argument '{0}'..." [na_name arg_def] ;;
  arg_value_from_stdin ← read_stdin_value arg_def not_specified;
  effective_argument_values ← read_command_line_values arg_def specified;
  let effective_argument_values :=
    match arg_value_from_stdin with
    | Some line =>
        if (length effective_argument_values =? 0)%nat
        then (effective_argument_values ++ [line])%list
        else effective_argument_values
    | None => effective_argument_values
    end in
  mret (dict_set (na_name arg_def) effective_argument_values
          effective_named_arguments).

(** One iteration of the check of the required named arguments. *)
Definition check_required (arg_def : NamedArgument) : M unit :=
  if na_min_occurrence arg_def >? 0 then
    fail_command_line (msg_must_be_specified (na_name arg_def))
  else skip.

Definition call_handler (index : nat) (h : handler)
    (positional : list string) (named : dict) : M pyval := fun s =>
  let s' := emit (CallHandler index positional named) s in
  match h positional named with
  | HReturn v => (Ok v, s')
  | HRaise e => (Raise e, s')
  end.

Definition call_exception_handler (index : nat) (h : exception_handler)
    (e : exn) : M pyval := fun s =>
  let s' := emit (CallExceptionHandler index e) s in
  match h e with
  | HReturn v => (Ok v, s')
  | HRaise e' => (Raise e', s')
  end.

(** [type(v) is int] *)
Definition is_int (v : pyval) : bool :=
  match v with VInt _ => true | _ => false end.

Definition handler_contract_error : exn :=
  raise_plain RuntimeError "The command line handler did not return an exit code.".

(** The first part of the body of the [try] statement: the checks of the
    named arguments of the registration [r] and the effective named
    arguments they leave. *)
Definition effective_arguments (r : registration)
    (specified_named_arguments : dict) : M dict :=
  expected_named_arguments ← list_read (reg_named r);
  not_specified_named_arguments ← list_copy (reg_named r);
  for_each specified_named_arguments
    (check_specified expected_named_arguments not_specified_named_arguments) ;;
  effective_named_arguments ←
    for_fold expected_named_arguments []
      (craft_argument specified_named_arguments not_specified_named_arguments);
  remaining ← list_read not_specified_named_arguments;
  for_each remaining check_required ;;
  mret effective_named_arguments.

(** The last part: the call of the handler and the check of what it
    returns. *)
Definition invoke (index : nat) (r : registration)
    (specified_positional_arguments : list string)
    (effective_named_arguments : dict) : M unit :=
  exitcode ← call_handler index (reg_handler r)
                specified_positional_arguments effective_named_arguments;
  if is_int exitcode then return_ exitcode else raise handler_contract_error.

(** The body of the [try] statement, for the registration at [index]. *)
Definition dispatch (index : nat) (r : registration)
    (specified_positional_arguments : list string)
    (specified_named_arguments : dict) : M unit :=
  effective_named_arguments ← effective_arguments r specified_named_arguments;
  invoke index r specified_positional_arguments effective_named_arguments.

(** The first exception handler registered for exactly the class [t]. *)
Fixpoint find_route (routes : list (exception_handler * etype)) (t : etype)
    (i : nat) : option (nat * exception_handler) :=
  match routes with
  | [] => None
  | (h, t') :: rest =>
      if bool_decide (t' = t) then Some (i, h) else find_route rest t (S i)
  end.

(** The [except Exception as e] clause. *)
Definition handle_exception (e : exn) : M unit :=
  routes ← gets exception_handlers;
  match find_route routes (exn_type e) 0 with
  | Some (i, h) => v ← call_exception_handler i h e; return_ v
  | None =>
      if issubclass (exn_type e) ExitCodeError then
        print_error (exn_message e) ;; return_ (exn_exitcode e)
      else raise e
  end.

(** [process(args)] *)
Definition process (args : list string) : M unit :=
  match split_arguments args [] [] with
  | None => fail_command_line msg_invalid_format
  | Some (specified_positional_arguments, specified_named_arguments) =>
      registrations ← gets cmdline_handlers;
      match best_fit args (length specified_positional_arguments)
              registrations 0 (-1) (-1) with
      | inl e => raise e
      | inr (best_fit_index, _) =>
          if negb (best_fit_index =? -1) then
            try_except
              match registrations !! Z.to_nat best_fit_index with
              | Some r =>
                  dispatch (Z.to_nat best_fit_index) r
                    specified_positional_arguments specified_named_arguments
              | None => raise (raise_plain IndexError "list index out of range")
              end
              handle_exception
          else return_ VNone
      end
  end.

(** What a call gives its caller: a value or an exception. *)
Inductive outcome :=
| Returned (v : pyval)
| Raised (e : exn).

Definition run {A} (m : M A) (s : state) : outcome * state :=
  match m s with
  | (Ok _, s') => (Returned VNone, s')
  | (Return v, s') => (Returned v, s')
  | (Raise e, s') => (Raised e, s')
  end.

(** The value [process] returns when no registration matches. *)
Definition NotHandled : outcome := Returned VNone.

(** ** Vocabulary of the specification *)

(** [InvalidArgumentDefinition]: the failures of a definition or of a
    registration, which the code raises as [ValueError] or [TypeError]. *)
Definition InvalidArgumentDefinition (e : exn) : Prop :=
  exn_type e = ValueError ∨ exn_type e = TypeError.

(** The positional and the named definitions among [args], in order. *)
Definition positional_of (args : list argdef) : list PositionalArgument :=
  omap (fun a => match a with APositional p => Some p | _ => None end) args.

Definition named_of (args : list argdef) : list NamedArgument :=
  omap (fun a => match a with ANamed n => Some n | _ => None end) args.

(** An element that is neither a positional nor a named definition. *)
Definition is_other (a : argdef) : bool :=
  match a with AOther _ => true | _ => false end.

(** The key of a named token: what precedes the first [=], lower-cased and
    stripped, once the token is stripped and its marker removed. *)
Definition key_of (token : string) : string :=
  Str.strip (Str.lower (hd EmptyString
    (Str.split "="%char (Str.drop 2 (Str.strip token))))).

(** A named token whose key is empty. *)
Definition malformed (token : string) : Prop :=
  Str.startswith "--" (Str.strip token) = true ∧ key_of token = EmptyString.

(** The state after [error] has been reported (with a message the logger
    and the console can format). *)
Definition after_report (error : string) (s : state) : state :=
  let s1 := if error_level_enabled (log s) then emit (LogError error) s else s in
  if uses_stdio (log s) then s1 else emit (PrintError ("ERROR: " +:+ error)) s1.

(** The calls of handlers among the events. *)
Definition is_call (e : event) : bool :=
  match e with
  | CallHandler _ _ _ | CallExceptionHandler _ _ => true
  | _ => false
  end.

Definition handler_calls (s : state) : list event :=
  filter (fun e => is_call e = true) (trace s).

(** *** Selection *)

(** The names of [expected] equal, ignoring case, the arguments of the
    invocation at the same indices (the arguments as given, named ones
    included). *)
Fixpoint names_match (args : list string) (expected : list PositionalArgument)
    {struct expected} : bool :=
  match expected, args with
  | [], _ => true
  | p :: ps, a :: rest =>
      bool_decide (Str.lower a = Str.lower (pa_name p)) && names_match rest ps
  | _ :: _, [] => false
  end.

(** A registration that fully matches: it has no more positional
    definitions than there are positional tokens, and all its names match. *)
Definition fully_matches (args : list string) (specified : nat)
    (r : registration) : bool :=
  (length (reg_positional r) <=? specified)%nat
  && names_match args (reg_positional r).

(** [process] gets past the tokens and the search, and goes on with the
    registration [r] at [index], the positional tokens [positional] and the
    supplied named arguments [specified]. *)
Definition selects (s : state) (args : list string) (index : nat)
    (r : registration) (positional : list string) (specified : dict) : Prop :=
  split_arguments args [] [] = Some (positional, specified)
  ∧ (∃ count, best_fit args (length positional) (cmdline_handlers s) 0 (-1) (-1)
              = inr (Z.of_nat index, count))
  ∧ cmdline_handlers s !! index = Some r.

(** The state of the search after the registrations [seen]: no best fit
    yet and none of them fully matches, or the best fit is the fully matching
    registration with the most positional definitions, the earliest of
    those. *)
Definition best_so_far (args : list string) (specified : nat)
    (seen : list registration) (best_fit_index best_fit_count : Z) : Prop :=
  (best_fit_index = -1 ∧ best_fit_count = -1
   ∧ ∀ j r, seen !! j = Some r → fully_matches args specified r = false)
  ∨ (∃ (i : nat) r,
       best_fit_index = Z.of_nat i ∧ seen !! i = Some r
       ∧ fully_matches args specified r = true
       ∧ best_fit_count = Z.of_nat (length (reg_positional r))
       ∧ ∀ (j : nat) r', seen !! j = Some r' →
           fully_matches args specified r' = true →
           (length (reg_positional r') ≤ length (reg_positional r))%nat
           ∧ (length (reg_positional r') = length (reg_positional r) →
              (i ≤ j)%nat)).

(** *** Named arguments *)

(** A definition that takes a value from standard input. *)
Definition stdin_enabled (d : NamedArgument) : bool :=
  na_from_stdin d && (na_max_occurrence d =? 1).

(** A supplied key that has a definition whose bounds admit the number of
    values supplied. *)
Definition valid_item (expected : list NamedArgument)
    (item : string * list string) : bool :=
  match find_definition item.1 expected with
  | Some d =>
      negb (Z.of_nat (length item.2) <? na_min_occurrence d)
      && negb (Z.of_nat (length item.2) >? na_max_occurrence d)
  | None => false
  end.

(** The step of the not-yet-satisfied list for one supplied key. *)
Definition observe (expected : list NamedArgument)
    (not_specified : list NamedArgument) (item : string * list string)
    : list NamedArgument :=
  match find_definition item.1 expected with
  | Some d => remove_first d not_specified
  | None => not_specified
  end.

(** The not-yet-satisfied list once the supplied keys are checked. *)
Definition unsatisfied_after_check (expected : list NamedArgument)
    (specified : dict) (not_specified : list NamedArgument)
    : list NamedArgument :=
  foldl (observe expected) not_specified specified.

(** What [readline_if_no_tty] returns and the input it leaves. *)
Definition stdin_value (tty : bool) (lines : list string)
    : option string * list string :=
  if tty then (None, lines)
  else match lines with
       | [] => (None, [])
       | l :: rest =>
           (if (0 <? String.length l)%nat then Some (Str.rstrip l) else None,
            rest)
       end.

(** The values of a definition: those of the command line, else the one of
    standard input, else none. *)
Definition effective_values (specified : dict) (d : NamedArgument)
    (from_stdin : option string) : list string :=
  match dict_get (na_name d) specified, from_stdin with
  | Some (v :: vs), _ => v :: vs
  | _, Some line => [line]
  | Some [], None => []
  | None, None => []
  end.

(** One step of the assembly of the effective arguments, on the effective
    arguments so far, the not-yet-satisfied list and the input left. *)
Definition craft_step (specified : dict) (tty : bool)
    (acc : dict * list NamedArgument * list string) (d : NamedArgument)
    : dict * list NamedArgument * list string :=
  let '(effective, not_specified, lines) := acc in
  if stdin_enabled d then
    let '(v, lines') := stdin_value tty lines in
    (dict_set (na_name d) (effective_values specified d v) effective,
     if bool_decide (is_Some v) || tty then remove_first d not_specified
     else not_specified,
     lines')
  else
    (dict_set (na_name d) (effective_values specified d None) effective,
     not_specified, lines).

(** A definition that need not be supplied. *)
Definition optional (d : NamedArgument) : bool := negb (na_min_occurrence d >? 0).

(** The number of reads of standard input the definitions cause. *)
Definition stdin_reads (defs : list NamedArgument) : nat :=
  length (filter (fun d => stdin_enabled d = true) defs).

(** The assembly over all the definitions of a registration: the effective
    arguments, the definitions left unsatisfied, the input left. *)
Definition assemble (expected : list NamedArgument) (specified : dict)
    (tty : bool) (lines : list string)
    : dict * list NamedArgument * list string :=
  foldl (craft_step specified tty)
    ([], unsatisfied_after_check expected specified expected, lines) expected.

(** The checks of the supplied and of the required named arguments pass. *)
Definition accepts (expected : list NamedArgument) (specified : dict)
    (tty : bool) (lines : list string) : bool :=
  forallb (valid_item expected) specified
  && forallb optional (assemble expected specified tty lines).1.2.

(** A computation that ends normally with [a] in a state where [Q] holds. *)
Definition ends_with {A} (m : M A) (s : state) (a : A) (Q : state → Prop)
    : Prop :=
  ∃ s', m s = (Ok a, s') ∧ Q s'.

(** What the loops over the named arguments read of a state: the list
    object they update, the input, the terminal flag. *)
Definition loop_view (l : loc) (L : list NamedArgument) (lines : list string)
    (tty : bool) (s : state) : Prop :=
  heap s !! l = Some L ∧ stdin_lines s = lines ∧ stdin_isatty s = tty.

(** *** Frames *)

(** The parts of the state no step of [process] assigns. *)
Definition same_processor (s s' : state) : Prop :=
  cmdline_handlers s' = cmdline_handlers s
  ∧ exception_handlers s' = exception_handlers s
  ∧ stdin_isatty s' = stdin_isatty s
  ∧ log s' = log s.

(** The state changes at most at the list object [l], the input, the
    events. *)
Definition frame_except (l : loc) (s s' : state) : Prop :=
  same_processor s s' ∧ ∀ l', l' ≠ l → heap s' !! l' = heap s !! l'.

(** Every list object of [s] is in [s'] with the same elements. *)
Definition frame (s s' : state) : Prop :=
  same_processor s s' ∧ heap s ⊆ heap s'.

(** A computation whose final state is related to its initial one. *)
Definition preserves {A} (R : relation state) (m : M A) : Prop :=
  ∀ s, R s (m s).2.

(** The events of [s] are the first events of [s']. *)
Definition trace_extends (s s' : state) : Prop := trace s `prefix_of` trace s'.

(** The registry as [process] reads it: for each registration, its
    positional definitions and the elements of its list of named ones. *)
Definition registry (s : state)
    : list (list PositionalArgument * option (list NamedArgument)) :=
  map (fun r => (reg_positional r, heap s !! reg_named r)) (cmdline_handlers s).

(** Every registration's list of named definitions is a list object. *)
Definition registered (s : state) : Prop :=
  ∀ r, r ∈ cmdline_handlers s → is_Some (heap s !! reg_named r).

(** The state after [process] has been called on each invocation in turn. *)
Definition process_all (invocations : list (list string)) (s : state) : state :=
  foldl (fun s args => (run (process args) s).2) s invocations.

(** ** Sample processors *)

Module Sample.

Definition quiet : logger :=
  {| debug_level_enabled := false; error_level_enabled := true;
     uses_stdio := false |}.

(** A fresh processor, with the given standard input. *)
Definition fresh_state (tty : bool) (lines : list string) : state :=
  {| cmdline_handlers := []; exception_handlers := []; heap := ∅;
     stdin_isatty := tty; stdin_lines := lines; log := quiet; trace := [] |}.

Definition returns (v : pyval) : handler := fun _ _ => HReturn v.

Definition named (id : nat) (name : string) (from_stdin : bool)
    (min_occurrence max_occurrence : Z) : NamedArgument :=
  {| na_id := id; na_name := name; na_from_stdin := from_stdin;
     na_min_occurrence := min_occurrence;
     na_max_occurrence := max_occurrence |}.

Definition run_cmd : argdef := APositional {| pa_name := "run" |}.

(** The state after a sequence of set-up calls. *)
Definition after (calls : list (M unit)) (s : state) : state :=
  foldl (fun s m => (m s).2) s calls.

(** [add_handler(h, PositionalArgument("run"), NamedArgument("x"),
    NamedArgument("X"))] *)
Definition duplicate_names : list argdef :=
  [run_cmd; ANamed (named 0 "x" false 0 1); ANamed (named 1 "X" false 0 1)].

(** A handler that returns [None], and a route for [RuntimeError]. *)
Definition contract_state : state :=
  after [add_handler (returns VNone) [run_cmd];
         add_exception_handler (fun _ => HReturn (VInt 7)) RuntimeError]
    (fresh_state false []).

(** [add_handler(h, PositionalArgument("run"), NamedArgument("Name"))] *)
Definition mixed_case_state : state :=
  after [add_handler (returns (VInt 0))
           [run_cmd; ANamed (named 0 "Name" false 0 1)]]
    (fresh_state false []).

(** [add_handler(h, PositionalArgument("run"),
    NamedArgument("pw", True, 1, 1))] *)
Definition password_state (tty : bool) (lines : list string) : state :=
  after [add_handler (returns (VInt 0))
           [run_cmd; ANamed (named 0 "pw" true 1 1)]]
    (fresh_state tty lines).

(** [add_handler(h, PositionalArgument("run"), NamedArgument("pw", True),
    NamedArgument("pw"))] *)
Definition shadowed_state (lines : list string) : state :=
  after [add_handler (returns (VInt 0))
           [run_cmd; ANamed (named 0 "pw" true 0 1);
            ANamed (named 1 "pw" false 0 1)]]
    (fresh_state false lines).

(** [add_handler(h, PositionalArgument("run"))] *)
Definition run_state : state :=
  after [add_handler (returns (VInt 0)) [run_cmd]] (fresh_state false []).

(** A line of input, with its newline. *)
Definition line (text : string) : string := text +:+ String "010"%char "".

End Sample.

(** ** Further vocabulary of the dispatcher *)

(** The calls of command handlers among the events. *)
Definition is_command_call (e : event) : bool :=
  match e with CallHandler _ _ _ => true | _ => false end.

Definition command_calls (s : state) : list event :=
  filter (fun e => is_command_call e = true) (trace s).

(** A token that is read as a named argument. *)
Definition is_named (token : string) : bool :=
  Str.startswith "--" (Str.strip token).

(** The value of a named token: what follows its first [=]. *)
Definition value_of (token : string) : string :=
  Str.join "=" (tl (Str.split "="%char (Str.drop 2 (Str.strip token)))).

(** The positional tokens of an invocation. *)
Definition positional_tokens (args : list string) : list string :=
  Str.strip <$> filter (fun a => is_named a = false) args.

(** The values the invocation gives for the key [k], in order. *)
Definition values_for (k : string) (args : list string) : list string :=
  value_of <$> filter (fun a => is_named a = true ∧ key_of a = k) args.

(** What a handler's result is for the caller of [process]. *)
Definition outcome_of (r : hresult) : outcome :=
  match r with HReturn v => Returned v | HRaise e => Raised e end.

(** The input is what it was. *)
Definition same_stdin (s s' : state) : Prop := stdin_lines s' = stdin_lines s.

(** No command handler was called in between. *)
Definition same_command_calls (s s' : state) : Prop :=
  command_calls s' = command_calls s.

(** ** More sample processors *)

Module More.

Definition raises (e : exn) : handler := fun _ _ => HRaise e.

(** A handler that raises a [CommandLineArgumentError], and a route
    registered for the base class only. *)
Definition bad_arguments : exn := Exn CommandLineArgumentError (VInt 2) "bad".

Definition raising_state : state :=
  Sample.after
    [add_handler (raises bad_arguments) [Sample.run_cmd];
     add_exception_handler (fun _ => HReturn (VInt 9)) ExitCodeError]
    (Sample.fresh_state false []).

(** [add_handler(h, PositionalArgument("run"), NamedArgument("user", min 1),
    NamedArgument("pw", True, 1, 1))] *)
Definition login_state (tty : bool) (lines : list string) : state :=
  Sample.after
    [add_handler (Sample.returns (VInt 0))
       [Sample.run_cmd; ANamed (Sample.named 0 "user" false 1 1);
        ANamed (Sample.named 1 "pw" true 1 1)]]
    (Sample.fresh_state tty lines).

Definition login_registration : registration :=
  Build_registration (Sample.returns (VInt 0))
    [Build_PositionalArgument "run"] 0.

(** A registration with no positional definition after one for [run]. *)
Definition default_state : state :=
  Sample.after
    [add_handler (Sample.returns (VInt 1)) [Sample.run_cmd];
     add_handler (Sample.returns (VInt 7)) []]
    (Sample.fresh_state false []).

End More.

(** The part of a named token in front of its first [=], as written. *)
Definition raw_key (token : string) : string :=
  hd EmptyString (Str.split "="%char (Str.drop 2 (Str.strip token))).

(** A string without the character [c]. *)
Fixpoint lacks (c : ascii) (s : string) : bool :=
  match s with
  | EmptyString => true
  | String c' r => negb (Ascii.eqb c' c) && lacks c r
  end.

(** ** More of gp_helpers.py *)

Module Helpers.

(** A string whose last character is white space. *)
Fixpoint ends_with_space (s : string) : bool :=
  match s with
  | EmptyString => false
  | String c EmptyString => Str.isspace c
  | String _ r => ends_with_space r
  end.

(** [isinstance(length, int)]: integers and booleans; the value as an
    integer. *)
Definition as_int (v : pyval) : option Z :=
  match v with
  | VInt z => Some z
  | VBool b => Some (if b then 1 else 0)
  | _ => None
  end.

Definition zero_division : exn :=
  raise_plain (UserError "ZeroDivisionError" false)
    "integer division or modulo by zero".

(** ["".join(chars[int(c) % len(chars)] for c in bytes)]; the characters
    are those of any alphabet. *)
Fixpoint join_picked {C} (chars : list C) (bytes : list N) : exn + list C :=
  match bytes with
  | [] => inr []
  | c :: rest =>
      match chars with
      | [] => inl zero_division
      | _ :: _ =>
          match chars !! N.to_nat (c mod N.of_nat (List.length chars)) with
          | None => inl (raise_plain IndexError "string index out of range")
          | Some ch =>
              match join_picked chars rest with
              | inl e => inl e
              | inr password => inr (ch :: password)
              end
          end
      end
  end.

(** [generate_password(length, chars)]; [urandom] is [os.urandom], which
    returns the requested number of bytes. *)
Definition generate_password {C} (urandom : Z → list N) (length : pyval)
    (chars : list C) : exn + list C :=
  match as_int length with
  | Some n =>
      if n <? 1 then inl (raise_plain ValueError "length must have positive length")
      else join_picked chars (urandom n)
  | None => inl (raise_plain ValueError "length must have positive length")
  end.

(** [line.split()]: the fields between runs of white space. [fields_from s]
    is the field that starts [s], possibly empty, and the fields after it. *)
Fixpoint fields_from (s : string) : string * list string :=
  match s with
  | EmptyString => (EmptyString, [])
  | String c r =>
      let '(w, ws) := fields_from r in
      if Str.isspace c then
        (EmptyString, match w with EmptyString => ws | _ => w :: ws end)
      else (String c w, ws)
  end.

Definition split_whitespace (s : string) : list string :=
  let '(w, ws) := fields_from s in
  match w with EmptyString => ws | _ => w :: ws end.

(** [device, mount_point, filesystem, flags, __, __ = line.split()] followed
    by [flags = flags.split(",")]: the mount point and the flags of a line
    of [/proc/mounts]. The unpacking raises [ValueError] unless there are
    six fields; its message is given without the counts. *)
Definition unpack_mount_line (line : string) : exn + (string * list string) :=
  match split_whitespace line with
  | [device; mount_point; filesystem; flags; _; _] =>
      inr (mount_point, Str.split ","%char flags)
  | fields =>
      inl (raise_plain ValueError
             (if (List.length fields <? 6)%nat
              then "not enough values to unpack"
              else "too many values to unpack"))
  end.

(** [does_mount_point_exist(mnt)], on the lines of [/proc/mounts]. *)
Fixpoint does_mount_point_exist (lines : list string) (mnt : string)
    : exn + bool :=
  match lines with
  | [] => inr false
  | line :: rest =>
      match unpack_mount_line line with
      | inl e => inl e
      | inr (mount_point, flags) =>
          if bool_decide (mount_point = mnt) then inr true
          else does_mount_point_exist rest mnt
      end
  end.

(** [is_mount_point_readonly(mnt)], on the lines of [/proc/mounts]. *)
Fixpoint is_mount_point_readonly (lines : list string) (mnt : string)
    : exn + bool :=
  match lines with
  | [] =>
      inl (raise_plain ValueError ("Mount point " +:+ mnt +:+ " doesn't exist"))
  | line :: rest =>
      match unpack_mount_line line with
      | inl e => inl e
      | inr (mount_point, flags) =>
          if bool_decide (mount_point = mnt) then inr (bool_decide ("ro" ∈ flags))
          else is_mount_point_readonly rest mnt
      end
  end.

(** [is_kernel_module_loaded(module_name)], on the lines of
    [/proc/modules]. *)
Definition is_kernel_module_loaded (lines : list string) (module_name : string)
    : bool :=
  existsb
    (fun line =>
       bool_decide (hd EmptyString (Str.split " "%char (Str.strip line))
                    = module_name))
    lines.

End Helpers.

(** ** The levels of a logger (gp_log.py, [LoggerBase]) *)

Module Logger.

Record levels := {
  debug_enabled : bool;
  info_enabled : bool;
  note_enabled : bool;
  warning_enabled : bool;
  error_enabled : bool
}.

(** [LoggerBase.set_verbosity(level)] *)
Definition set_verbosity (level : Z) : levels :=
  {| error_enabled := level >? 0;
     warning_enabled := level >? 1;
     note_enabled := level >? 2;
     info_enabled := level >? 3;
     debug_enabled := level >? 4 |}.

(** [LoggerBase.__init__]: all levels except 'debug'. *)
Definition init : levels := set_verbosity 4.

End Logger.

(** ** Settings in environment variables (gp_helpers.py) *)

Module Env.

(** What a getter does: its result, and the informational messages the
    logger wrote, in order. *)
Abbreviation logged A := ((exn + A) * list string)%type.

(** [Log.write_info(text)] followed by [k]: a logger whose 'info' level is
    enabled formats [text] (with no argument) and writes it. *)
Definition write_info_then {A} (info_level_enabled : bool) (text : string)
    (k : logged A) : logged A :=
  if info_level_enabled then
    match Str.format0 text with
    | Some m => (k.1, m :: k.2)
    | None => (inl (raise_plain FormatError text), [])
    end
  else k.

(** [raise ConfigurationError(error)]: the module binds no such name. *)
Definition raise_ConfigurationError {A} (error : string) : logged A :=
  (inl (raise_plain NameError "ConfigurationError"), []).

(** [if value:] for what [os.environ.get] returns: a string that is not
    empty. *)
Definition truthy (value : option string) : option string :=
  match value with
  | Some (String _ _ as v) => Some v
  | _ => None
  end.

(** [if bound:] for an optional integer: given and different from zero. *)
Definition truthy_int (bound : option Z) : option Z :=
  match bound with
  | Some b => if b =? 0 then None else Some b
  | None => None
  end.

Definition str_bool (b : bool) : string := if b then "True" else "False".

Definition str_int (z : Z) : string := pretty z.

(** The message of the branch taken when the variable is not set; [shown]
    is [str(default_value)]. *)
Definition not_set_text (var_name : string) (shown : option string) : string :=
  match shown with
  | Some d =>
      "Environment variable '" +:+ var_name +:+ "' is not set... Using '"
      +:+ d +:+ "' instead."
  | None => "Environment variable '" +:+ var_name +:+ "' is not set..."
  end.

Section getters.

(** [os.environ], the level of the logger, and [int(value, 10)], which
    raises on a string that is not a decimal integer. *)
Variable environ : gmap string string.
Variable info_level_enabled : bool.
Variable int10 : string → option Z.

(** [get_env_setting_bool(var_name, default_value)] *)
Definition get_env_setting_bool (var_name : string)
    (default_value : option bool) : logged (option bool) :=
  match truthy (environ !! var_name) with
  | Some value =>
      if bool_decide (value = "0") || bool_decide (Str.lower value = "false") then
        write_info_then info_level_enabled
          ("Environment variable '" +:+ var_name +:+ "' is set to 'false'.")
          (inr (Some false), [])
      else if bool_decide (value = "1") || bool_decide (Str.lower value = "true") then
        write_info_then info_level_enabled
          ("Environment variable '" +:+ var_name +:+ "' is set to 'true'.")
          (inr (Some true), [])
      else
        raise_ConfigurationError
          ("Environment variable " +:+ var_name
           +:+ " does not specify a boolean value (" +:+ value +:+ ").")
  | None =>
      write_info_then info_level_enabled
        (not_set_text var_name (str_bool <$> default_value))
        (inr default_value, [])
  end.

(** [get_env_setting_integer(var_name, default_value, min, max)]. The
    handler of the conversion error names [exception], which nothing binds:
    evaluating it raises [NameError]. *)
Definition get_env_setting_integer (var_name : string)
    (default_value min max : option Z) : logged (option Z) :=
  match truthy (environ !! var_name) with
  | Some text =>
      match int10 text with
      | None => (inl (raise_plain NameError "exception"), [])
      | Some value =>
          write_info_then info_level_enabled
            ("Environment variable '" +:+ var_name +:+ "' is set to '"
             +:+ str_int value +:+ "'.")
            (match truthy_int min with
             | Some lower =>
                 if value <? lower then
                   raise_ConfigurationError
                     ("Environment variable'" +:+ var_name
                      +:+ "' is less than the lower bound (" +:+ str_int lower
                      +:+ "). Ignoring setting...")
                 else
                   match truthy_int max with
                   | Some upper =>
                       if value >? upper then
                         raise_ConfigurationError
                           ("Environment variable'" +:+ var_name
                            +:+ "' is greater than the upper bound ("
                            +:+ str_int upper +:+ "). Ignoring setting...")
                       else (inr (Some value), [])
                   | None => (inr (Some value), [])
                   end
             | None =>
                 match truthy_int max with
                 | Some upper =>
                     if value >? upper then
                       raise_ConfigurationError
                         ("Environment variable'" +:+ var_name
                          +:+ "' is greater than the upper bound ("
                          +:+ str_int upper +:+ "). Ignoring setting...")
                     else (inr (Some value), [])
                 | None => (inr (Some value), [])
                 end
             end)
      end
  | None =>
      write_info_then info_level_enabled
        (not_set_text var_name (str_int <$> default_value))
        (inr default_value, [])
  end.

(** [get_env_setting_string(var_name, default_value)] *)
Definition get_env_setting_string (var_name : string)
    (default_value : option string) : logged (option string) :=
  match truthy (environ !! var_name) with
  | Some value =>
      write_info_then info_level_enabled
        ("Environment variable '" +:+ var_name +:+ "' is set to '"
         +:+ value +:+ "'.")
        (inr (Some value), [])
  | None =>
      write_info_then info_level_enabled
        (not_set_text var_name default_value)
        (inr default_value, [])
  end.

End getters.

End Env.

(** ** The loop over the command processors (gp_app.py, [AppImpl.run]) *)

Module App.

(** A command processor: its registrations and its exception routes. *)
Record processor := {
  proc_cmdline_handlers : list registration;
  proc_exception_handlers : list (exception_handler * etype)
}.

(** [processor.process(args)]: [process] with the registrations and routes
    of [p]; the input, the logger, the list objects and the trace are those
    of the application. *)
Definition processor_process (p : processor) (args : list string)
    (s : state) : outcome * state :=
  run (process args)
    (with_exception_handlers (proc_exception_handlers p)
       (with_cmdline_handlers (proc_cmdline_handlers p) s)).

(** [code != None] *)
Definition ne_None (v : pyval) : bool := negb (bool_decide (v = VNone)).

(** [exitcode != 0] *)
Definition ne_zero (v : pyval) : bool :=
  match v with
  | VInt z => negb (z =? 0)
  | VBool b => b
  | _ => true
  end.

(** The loop of [run]: [exitcode] is the code so far; the result is the
    code when the loop ends, or the exception that left it. *)
Fixpoint run_processors (command_processors : list processor)
    (args : list string) (exitcode : pyval) (s : state) : outcome * state :=
  match command_processors with
  | [] => (Returned exitcode, s)
  | p :: rest =>
      match processor_process p args s with
      | (Returned code, s') =>
          if ne_None code then
            if ne_zero code then (Returned code, s')
            else run_processors rest args code s'
          else run_processors rest args exitcode s'
      | (Raised e, s') => (Raised e, s')
      end
  end.

(** A code with which the loop goes on. *)
Definition goes_on (v : pyval) : bool := negb (ne_None v) || negb (ne_zero v).

(** A processor built by set-up calls on a fresh one. *)
Definition processor_of (s : state) : processor :=
  {| proc_cmdline_handlers := cmdline_handlers s;
     proc_exception_handlers := exception_handlers s |}.

End App.

(** ** Further scenarios *)

Module Cases.

(** A message with an escaped field, as a handler passes it to
    [CommandLineArgumentError], and the exception that builds. *)
Definition escaped_message : string := "use {{name}}".

Definition escaped_error : exn :=
  Exn CommandLineArgumentError (VInt 2) "use {name}".

Definition escaped_state : state :=
  Sample.after [add_handler (More.raises escaped_error) [Sample.run_cmd]]
    (Sample.fresh_state false []).

(** Three processors set up one after the other: the first does not know
    [stop], the second fails on it with 3, the third would return 0. *)
Definition stop_cmd : argdef := APositional {| pa_name := "stop" |}.

Definition first_set_up : state :=
  Sample.after [add_handler (Sample.returns (VInt 0)) [Sample.run_cmd]]
    (Sample.fresh_state false []).

Definition second_set_up : state :=
  Sample.after [add_handler (Sample.returns (VInt 3)) [stop_cmd]]
    (CommandProcessor_init first_set_up).

Definition third_set_up : state :=
  Sample.after [add_handler (Sample.returns (VInt 0)) [stop_cmd]]
    (CommandProcessor_init second_set_up).

Definition knows_run : App.processor := App.processor_of first_set_up.
Definition fails_on_stop : App.processor := App.processor_of second_set_up.
Definition succeeds_on_stop : App.processor := App.processor_of third_set_up.

(** A source of bytes that counts up from 250. *)
Definition counting (n : Z) : list N :=
  (fun i => (250 + N.of_nat i) mod 256)%N <$> seq 0 (Z.to_nat n).

(** Lines of [/proc/mounts]: [/data] is mounted twice, and a line after
    them is cut short. *)
Definition mounts : list string :=
  [ "overlay / overlay rw,relatime 0 0" +:+ String "010"%char EmptyString;
    "/dev/sda1 /data ext4 ro,relatime 0 0" +:+ String "010"%char EmptyString;
    "tmpfs /data tmpfs rw,nosuid 0 0" +:+ String "010"%char EmptyString;
    "proc /proc" ].

(** A reader of decimal numerals: an optional sign, then digits. *)
Fixpoint digits (acc : Z) (seen : bool) (s : string) : option Z :=
  match s with
  | EmptyString => if seen then Some acc else None
  | String c r =>
      let n := N_of_ascii c in
      if ((48 <=? n) && (n <=? 57))%N
      then digits (10 * acc + Z.of_N (n - 48)) true r
      else None
  end.

Definition decimal (s : string) : option Z :=
  match s with
  | String "-" r => Z.opp <$> digits 0 false r
  | String "+" r => digits 0 false r
  | _ => digits 0 false s
  end.

(** An environment: a flag in capitals, an empty setting, a negative
    number and a value with a brace. *)
Definition environ : gmap string string :=
  {[ "VERBOSE" := "TRUE"; "EMPTY" := ""; "OFFSET" := "-5";
     "PATTERN" := "a{b" ]}.

End Cases.

(** * Properties *)

(** ** Error classes *)

Lemma format0_brace_free s : Str.brace_free s = true → Str.format0 s = Some s.
Proof.
  induction s as [|c r IH]; [done|].
  cbn [Str.brace_free Str.format0]. intros H.
  apply andb_prop in H as [H Hr]. apply andb_prop in H as [H1 H2].
  apply negb_true_iff in H1, H2. rewrite H1, H2, (IH Hr). done.
Qed.

(** The sibling classes whose [__init__] names their own class and an
    existing constant do attach their code. *)
Lemma sibling_constructors_attach_code message :
  Str.brace_free message = true →
  Errors.new_CommandLineArgumentError message
    = inr (Exn CommandLineArgumentError (VInt 2) message)
  ∧ Errors.new_FileNotFoundError message
    = inr (Exn FileNotFoundError (VInt 3) message)
  ∧ Errors.new_IoError message = inr (Exn IoError (VInt 4) message).
Proof.
  intros H.
  unfold Errors.new_CommandLineArgumentError, Errors.new_FileNotFoundError,
    Errors.new_IoError, Errors.subclass_init. cbn.
  unfold Errors.ExitCodeError_init. rewrite (format0_brace_free _ H). done.
Qed.

(** C3: [GeneralError(message)] and [ConfigurationError(message)] produce no
    exception object at all. The first passes another class to [super] and
    raises [TypeError]; the second evaluates a constant the module does not
    bind and raises [NameError]. So neither carries exit code 1 or 5. *)
Theorem error_constructors_raise message :
  (∃ e, Errors.new_GeneralError message = inl e ∧ exn_type e = TypeError)
  ∧ (∃ e, Errors.new_ConfigurationError message = inl e
          ∧ exn_type e = NameError).
Proof.
  split; eexists; split; reflexivity.
Qed.

(** ** Argument definitions *)

(** C8: with a string, a boolean and two integers, construction raises
    (a [ValueError]) exactly when [min_occurrence > max_occurrence] or
    [from_stdin] holds and [max_occurrence > 1]; otherwise it yields the
    instance with these attributes. The constructor is a function of its
    arguments only. *)
Theorem NamedArgument_init_validation self name b mn mx :
  match NamedArgument_init self (VStr name) (VBool b) (VInt mn) (VInt mx) with
  | inl e =>
      InvalidArgumentDefinition e ∧ exn_type e = ValueError
      ∧ (mn > mx ∨ (b = true ∧ mx > 1))
  | inr a =>
      ¬ (mn > mx ∨ (b = true ∧ mx > 1))
      ∧ a = {| na_id := self; na_name := name; na_from_stdin := b;
               na_min_occurrence := mn; na_max_occurrence := mx |}
  end.
Proof.
  unfold NamedArgument_init, InvalidArgumentDefinition.
  destruct (mn >? mx) eqn:Hmn; [cbn; split_and!; auto; lia|].
  destruct b; cbn.
  - destruct (mx >? 1) eqn:Hmx; cbn; [split_and!; auto; lia|].
    split; [lia|done].
  - split; [|done]. intros [?|[? _]]; [lia|done].
Qed.

(** The example of the specification. *)
Example NamedArgument_x_stdin_max2 :
  ∃ e, NamedArgument_init 0 (VStr "x") (VBool true) default_min_occurrence
         (VInt 2) = inl e ∧ InvalidArgumentDefinition e.
Proof. eexists. split; [reflexivity|]. left. reflexivity. Qed.

(** ** Registration *)

Lemma partition_args_spec args pos_args named_args :
  partition_args args pos_args named_args
  = if existsb is_other args then
      inl (raise_plain TypeError
             "Only 'PositionalArgument' and 'NamedArgument' objects are expected.")
    else inr (pos_args ++ positional_of args, named_args ++ named_of args).
Proof.
  revert pos_args named_args.
  induction args as [|[p|n|v] args IH]; intros pos_args named_args; cbn.
  - by rewrite !app_nil_r.
  - rewrite IH. destruct (existsb _ _); [done|]. by rewrite <- app_assoc.
  - rewrite IH. destruct (existsb _ _); [done|]. by rewrite <- app_assoc.
  - done.
Qed.

(** C4, as the code has it: [add_handler] raises (a [TypeError]) exactly
    when some element is neither a [PositionalArgument] nor a
    [NamedArgument], and then changes nothing; otherwise it appends the
    registration, whose named definitions are those given, in order, whatever
    their names. *)
Theorem add_handler_validation h args s :
  match add_handler h args s with
  | (Raise e, s') =>
      InvalidArgumentDefinition e ∧ exn_type e = TypeError
      ∧ existsb is_other args = true ∧ s' = s
  | (Ok _, s') =>
      existsb is_other args = false
      ∧ ∃ r, cmdline_handlers s' = cmdline_handlers s ++ [r]
             ∧ reg_positional r = positional_of args
             ∧ heap s !! reg_named r = None
             ∧ heap s' = <[reg_named r := named_of args]> (heap s)
  | (Return _, _) => False
  end.
Proof.
  unfold add_handler. rewrite partition_args_spec.
  destruct (existsb is_other args) eqn:E; cbn.
  - split_and!; auto. by right.
  - split; [done|]. eexists. split_and!; cbn; try done.
    apply not_elem_of_dom, is_fresh.
Qed.

(** C4, against the claim as stated: two named definitions whose names are
    equal when case is ignored are registered without failure. [add_handler]
    looks at the type of each element and at nothing else; no part of the
    module compares the names of definitions with one another. *)
Lemma add_handler_accepts_duplicate_names :
  Str.lower "x" = Str.lower "X"
  ∧ ∃ s', add_handler (Sample.returns (VInt 0)) Sample.duplicate_names
            (Sample.fresh_state false []) = (Ok tt, s')
          ∧ heap s' !!! 0%nat
            = [Sample.named 0 "x" false 0 1; Sample.named 1 "X" false 0 1].
Proof.
  split; [reflexivity|]. eexists. split; [reflexivity|]. by vm_compute.
Qed.

(** ** Reporting an argument error *)

Lemma fail_command_line_run A error s :
  Str.format0 error = Some error →
  run (@fail_command_line A error) s
  = (Returned (VInt Errors.EXIT_CODE_COMMAND_LINE_ARGUMENT_ERROR),
     after_report error s).
Proof.
  intros F.
  unfold run, fail_command_line, report_error, after_report, Log_write_error,
    Log_uses_stdio, print_error, gets, return_, skip, mbind, M_bind, mret, M_ret.
  destruct (error_level_enabled (log s)) eqn:E; rewrite ?F; cbn;
    destruct (uses_stdio (log s)) eqn:U; cbn; rewrite ?F; cbn; rewrite ?U; done.
Qed.

Lemma handler_calls_emit e s :
  handler_calls (emit e s)
  = handler_calls s ++ (if is_call e then [e] else []).
Proof.
  unfold handler_calls. cbn. rewrite filter_app. f_equal.
  destruct (is_call e) eqn:E.
  - by rewrite filter_cons_True.
  - rewrite filter_cons_False; [done|congruence].
Qed.

Lemma handler_calls_after_report error s :
  handler_calls (after_report error s) = handler_calls s.
Proof.
  unfold after_report.
  destruct (error_level_enabled (log s)), (uses_stdio (log s));
    rewrite ?handler_calls_emit; cbn; by rewrite ?app_nil_r.
Qed.

(** ** Tokens *)

Lemma split_arguments_malformed args pos named :
  (∃ t, t ∈ args ∧ malformed t) → split_arguments args pos named = None.
Proof.
  revert pos named.
  induction args as [|a args IH]; intros pos named [t [Hin [Hpre Hkey]]].
  - by apply elem_of_nil in Hin.
  - cbn [split_arguments]. apply elem_of_cons in Hin as [->|Hin].
    + rewrite Hpre. fold (key_of a). by rewrite Hkey.
    + destruct (Str.startswith "--" (Str.strip a)).
      * destruct (0 <? String.length _)%nat; [|done].
        apply IH. by exists t.
      * apply IH. by exists t.
Qed.

(** C9: an invocation with a named token whose key is empty returns exit
    code 2 once the error is reported: the state is the one before the call
    plus the report, whatever the registry holds, and no handler is called. *)
Theorem malformed_token_short_circuit args s :
  (∃ t, t ∈ args ∧ malformed t) →
  run (process args) s
  = (Returned (VInt 2), after_report msg_invalid_format s)
  ∧ handler_calls (after_report msg_invalid_format s) = handler_calls s.
Proof.
  intros H. split; [|apply handler_calls_after_report].
  unfold process. rewrite (split_arguments_malformed _ _ _ H).
  by apply fail_command_line_run.
Qed.

Lemma malformed_token_short_circuit_witness :
  (∃ t, t ∈ ["--"] ∧ malformed t)
  ∧ run (process ["--"]) (Sample.fresh_state false [])
    = (Returned (VInt 2),
       after_report msg_invalid_format (Sample.fresh_state false [])).
Proof.
  assert (H : ∃ t, t ∈ ["--"] ∧ malformed t).
  { exists "--". split; [by apply list_elem_of_singleton|].
    split; reflexivity. }
  split; [exact H|].
  exact (proj1 (malformed_token_short_circuit ["--"] _ H)).
Defined.

(** The second example of the specification. *)
Example marker_with_empty_key : malformed "--=x" ∧ malformed " -- =x ".
Proof. repeat split; reflexivity. Qed.

(** ** Frames of the computations *)

#[local] Instance same_processor_preorder : PreOrder same_processor.
Proof.
  split.
  - by intros s.
  - intros s1 s2 s3 (?&?&?&?) (?&?&?&?). unfold same_processor.
    split_and!; congruence.
Qed.

#[local] Instance frame_except_preorder l : PreOrder (frame_except l).
Proof.
  split.
  - by intros s.
  - intros s1 s2 s3 [H1 G1] [H2 G2]. split; [by etrans|].
    intros l' Hl'. by rewrite G2, G1.
Qed.

#[local] Instance frame_preorder : PreOrder frame.
Proof.
  split.
  - by intros s.
  - intros s1 s2 s3 [H1 G1] [H2 G2]. split; by etrans.
Qed.

Section preserves.
Context (R : relation state) `{!PreOrder R}.

Lemma preserves_ret {A} (a : A) : preserves R (mret a).
Proof. intros s. reflexivity. Qed.

Lemma preserves_skip : preserves R skip.
Proof. intros s. reflexivity. Qed.

Lemma preserves_return {A} v : preserves R (@return_ A v).
Proof. intros s. reflexivity. Qed.

Lemma preserves_raise {A} e : preserves R (@raise A e).
Proof. intros s. reflexivity. Qed.

Lemma preserves_gets {A} (f : state → A) : preserves R (gets f).
Proof. intros s. reflexivity. Qed.

Lemma preserves_bind {A B} (m : M A) (f : A → M B) :
  preserves R m → (∀ a, preserves R (f a)) → preserves R (m ≫= f).
Proof.
  intros Hm Hf s. unfold mbind, M_bind. specialize (Hm s).
  destruct (m s) as [[a|v|e] s']; cbn in *; [|done..].
  etrans; [exact Hm|apply Hf].
Qed.

Lemma preserves_try_except {A} (body : M A) handle :
  preserves R body → (∀ e, preserves R (handle e)) →
  preserves R (try_except body handle).
Proof.
  intros Hm Hf s. unfold try_except. specialize (Hm s).
  destruct (body s) as [[a|v|e] s']; cbn in *; [done..|].
  etrans; [exact Hm|apply Hf].
Qed.

Lemma preserves_for_each {X} (xs : list X) body :
  (∀ x, preserves R (body x)) → preserves R (for_each xs body).
Proof.
  intros Hb. induction xs as [|x xs IH]; cbn.
  - apply preserves_skip.
  - apply preserves_bind; [apply Hb|by intros _].
Qed.

Lemma preserves_for_fold {X A} (xs : list X) (a : A) body :
  (∀ a x, preserves R (body a x)) → preserves R (for_fold xs a body).
Proof.
  intros Hb. revert a. induction xs as [|x xs IH]; intros a; cbn.
  - apply preserves_ret.
  - apply preserves_bind; [apply Hb|intros a'; apply IH].
Qed.

(** Steps that only emit events or consume input. *)
Hypothesis R_emit : ∀ e s, R s (emit e s).
Hypothesis R_stdin : ∀ v s, R s (with_stdin_lines v s).

Lemma preserves_write_debug text args : preserves R (Log_write_debug text args).
Proof.
  intros s. unfold Log_write_debug.
  destruct (debug_level_enabled _); cbn; [apply R_emit|reflexivity].
Qed.

Lemma preserves_write_error text : preserves R (Log_write_error text).
Proof.
  intros s. unfold Log_write_error.
  destruct (error_level_enabled _); cbn; [|reflexivity].
  destruct (Str.format0 _); cbn; [apply R_emit|reflexivity].
Qed.

Lemma preserves_print_error text : preserves R (print_error text).
Proof.
  intros s. unfold print_error.
  destruct (Str.format0 _); cbn; [apply R_emit|reflexivity].
Qed.

Lemma preserves_report_error error : preserves R (report_error error).
Proof.
  apply preserves_bind; [apply preserves_write_error|intros _].
  apply preserves_bind; [apply preserves_gets|intros b].
  destruct (negb b); [apply preserves_print_error|apply preserves_skip].
Qed.

Lemma preserves_fail_command_line {A} error :
  preserves R (@fail_command_line A error).
Proof.
  apply preserves_bind; [apply preserves_report_error|intros _].
  apply preserves_return.
Qed.

Lemma preserves_readline_if_no_tty : preserves R readline_if_no_tty.
Proof.
  apply preserves_bind; [apply preserves_gets|intros tty].
  destruct (negb tty); [|apply preserves_ret].
  apply preserves_bind.
  - intros s. unfold stdin_readline.
    destruct (stdin_lines s); cbn; [reflexivity|apply R_stdin].
  - intros line. destruct (_ <? _)%nat; apply preserves_ret.
Qed.

Lemma preserves_check_required d : preserves R (check_required d).
Proof.
  unfold check_required.
  destruct (_ >? _); [apply preserves_fail_command_line|apply preserves_skip].
Qed.

Lemma preserves_call_handler i h pos named :
  preserves R (call_handler i h pos named).
Proof.
  intros s. unfold call_handler. destruct (h pos named); cbn; apply R_emit.
Qed.

Lemma preserves_invoke i r pos named : preserves R (invoke i r pos named).
Proof.
  apply preserves_bind; [apply preserves_call_handler|intros v].
  destruct (is_int v); [apply preserves_return|apply preserves_raise].
Qed.

Lemma preserves_handle_exception e : preserves R (handle_exception e).
Proof.
  apply preserves_bind; [apply preserves_gets|intros routes].
  destruct (find_route _ _ _) as [[i h]|].
  - apply preserves_bind; [|intros v; apply preserves_return].
    intros s. unfold call_exception_handler. destruct (h e); cbn; apply R_emit.
  - destruct (issubclass _ _); [|apply preserves_raise].
    apply preserves_bind; [apply preserves_print_error|intros _].
    apply preserves_return.
Qed.

Lemma preserves_read_command_line_values d specified :
  preserves R (read_command_line_values d specified).
Proof.
  unfold read_command_line_values.
  destruct (dict_get _ _); [|apply preserves_ret].
  apply preserves_for_fold. intros a x.
  apply preserves_bind; [apply preserves_write_debug|intros _].
  apply preserves_ret.
Qed.

End preserves.

Lemma frame_except_emit l e s : frame_except l s (emit e s).
Proof. done. Qed.

Lemma frame_except_stdin l v s : frame_except l s (with_stdin_lines v s).
Proof. done. Qed.

Lemma frame_emit e s : frame s (emit e s).
Proof. done. Qed.

Lemma frame_stdin v s : frame s (with_stdin_lines v s).
Proof. done. Qed.

Lemma preserves_remove_if_present l x :
  preserves (frame_except l) (remove_if_present l x).
Proof.
  intros s. unfold remove_if_present, list_contains, list_remove, gets, skip,
    mbind, M_bind, mret, M_ret.
  destruct (bool_decide _) eqn:E; cbn; [|reflexivity].
  rewrite E. cbn. split; [done|]. intros l' Hl'. cbn.
  by apply lookup_insert_ne.
Qed.

Lemma preserves_check_specified expected l item :
  preserves (frame_except l) (check_specified expected l item).
Proof.
  unfold check_specified. destruct (find_definition _ _).
  - apply preserves_bind; [apply _|apply preserves_remove_if_present|intros _].
    repeat case_match;
      auto using preserves_skip, preserves_fail_command_line,
        frame_except_emit with typeclass_instances.
  - apply preserves_fail_command_line; auto using frame_except_emit with typeclass_instances.
Qed.

Lemma preserves_read_stdin_value d l :
  preserves (frame_except l) (read_stdin_value d l).
Proof.
  unfold read_stdin_value. destruct (_ && _); [|apply preserves_ret, _].
  apply preserves_bind;
    [apply _|apply preserves_readline_if_no_tty;
             auto using frame_except_emit, frame_except_stdin with typeclass_instances|].
  intros [line|].
  - apply preserves_bind; [apply _|by apply preserves_write_debug; [apply _|]|intros _].
    apply preserves_bind; [apply _|apply preserves_remove_if_present|intros _].
    apply preserves_ret, _.
  - apply preserves_bind; [apply _|apply preserves_gets, _|intros tty].
    destruct tty.
    + apply preserves_bind; [apply _|by apply preserves_write_debug; [apply _|]|intros _].
      apply preserves_bind; [apply _|apply preserves_remove_if_present|intros _].
      apply preserves_ret, _.
    + apply preserves_bind; [apply _|by apply preserves_write_debug; [apply _|]|intros _].
      apply preserves_ret, _.
Qed.

Lemma preserves_craft_argument specified l effective d :
  preserves (frame_except l) (craft_argument specified l effective d).
Proof.
  unfold craft_argument.
  apply preserves_bind; [apply _|by apply preserves_write_debug; [apply _|]|intros _].
  apply preserves_bind; [apply _|apply preserves_read_stdin_value|intros v].
  apply preserves_bind;
    [apply _|by apply preserves_read_command_line_values; [apply _|]|intros vs].
  apply preserves_ret, _.
Qed.

(** The checks of the named arguments change no list object that exists
    when they start: they work on a new one. *)
Lemma preserves_effective_arguments r specified :
  preserves frame (effective_arguments r specified).
Proof.
  intros s. unfold effective_arguments.
  unfold mbind at 1, M_bind at 1, list_read at 1, gets at 1. cbn.
  unfold mbind at 1, M_bind at 1, list_copy at 1. cbn.
  set (l := fresh (dom (heap s))).
  set (s0 := with_heap _ s).
  assert (Hs0 : frame s s0).
  { split; [done|]. cbn. apply insert_subseteq, not_elem_of_dom, is_fresh. }
  match goal with |- frame s (?m s0).2 => assert (H : preserves (frame_except l) m) end.
  { apply preserves_bind; [apply _| |intros _].
    { apply preserves_for_each; [apply _|]. intros x. apply preserves_check_specified. }
    apply preserves_bind; [apply _| |intros eff].
    { apply preserves_for_fold; [apply _|]. intros a x. apply preserves_craft_argument. }
    apply preserves_bind; [apply _|apply preserves_gets, _|intros rem].
    apply preserves_bind; [apply _| |intros _; apply preserves_ret, _].
    apply preserves_for_each; [apply _|]. intros x.
    by apply preserves_check_required; [apply _|]. }
  destruct (H s0) as [Hp Hh]. split; [by etrans; [apply Hs0|]|].
  apply map_subseteq_spec. intros l' v Hl'.
  assert (l' ≠ l).
  { intros ->. pose proof (is_fresh (dom (heap s))) as Hf.
    apply not_elem_of_dom in Hf. fold l in Hf. congruence. }
  rewrite Hh by done. cbn. by rewrite lookup_insert_ne.
Qed.

Lemma preserves_process args : preserves frame (process args).
Proof.
  unfold process. destruct (split_arguments _ _ _) as [[pos specified]|].
  - apply preserves_bind; [apply _|apply preserves_gets, _|intros regs].
    destruct (best_fit _ _ _ _ _ _) as [e|[i c]]; [apply preserves_raise, _|].
    destruct (negb _); [|apply preserves_return, _].
    apply preserves_try_except; [apply _| |].
    + destruct (regs !! _); [|apply preserves_raise, _].
      apply preserves_bind; [apply _|apply preserves_effective_arguments|].
      intros eff. by apply preserves_invoke; [apply _|].
    + intros e. by apply preserves_handle_exception; [apply _|].
  - by apply preserves_fail_command_line; [apply _|].
Qed.

Lemma run_state {A} (m : M A) s : (run m s).2 = (m s).2.
Proof. unfold run. by destruct (m s) as [[?|?|?] ?]. Qed.

(** ** The registry under dispatch *)

(** The copy made for the bookkeeping is a new list object with the elements
    of the registration's list. *)
Lemma list_copy_fresh l s :
  ∃ l', list_copy l s = (Ok l', with_heap (<[l' := heap s !!! l]> (heap s)) s)
        ∧ heap s !! l' = None.
Proof.
  eexists. split; [reflexivity|]. apply not_elem_of_dom, is_fresh.
Qed.

Lemma process_all_frame invocations s : frame s (process_all invocations s).
Proof.
  revert s. induction invocations as [|args rest IH]; intros s; [done|].
  cbn. etrans; [|apply IH]. rewrite run_state. apply preserves_process.
Qed.

(** C10: after any sequence of calls of [process], the list of registrations
    and the list of exception routes are the ones before the calls, and
    every list object that existed before them, so every registration's list
    of named definitions, is still there with the same elements. What the
    calls add to the heap are the copies they work on. (A handler is
    represented by its result; what a handler does on its own account is
    not a step of [process].) *)
Theorem process_preserves_registry invocations s :
  cmdline_handlers (process_all invocations s) = cmdline_handlers s
  ∧ exception_handlers (process_all invocations s) = exception_handlers s
  ∧ heap s ⊆ heap (process_all invocations s).
Proof.
  destruct (process_all_frame invocations s) as [(?&?&_) ?]. done.
Qed.

(** Hence a later call reads the registry an earlier call read. *)
Corollary registry_unchanged invocations s :
  registered s → registry (process_all invocations s) = registry s.
Proof.
  intros Hreg.
  destruct (process_all_frame invocations s) as [(Hc & _) Hh].
  unfold registry. rewrite Hc. apply map_ext_in. intros r Hr.
  f_equal. apply list_elem_of_In, Hreg in Hr as [defs Hdefs].
  rewrite Hdefs. by eapply lookup_weaken.
Qed.

Lemma registered_init s : registered (CommandProcessor_init s).
Proof. intros r Hr. by apply elem_of_nil in Hr. Qed.

Lemma registered_add_handler h args s :
  registered s → registered (add_handler h args s).2.
Proof.
  intros Hreg. unfold add_handler.
  destruct (partition_args args [] []) as [e|[pos_args named_args]]; [done|].
  cbn. intros r' Hr'. apply elem_of_app in Hr' as [Hr'|Hr'].
  - destruct (Hreg r' Hr') as [defs Hdefs]. exists defs. cbn.
    rewrite lookup_insert_ne; [done|]. intros Heq.
    pose proof (is_fresh (dom (heap s))) as Hf.
    apply not_elem_of_dom in Hf. congruence.
  - apply list_elem_of_singleton in Hr' as ->. cbn.
    by rewrite lookup_insert_eq.
Qed.

(** ** From the selection to the handler *)

Lemma process_selects s args index r pos specified :
  selects s args index r pos specified →
  process args s = try_except (dispatch index r pos specified) handle_exception s.
Proof.
  intros (Hsplit & [count Hfit] & Hr). unfold process. rewrite Hsplit.
  unfold mbind at 1, M_bind at 1, gets at 1. cbn. rewrite Hfit.
  replace (Z.of_nat index =? -1) with false by (symmetry; apply Z.eqb_neq; lia).
  cbn. rewrite Nat2Z.id, Hr. done.
Qed.

Lemma dispatch_invoke index r pos specified s effective s1 :
  effective_arguments r specified s = (Ok effective, s1) →
  try_except (dispatch index r pos specified) handle_exception s
  = try_except (invoke index r pos effective) handle_exception s1.
Proof.
  intros H. unfold try_except, dispatch, mbind, M_bind. by rewrite H.
Qed.

(** ** A handler that returns no exit code *)

(** C6, as the code has it: when the selected handler returns a value that
    is not an integer, the [RuntimeError] is raised inside the [try]
    statement. The first route registered for [RuntimeError], if there is
    one, is called with it and what that route returns or raises is the
    result of [process]; with no such route the error propagates, and it is
    never turned into an exit code by the clause for [ExitCodeError]. *)
Theorem handler_contract_violation_routing
    s args index r pos specified effective s1 v :
  selects s args index r pos specified →
  effective_arguments r specified s = (Ok effective, s1) →
  reg_handler r pos effective = HReturn v →
  is_int v = false →
  run (process args) s
  = let s2 := emit (CallHandler index pos effective) s1 in
    match find_route (exception_handlers s) RuntimeError 0 with
    | Some (i, h) =>
        (match h handler_contract_error with
         | HReturn v' => Returned v'
         | HRaise e' => Raised e'
         end,
         emit (CallExceptionHandler i handler_contract_error) s2)
    | None => (Raised handler_contract_error, s2)
    end.
Proof.
  intros Hsel Heff Hh Hv. unfold run.
  rewrite (process_selects _ _ _ _ _ _ Hsel), (dispatch_invoke _ _ _ _ _ _ _ Heff).
  pose proof (preserves_effective_arguments r specified s) as [(_ & Hroutes & _) _].
  rewrite Heff in Hroutes. cbn in Hroutes. rewrite <- Hroutes.
  unfold try_except, invoke, call_handler, mbind, M_bind.
  rewrite Hh, Hv. cbn.
  unfold handle_exception, mbind, M_bind, gets. cbn.
  destruct (find_route _ _ _) as [[i h]|]; [|done].
  unfold call_exception_handler. by destruct (h _).
Qed.

Lemma handler_contract_violation_routing_witness :
  ∃ r s1,
    selects Sample.contract_state ["run"] 0 r ["run"] []
    ∧ effective_arguments r [] Sample.contract_state = (Ok [], s1)
    ∧ run (process ["run"]) Sample.contract_state
      = (Returned (VInt 7),
         emit (CallExceptionHandler 0 handler_contract_error)
           (emit (CallHandler 0 ["run"] []) s1)).
Proof.
  eexists _, _.
  assert (Hsel : selects Sample.contract_state ["run"] 0
                   (Build_registration (Sample.returns VNone)
                      [Build_PositionalArgument "run"] 0) ["run"] []).
  { split; [reflexivity|]. split; [by exists 1|reflexivity]. }
  split; [exact Hsel|]. split; [reflexivity|].
  exact (handler_contract_violation_routing _ _ _ _ _ _ _ _ VNone
           Hsel eq_refl eq_refl eq_refl).
Defined.

(** C6, against the claim as stated: a route registered for [RuntimeError]
    consumes the failure of a handler that returned [None], and [process]
    returns what the route returns. The [raise] stands inside the [try]
    statement, and its [except] clause offers every exception to the routes
    first. *)
Lemma contract_violation_is_routed :
  (run (process ["run"]) Sample.contract_state).1 = Returned (VInt 7)
  ∧ trace (run (process ["run"]) Sample.contract_state).2
    = [CallHandler 0 ["run"] [];
       CallExceptionHandler 0 handler_contract_error].
Proof. split; reflexivity. Qed.

(** ** The checks of the named arguments, step by step *)

Lemma ends_with_bind {A B} (m : M A) (f : A → M B) s a b Q Q' :
  ends_with m s a Q → (∀ s', Q s' → ends_with (f a) s' b Q') →
  ends_with (m ≫= f) s b Q'.
Proof.
  intros (s' & Hm & HQ) Hf. destruct (Hf s' HQ) as (s'' & Hf' & HQ').
  exists s''. split; [|done]. unfold mbind, M_bind. by rewrite Hm.
Qed.

Lemma ends_with_ret {A} (a : A) s (Q : state → Prop) :
  Q s → ends_with (mret a) s a Q.
Proof. intros HQ. by exists s. Qed.

Lemma with_heap_id s : with_heap (heap s) s = s.
Proof. by destruct s. Qed.

Lemma remove_first_absent x L : x ∉ L → remove_first x L = L.
Proof.
  induction L as [|y L IH]; [done|]. intros H.
  apply not_elem_of_cons in H as [Hxy HL]. cbn.
  rewrite bool_decide_eq_false_2 by congruence. by rewrite IH.
Qed.

Lemma remove_if_present_run l x L s :
  heap s !! l = Some L →
  remove_if_present l x s
  = (Ok tt, with_heap (<[l := remove_first x L]> (heap s)) s).
Proof.
  intros Hl.
  unfold remove_if_present, list_contains, list_remove, gets, skip,
    mbind, M_bind, mret, M_ret.
  rewrite (lookup_total_correct _ _ _ Hl).
  destruct (bool_decide (x ∈ L)) eqn:E; cbn.
  - by rewrite (lookup_total_correct _ _ _ Hl), E.
  - apply bool_decide_eq_false in E. rewrite (remove_first_absent _ _ E).
    by rewrite (insert_id _ _ _ Hl), with_heap_id.
Qed.

Lemma remove_if_present_view l x L lines tty s :
  loop_view l L lines tty s →
  ends_with (remove_if_present l x) s tt
    (loop_view l (remove_first x L) lines tty).
Proof.
  intros (Hl & Hs & Ht). eexists. split; [by apply remove_if_present_run|].
  split_and!; cbn; [apply lookup_insert_eq|done..].
Qed.

Lemma write_debug_view text args l L lines tty s :
  loop_view l L lines tty s →
  ends_with (Log_write_debug text args) s tt (loop_view l L lines tty).
Proof.
  intros Hv. unfold ends_with, Log_write_debug.
  destruct (debug_level_enabled _); eexists; (split; [reflexivity|done]).
Qed.

Lemma fail_command_line_not_ok A error s a s' :
  @fail_command_line A error s ≠ (Ok a, s').
Proof.
  unfold fail_command_line, report_error, Log_write_error, Log_uses_stdio,
    print_error, gets, return_, skip, mbind, M_bind, mret, M_ret.
  repeat (case_match; simplify_eq/=); done.
Qed.

Lemma for_each_cons_not_ok {X} (body : X → M unit) x xs s :
  (∀ a s', body x s ≠ (Ok a, s')) →
  ∀ a s', for_each (x :: xs) body s ≠ (Ok a, s').
Proof.
  intros H a s'. cbn. unfold mbind, M_bind.
  destruct (body x s) as [[u|v|e] s1] eqn:E; [|done..].
  by destruct (H u s1).
Qed.

(** The loop over the supplied keys ends normally exactly when every key is
    valid, and then it has removed the definitions found from the
    not-yet-satisfied list, and done nothing else. *)
Lemma check_loop_spec expected l specified L s :
  heap s !! l = Some L →
  if forallb (valid_item expected) specified then
    for_each specified (check_specified expected l) s
    = (Ok tt,
       with_heap (<[l := unsatisfied_after_check expected specified L]> (heap s)) s)
  else ∀ a s', for_each specified (check_specified expected l) s ≠ (Ok a, s').
Proof.
  revert L s. induction specified as [|item rest IH]; intros L s Hl.
  - cbn. unfold skip, mret, M_ret. by rewrite (insert_id _ _ _ Hl), with_heap_id.
  - cbn [forallb]. unfold valid_item at 1.
    destruct (find_definition item.1 expected) as [d|] eqn:Hfind; cbn [andb].
    + set (s1 := with_heap (<[l := remove_first d L]> (heap s)) s).
      assert (Hs1 : heap s1 !! l = Some (remove_first d L))
        by apply lookup_insert_eq.
      assert (Hhead : ∀ k : M unit,
        (check_specified expected l item ≫= (λ _, k)) s
        = if negb (Z.of_nat (length item.2) <? na_min_occurrence d)
             && negb (Z.of_nat (length item.2) >? na_max_occurrence d)
          then k s1
          else (check_specified expected l item ≫= (λ _, k)) s).
      { intros k. destruct (_ && _) eqn:E; [|done].
        apply andb_prop in E as [E1 E2]. apply negb_true_iff in E1, E2.
        unfold check_specified. rewrite Hfind.
        unfold mbind, M_bind. rewrite (remove_if_present_run _ _ _ _ Hl).
        by rewrite E1, E2. }
      destruct (_ && _) eqn:E; cbn [andb].
      * specialize (IH _ _ Hs1). cbn [for_each]. rewrite Hhead.
        destruct (forallb _ rest).
        -- rewrite IH. unfold unsatisfied_after_check. cbn [foldl].
           replace (observe expected L item) with (remove_first d L)
             by (unfold observe; by rewrite Hfind).
           subst s1. unfold with_heap. cbn. by rewrite insert_insert_eq.
        -- done.
      * apply for_each_cons_not_ok. intros a s'.
        unfold check_specified. rewrite Hfind.
        unfold mbind, M_bind. rewrite (remove_if_present_run _ _ _ _ Hl).
        apply andb_false_iff in E as [E|E]; apply negb_false_iff in E.
        -- rewrite E. apply fail_command_line_not_ok.
        -- destruct (_ <? _); [apply fail_command_line_not_ok|].
           rewrite E. apply fail_command_line_not_ok.
    + apply for_each_cons_not_ok. intros a s'.
      unfold check_specified. rewrite Hfind. apply fail_command_line_not_ok.
Qed.

(** The loop over the definitions left ends normally exactly when all of
    them are optional, and then it has done nothing. *)
Lemma required_loop_spec L s :
  if forallb optional L then for_each L check_required s = (Ok tt, s)
  else ∀ a s', for_each L check_required s ≠ (Ok a, s').
Proof.
  induction L as [|d L IH]; [done|]. cbn [forallb]. unfold optional at 1.
  destruct (na_min_occurrence d >? 0) eqn:E; cbn [negb andb].
  - apply for_each_cons_not_ok. intros a s'. unfold check_required.
    rewrite E. apply fail_command_line_not_ok.
  - destruct (forallb optional L).
    + cbn. unfold check_required. rewrite E. exact IH.
    + intros a s'. cbn. unfold check_required. rewrite E. apply IH.
Qed.

Lemma readline_if_no_tty_view l L lines tty s :
  loop_view l L lines tty s →
  ends_with readline_if_no_tty s (stdin_value tty lines).1
    (loop_view l L (stdin_value tty lines).2 tty).
Proof.
  intros (Hl & Hs & Ht).
  unfold ends_with, readline_if_no_tty, stdin_isatty_, stdin_readline, gets,
    stdin_value, mbind, M_bind, mret, M_ret.
  rewrite Ht. destruct tty; cbn.
  - exists s. by repeat split.
  - rewrite Hs. destruct lines as [|line rest]; cbn.
    + exists s. by repeat split.
    + destruct (String.length line); cbn;
        eexists; (split; [reflexivity|by repeat split]).
Qed.

Lemma copy_values_view vs acc l L lines tty s :
  loop_view l L lines tty s →
  ends_with
    (for_fold vs acc (fun (a : list string) v =>
       Log_write_debug "=> Reading from command line returned '{0}'." [v] ;;
       mret (a ++ [v])))
    s (acc ++ vs) (loop_view l L lines tty).
Proof.
  revert acc s. induction vs as [|v vs IH]; intros acc s Hv; cbn.
  - rewrite app_nil_r. by apply ends_with_ret.
  - eapply ends_with_bind.
    + eapply ends_with_bind; [by apply write_debug_view|].
      intros s' Hs'. apply ends_with_ret, Hs'.
    + intros s' Hs'. cbn. rewrite (cons_middle v acc vs), app_assoc.
      by apply IH.
Qed.

Lemma read_command_line_values_view d specified l L lines tty s :
  loop_view l L lines tty s →
  ends_with (read_command_line_values d specified) s
    (default [] (dict_get (na_name d) specified)) (loop_view l L lines tty).
Proof.
  intros Hv. unfold read_command_line_values.
  destruct (dict_get _ _) as [vs|]; cbn; [|by apply ends_with_ret].
  by apply (copy_values_view vs []).
Qed.

Lemma read_stdin_value_view d l L lines tty s :
  loop_view l L lines tty s →
  let v := if stdin_enabled d then (stdin_value tty lines).1 else None in
  ends_with (read_stdin_value d l) s v
    (loop_view l
       (if stdin_enabled d && (bool_decide (is_Some v) || tty)
        then remove_first d L else L)
       (if stdin_enabled d then (stdin_value tty lines).2 else lines) tty).
Proof.
  intros Hv. unfold read_stdin_value. fold (stdin_enabled d).
  destruct (stdin_enabled d); cbn [andb]; [|by apply ends_with_ret].
  eapply ends_with_bind; [by apply readline_if_no_tty_view|].
  intros s1 Hs1. destruct (stdin_value tty lines).1 as [line|] eqn:Hline.
  - rewrite bool_decide_eq_true_2 by eauto. cbn [orb].
    eapply ends_with_bind; [by apply write_debug_view|]. intros s2 Hs2.
    eapply ends_with_bind; [by apply remove_if_present_view|]. intros s3 Hs3.
    by apply ends_with_ret.
  - rewrite bool_decide_eq_false_2 by (by intros [? ?]). cbn [orb].
    assert (Htty : ends_with stdin_isatty_ s1 tty
                     (loop_view l L (stdin_value tty lines).2 tty)).
    { exists s1. split; [|exact Hs1].
      unfold stdin_isatty_, gets. by rewrite (proj2 (proj2 Hs1)). }
    eapply ends_with_bind; [exact Htty|]. intros s2 Hs2. destruct tty.
    + eapply ends_with_bind; [by apply write_debug_view|]. intros s3 Hs3.
      eapply ends_with_bind; [by apply remove_if_present_view|]. intros s4 Hs4.
      by apply ends_with_ret.
    + eapply ends_with_bind; [by apply write_debug_view|]. intros s3 Hs3.
      by apply ends_with_ret.
Qed.

Lemma effective_values_code specified d v :
  effective_values specified d v
  = match v with
    | Some line =>
        if (length (default [] (dict_get (na_name d) specified)) =? 0)%nat
        then default [] (dict_get (na_name d) specified) ++ [line]
        else default [] (dict_get (na_name d) specified)
    | None => default [] (dict_get (na_name d) specified)
    end.
Proof.
  unfold effective_values. by destruct (dict_get _ _) as [[|? ?]|], v.
Qed.

Lemma craft_argument_view specified l effective d L lines tty s :
  loop_view l L lines tty s →
  ends_with (craft_argument specified l effective d) s
    (craft_step specified tty (effective, L, lines) d).1.1
    (loop_view l (craft_step specified tty (effective, L, lines) d).1.2
       (craft_step specified tty (effective, L, lines) d).2 tty).
Proof.
  intros Hv. unfold craft_argument.
  eapply ends_with_bind; [by apply write_debug_view|]. intros s1 Hs1.
  eapply ends_with_bind; [by apply read_stdin_value_view|]. intros s2 Hs2.
  eapply ends_with_bind; [by apply read_command_line_values_view|].
  intros s3 Hs3. cbn beta in Hs3.
  unfold craft_step.
  destruct (stdin_enabled d); cbn [andb] in *.
  - destruct (stdin_value tty lines) as [v lines'] eqn:Hsv. cbn [fst snd] in *.
    rewrite effective_values_code. by apply ends_with_ret.
  - rewrite effective_values_code. by apply ends_with_ret.
Qed.

(** The loop over the definitions always ends normally, with the effective
    arguments, the not-yet-satisfied list and the input of [craft_step]. *)
Lemma craft_loop_view specified l expected effective L lines tty s :
  loop_view l L lines tty s →
  let acc := foldl (craft_step specified tty) (effective, L, lines) expected in
  ends_with (for_fold expected effective (craft_argument specified l)) s
    acc.1.1 (loop_view l acc.1.2 acc.2 tty).
Proof.
  revert effective L lines s.
  induction expected as [|d rest IH]; intros effective L lines s Hv;
    cbn [for_fold foldl].
  - by apply ends_with_ret.
  - eapply ends_with_bind; [by apply craft_argument_view|].
    intros s1 Hs1.
    destruct (craft_step specified tty (effective, L, lines) d)
      as [[eff1 L1] lines1].
    cbn [fst snd] in *. by apply (IH eff1 L1 lines1).
Qed.

Lemma bind_ok {A B} (m : M A) (f : A → M B) s a s' :
  m s = (Ok a, s') → (m ≫= f) s = f a s'.
Proof. intros H. unfold mbind, M_bind. by rewrite H. Qed.

Lemma bind_not_ok {A B} (m : M A) (f : A → M B) s :
  (∀ a s', m s ≠ (Ok a, s')) → ∀ b s', (m ≫= f) s ≠ (Ok b, s').
Proof.
  intros H b s'. unfold mbind, M_bind.
  destruct (m s) as [[a|v|e] s1] eqn:E; [|done..]. by destruct (H a s1).
Qed.

(** The checks of the named arguments end normally exactly when the
    supplied keys are valid and the definitions left unsatisfied are
    optional; the effective arguments are then those of [assemble]. *)
Lemma effective_arguments_spec r specified s :
  let expected := heap s !!! reg_named r in
  if accepts expected specified (stdin_isatty s) (stdin_lines s) then
    ∃ s1, effective_arguments r specified s
          = (Ok (assemble expected specified (stdin_isatty s) (stdin_lines s)).1.1,
             s1)
  else ∀ effective s1, effective_arguments r specified s ≠ (Ok effective, s1).
Proof.
  intros expected. unfold effective_arguments, accepts.
  rewrite (bind_ok (list_read _) _ s expected s) by done.
  destruct (list_copy_fresh (reg_named r) s) as (l & Hcopy & Hfresh).
  fold expected in Hcopy.
  set (s0 := with_heap (<[l := expected]> (heap s)) s) in *.
  assert (Hl0 : heap s0 !! l = Some expected) by apply lookup_insert_eq.
  pose proof (check_loop_spec expected l specified expected s0 Hl0) as Hcheck.
  destruct (forallb (valid_item expected) specified); cbn [andb].
  - set (s0' := with_heap _ s0) in Hcheck.
    assert (Hview : loop_view l (unsatisfied_after_check expected specified expected)
                      (stdin_lines s) (stdin_isatty s) s0').
    { split; [apply lookup_insert_eq|done]. }
    destruct (craft_loop_view specified l expected [] _ _ _ _ Hview)
      as (s2 & Hcraft & Hl2 & _ & _).
    fold (assemble expected specified (stdin_isatty s) (stdin_lines s)) in *.
    set (plan := assemble expected specified (stdin_isatty s) (stdin_lines s)) in *.
    pose proof (required_loop_spec plan.1.2 s2) as Hreq.
    assert (Hprefix : ∀ k : dict → list NamedArgument → M dict,
      (list_copy (reg_named r) ≫= λ ns,
         for_each specified (check_specified expected ns) ≫= λ _,
           for_fold expected [] (craft_argument specified ns) ≫= λ eff,
             list_read ns ≫= λ remaining, k eff remaining) s
      = k plan.1.1 plan.1.2 s2).
    { intros k. rewrite (bind_ok _ _ _ _ _ Hcopy), (bind_ok _ _ _ _ _ Hcheck),
        (bind_ok _ _ _ _ _ Hcraft).
      rewrite (bind_ok (list_read l) _ s2 plan.1.2 s2); [done|].
      unfold list_read, gets. by rewrite (lookup_total_correct _ _ _ Hl2). }
    rewrite Hprefix. destruct (forallb optional plan.1.2).
    + exists s2. by rewrite (bind_ok _ _ _ _ _ Hreq).
    + intros eff s1. by apply bind_not_ok.
  - intros eff s1. rewrite (bind_ok _ _ _ _ _ Hcopy). by apply bind_not_ok.
Qed.

Lemma effective_arguments_accepted r specified s effective s1 :
  effective_arguments r specified s = (Ok effective, s1) →
  accepts (heap s !!! reg_named r) specified (stdin_isatty s) (stdin_lines s)
  = true
  ∧ effective
    = (assemble (heap s !!! reg_named r) specified (stdin_isatty s)
         (stdin_lines s)).1.1.
Proof.
  intros H. pose proof (effective_arguments_spec r specified s) as Hspec.
  cbn zeta in Hspec. destruct (accepts _ _ _ _).
  - destruct Hspec as [s1' Hs1']. split; [done|]. congruence.
  - by destruct (Hspec effective s1).
Qed.

(** ** Dictionaries *)

Lemma dict_get_set_eq k v d : dict_get k (dict_set k v d) = Some v.
Proof.
  induction d as [|[k' v'] d IH]; cbn.
  - by rewrite bool_decide_eq_true_2.
  - destruct (bool_decide (k' = k)) eqn:E; cbn.
    + by rewrite bool_decide_eq_true_2.
    + by rewrite E.
Qed.

Lemma dict_get_set_ne k k' v d :
  k' ≠ k → dict_get k (dict_set k' v d) = dict_get k d.
Proof.
  intros Hne. induction d as [|[k'' v''] d IH]; cbn.
  - by rewrite bool_decide_eq_false_2.
  - destruct (bool_decide (k'' = k')) eqn:E; cbn.
    + apply bool_decide_eq_true in E as ->.
      by rewrite !bool_decide_eq_false_2.
    + by rewrite IH.
Qed.

Lemma dict_get_append k k' x d vs :
  dict_get k (dict_append k' x d) = Some vs →
  vs ≠ [] ∨ dict_get k d = Some vs.
Proof.
  unfold dict_append. destruct (decide (k' = k)) as [->|Hne].
  - destruct (dict_get k d) as [ws|]; rewrite dict_get_set_eq;
      intros [= <-]; left; [by destruct ws|done].
  - destruct (dict_get k' d); rewrite dict_get_set_ne by done; auto.
Qed.

(** Every supplied key comes with at least one value. *)
Lemma split_arguments_values args pos named pos' named' :
  split_arguments args pos named = Some (pos', named') →
  (∀ k vs, dict_get k named = Some vs → vs ≠ []) →
  ∀ k vs, dict_get k named' = Some vs → vs ≠ [].
Proof.
  revert pos named. induction args as [|a args IH]; intros pos named H Hn.
  - by injection H as <- <-.
  - cbn [split_arguments] in H. destruct (Str.startswith _ _).
    + destruct (0 <? _)%nat; [|done]. eapply IH; [exact H|].
      intros k vs Hk. apply dict_get_append in Hk as [?|Hk]; [done|].
      by eapply Hn.
    + by eapply IH.
Qed.

(** ** The assembly of the effective arguments *)

Lemma craft_step_effective specified tty acc d :
  ∃ v, (craft_step specified tty acc d).1.1
       = dict_set (na_name d) (effective_values specified d v) acc.1.1
       ∧ v = (if stdin_enabled d then (stdin_value tty acc.2).1 else None).
Proof.
  destruct acc as [[eff L] lines]. unfold craft_step. cbn [fst snd].
  destruct (stdin_enabled d).
  - destruct (stdin_value tty lines) as [v lines']. by exists v.
  - by exists None.
Qed.

Lemma craft_step_lines specified tty acc d :
  (craft_step specified tty acc d).2
  = if stdin_enabled d then (stdin_value tty acc.2).2 else acc.2.
Proof.
  destruct acc as [[eff L] lines]. unfold craft_step. cbn [fst snd].
  destruct (stdin_enabled d); [|done]. by destruct (stdin_value tty lines).
Qed.

Lemma craft_step_unsatisfied specified tty acc d :
  (craft_step specified tty acc d).1.2
  = if stdin_enabled d
       && (bool_decide (is_Some (stdin_value tty acc.2).1) || tty)
    then remove_first d acc.1.2 else acc.1.2.
Proof.
  destruct acc as [[eff L] lines]. unfold craft_step. cbn [fst snd].
  destruct (stdin_enabled d); [|done]. by destruct (stdin_value tty lines).
Qed.

(** Later definitions with other names leave the values of a name alone. *)
Lemma craft_keeps_other_names specified tty post name acc :
  (∀ d', d' ∈ post → na_name d' ≠ name) →
  dict_get name (foldl (craft_step specified tty) acc post).1.1
  = dict_get name acc.1.1.
Proof.
  revert acc. induction post as [|d post IH]; intros acc H; [done|].
  cbn [foldl]. rewrite IH by (intros d' Hd'; apply H; by right).
  destruct (craft_step_effective specified tty acc d) as (v & -> & _).
  apply dict_get_set_ne, H. by left.
Qed.

(** Without a terminal each definition that reads standard input takes one
    line from it. *)
Lemma craft_lines_piped specified pre acc :
  (foldl (craft_step specified false) acc pre).2 = drop (stdin_reads pre) acc.2.
Proof.
  revert acc. induction pre as [|d pre IH]; intros acc; [done|].
  cbn [foldl]. rewrite IH, craft_step_lines. unfold stdin_reads.
  destruct (stdin_enabled d) eqn:E.
  - rewrite filter_cons_True by done. cbn [length].
    unfold stdin_value. destruct acc.2 as [|line rest]; cbn; [|done].
    by rewrite drop_nil.
  - rewrite filter_cons_False by congruence. done.
Qed.

(** The values a definition gets when no later definition has its name. *)
Lemma assemble_values expected specified tty lines pre d post :
  expected = pre ++ d :: post →
  (∀ d', d' ∈ post → na_name d' ≠ na_name d) →
  dict_get (na_name d) (assemble expected specified tty lines).1.1
  = Some (effective_values specified d
            (if stdin_enabled d
             then (stdin_value tty
                     (foldl (craft_step specified tty)
                        ([], unsatisfied_after_check expected specified expected,
                         lines) pre).2).1
             else None)).
Proof.
  intros -> Hpost. unfold assemble. rewrite foldl_app. cbn [foldl].
  rewrite craft_keeps_other_names by done.
  destruct (craft_step_effective specified tty
              (foldl (craft_step specified tty)
                 ([], unsatisfied_after_check (pre ++ d :: post) specified
                        (pre ++ d :: post), lines) pre) d) as (v & -> & ->).
  apply dict_get_set_eq.
Qed.

(** ** The call of the handler *)

#[local] Instance trace_extends_preorder : PreOrder trace_extends.
Proof.
  split.
  - intros s. unfold trace_extends. done.
  - intros s1 s2 s3. unfold trace_extends. by etrans.
Qed.

Lemma trace_extends_emit e s : trace_extends s (emit e s).
Proof. by apply prefix_app_r. Qed.

Lemma trace_extends_stdin v s : trace_extends s (with_stdin_lines v s).
Proof. unfold trace_extends. done. Qed.

(** Once the checks have passed the handler is called with the positional
    tokens and the effective arguments, whatever becomes of its result. *)
Lemma invoke_emits_call index r pos effective s1 :
  CallHandler index pos effective
  ∈ trace (try_except (invoke index r pos effective) handle_exception s1).2.
Proof.
  set (s2 := emit (CallHandler index pos effective) s1).
  assert (Hin : ∀ s', trace_extends s2 s' →
                      CallHandler index pos effective ∈ trace s').
  { intros s' [evs ->]. cbn. rewrite !elem_of_app, list_elem_of_singleton. auto. }
  unfold try_except, invoke, call_handler, mbind, M_bind. fold s2.
  destruct (reg_handler r pos effective) as [v|e].
  - destruct (is_int v); [by apply (Hin s2)|].
    apply Hin. apply (preserves_handle_exception trace_extends);
      auto using trace_extends_emit with typeclass_instances.
  - apply Hin. apply (preserves_handle_exception trace_extends);
      auto using trace_extends_emit with typeclass_instances.
Qed.

Lemma process_calls_handler s args index r pos specified effective s1 :
  selects s args index r pos specified →
  effective_arguments r specified s = (Ok effective, s1) →
  run (process args) s
  = run (try_except (invoke index r pos effective) handle_exception) s1
  ∧ CallHandler index pos effective ∈ trace (run (process args) s).2.
Proof.
  intros Hsel Heff.
  assert (H : process args s
              = try_except (invoke index r pos effective) handle_exception s1).
  { by rewrite (process_selects _ _ _ _ _ _ Hsel),
      (dispatch_invoke _ _ _ _ _ _ _ Heff). }
  split; [unfold run; by rewrite H|].
  rewrite run_state, H. apply invoke_emits_call.
Qed.

(** ** Standard input and the command line *)

(** C7, as the code has it: let [d] be a definition of the selected
    registration that reads standard input, with no later definition of the
    same name, and let the checks pass, so that the handler is called. If
    the key of [d] was supplied, the handler receives the supplied values for
    it. If it was not, standard input is not a terminal and the line read
    for [d] (the one after those read for the earlier definitions) is not
    empty, the handler receives that line, stripped on the right, as the
    only value. *)
Theorem stdin_fallback_and_precedence
    s args index r pos specified pre d post effective s1 :
  selects s args index r pos specified →
  heap s !!! reg_named r = pre ++ d :: post →
  stdin_enabled d = true →
  (∀ d', d' ∈ post → na_name d' ≠ na_name d) →
  effective_arguments r specified s = (Ok effective, s1) →
  CallHandler index pos effective ∈ trace (run (process args) s).2
  ∧ (∀ vs, dict_get (na_name d) specified = Some vs →
           dict_get (na_name d) effective = Some vs)
  ∧ (∀ line, dict_get (na_name d) specified = None →
             stdin_isatty s = false →
             stdin_lines s !! stdin_reads pre = Some line →
             line ≠ EmptyString →
             dict_get (na_name d) effective = Some [Str.rstrip line]).
Proof.
  intros Hsel Hexp Hd Hpost Heff.
  split; [by eapply process_calls_handler|].
  apply effective_arguments_accepted in Heff as [_ ->].
  rewrite (assemble_values _ specified _ _ pre d post Hexp Hpost), Hd.
  split.
  - intros vs Hvs. f_equal. unfold effective_values. rewrite Hvs.
    destruct vs as [|v vs]; [|done].
    destruct Hsel as (Hsplit & _).
    by destruct (split_arguments_values _ _ _ _ _ Hsplit
                   ltac:(done) _ _ Hvs).
  - intros line Hnone Htty Hline Hne. f_equal.
    unfold effective_values. rewrite Hnone, Htty, craft_lines_piped. cbn [snd].
    unfold stdin_value.
    rewrite (drop_S _ _ _ Hline). destruct line; [done|]. done.
Qed.

Lemma stdin_fallback_and_precedence_witness :
  ∃ r effective s1,
    selects (Sample.password_state false [Sample.line "abc"]) ["run"] 0 r
      ["run"] []
    ∧ heap (Sample.password_state false [Sample.line "abc"]) !!! reg_named r
      = [] ++ Sample.named 0 "pw" true 1 1 :: []
    ∧ effective_arguments r [] (Sample.password_state false [Sample.line "abc"])
      = (Ok effective, s1)
    ∧ CallHandler 0 ["run"] effective
      ∈ trace (run (process ["run"])
                 (Sample.password_state false [Sample.line "abc"])).2
    ∧ dict_get "pw" effective = Some ["abc"].
Proof.
  set (st := Sample.password_state false [Sample.line "abc"]).
  set (r := Build_registration (Sample.returns (VInt 0))
              [Build_PositionalArgument "run"] 0).
  assert (Hsel : selects st ["run"] 0 r ["run"] []).
  { split; [reflexivity|]. split; [by exists 1|reflexivity]. }
  assert (Hexp : heap st !!! reg_named r
                 = [] ++ Sample.named 0 "pw" true 1 1 :: []) by reflexivity.
  assert (Hpost : ∀ d', d' ∈ [] → na_name d' ≠ "pw")
    by (intros d' Hd'; by apply elem_of_nil in Hd').
  exists r. eexists _, _. split; [exact Hsel|]. split; [exact Hexp|].
  assert (Heff : effective_arguments r [] st
                 = (Ok [("pw", ["abc"])],
                    (effective_arguments r [] st).2)) by reflexivity.
  split; [exact Heff|].
  destruct (stdin_fallback_and_precedence st ["run"] 0 r ["run"] [] []
              (Sample.named 0 "pw" true 1 1) [] _ _
              Hsel Hexp eq_refl Hpost Heff) as (Hcall & _ & Hline).
  split; [exact Hcall|].
  exact (Hline (Sample.line "abc") eq_refl eq_refl eq_refl ltac:(discriminate)).
Defined.

(** C7, against the claim as stated: when a later definition of the
    registration has the same name, the value read from standard input is
    overwritten, and the handler receives no value for the name. The
    effective arguments are keyed by name, and a registration may hold
    several definitions of one name. *)
Lemma later_definition_overrides_stdin :
  (run (process ["run"]) (Sample.shadowed_state [Sample.line "abc"])).1
  = Returned (VInt 0)
  ∧ trace (run (process ["run"]) (Sample.shadowed_state [Sample.line "abc"])).2
    = [CallHandler 0 ["run"] [("pw", [])]].
Proof. split; reflexivity. Qed.

(** ** The not-yet-satisfied list *)

Lemma remove_first_subset x y L : y ∈ remove_first x L → y ∈ L.
Proof.
  induction L as [|z L IH]; [done|]. cbn.
  destruct (bool_decide (z = x)); [by right|].
  rewrite !elem_of_cons. intros [?|?]; auto.
Qed.

Lemma remove_first_NoDup x L : NoDup L → NoDup (remove_first x L).
Proof.
  induction 1 as [|z L Hz HL IH]; [constructor|]. cbn.
  destruct (bool_decide (z = x)); [done|].
  constructor; [|done]. intros H. by apply Hz, (remove_first_subset x).
Qed.

Lemma remove_first_gone x L : NoDup L → x ∉ remove_first x L.
Proof.
  induction 1 as [|z L Hz HL IH]; [apply not_elem_of_nil|]. cbn.
  destruct (bool_decide (z = x)) eqn:E.
  - by apply bool_decide_eq_true in E as ->.
  - apply bool_decide_eq_false in E. apply not_elem_of_cons. split; [congruence|done].
Qed.

Lemma observe_subset expected L item y : y ∈ observe expected L item → y ∈ L.
Proof.
  unfold observe. destruct (find_definition _ _); [|done].
  apply remove_first_subset.
Qed.

Lemma observe_NoDup expected L item : NoDup L → NoDup (observe expected L item).
Proof.
  unfold observe. destruct (find_definition _ _); [|done].
  apply remove_first_NoDup.
Qed.

Lemma unsatisfied_after_check_subset expected specified L y :
  y ∈ unsatisfied_after_check expected specified L → y ∈ L.
Proof.
  unfold unsatisfied_after_check. revert L.
  induction specified as [|item rest IH]; intros L; [done|]. cbn.
  intros H. by apply IH, observe_subset in H.
Qed.

Lemma unsatisfied_after_check_NoDup expected specified L :
  NoDup L → NoDup (unsatisfied_after_check expected specified L).
Proof.
  unfold unsatisfied_after_check. revert L.
  induction specified as [|item rest IH]; intros L HL; [done|]. cbn.
  by apply IH, observe_NoDup.
Qed.

(** A definition found for a supplied key is no longer in the list. *)
Lemma unsatisfied_after_check_supplied expected specified L item d :
  NoDup L → item ∈ specified → find_definition item.1 expected = Some d →
  d ∉ unsatisfied_after_check expected specified L.
Proof.
  unfold unsatisfied_after_check. revert L.
  induction specified as [|item' rest IH]; intros L HL Hin Hfind.
  - by apply elem_of_nil in Hin.
  - cbn. apply elem_of_cons in Hin as [<-|Hin].
    + intros H. apply (unsatisfied_after_check_subset expected rest) in H.
      unfold observe in H. rewrite Hfind in H. by apply remove_first_gone in H.
    + apply IH; [by apply observe_NoDup|done..].
Qed.

Lemma craft_unsatisfied_subset specified tty expected acc y :
  y ∈ (foldl (craft_step specified tty) acc expected).1.2 → y ∈ acc.1.2.
Proof.
  revert acc. induction expected as [|d rest IH]; intros acc; [done|]. cbn.
  intros H. apply IH in H. rewrite craft_step_unsatisfied in H.
  destruct (_ && _); [by apply remove_first_subset in H|done].
Qed.

Lemma craft_unsatisfied_NoDup specified tty expected acc :
  NoDup acc.1.2 → NoDup (foldl (craft_step specified tty) acc expected).1.2.
Proof.
  revert acc. induction expected as [|d rest IH]; intros acc H; [done|]. cbn.
  apply IH. rewrite craft_step_unsatisfied.
  destruct (_ && _); [by apply remove_first_NoDup|done].
Qed.

(** On a terminal a definition that reads standard input is no longer in
    the list once the loop has passed it. *)
Lemma craft_unsatisfied_terminal specified expected acc d :
  NoDup acc.1.2 → d ∈ expected → stdin_enabled d = true →
  d ∉ (foldl (craft_step specified true) acc expected).1.2.
Proof.
  revert acc. induction expected as [|d' rest IH]; intros acc HL Hin Hd.
  - by apply elem_of_nil in Hin.
  - cbn. apply elem_of_cons in Hin as [<-|Hin].
    + intros H. apply craft_unsatisfied_subset in H.
      rewrite craft_step_unsatisfied, Hd, orb_true_r in H.
      by apply remove_first_gone in H.
    + apply IH; [|done..]. rewrite craft_step_unsatisfied.
      destruct (_ && _); [by apply remove_first_NoDup|done].
Qed.

(** On a terminal nothing is read, and each name gets the values of the
    command line. *)
Lemma craft_effective_terminal specified expected acc d :
  d ∈ expected →
  dict_get (na_name d) (foldl (craft_step specified true) acc expected).1.1
  = Some (effective_values specified d None).
Proof.
  revert acc. induction expected as [|d' rest IH] using rev_ind; intros acc Hin.
  - by apply elem_of_nil in Hin.
  - rewrite foldl_app. cbn [foldl].
    destruct (craft_step_effective specified true
                (foldl (craft_step specified true) acc rest) d') as (v & -> & ->).
    assert (Hv : (if stdin_enabled d'
                  then (stdin_value true
                          (foldl (craft_step specified true) acc rest).2).1
                  else None) = None) by (by destruct (stdin_enabled d')).
    rewrite Hv. destruct (decide (na_name d' = na_name d)) as [Hn|Hn].
    + rewrite <- Hn, dict_get_set_eq. unfold effective_values. by rewrite Hn.
    + rewrite dict_get_set_ne by done. apply IH.
      apply elem_of_app in Hin as [?|Hin]; [done|].
      apply list_elem_of_singleton in Hin. by subst.
Qed.

(** ** Required arguments on a terminal *)

(** C2, as the code has it: when standard input is a terminal, a definition
    that reads standard input is taken off the not-yet-satisfied list, so
    the check of the required arguments does not fire for it. Hence, if the
    supplied keys are valid and every required definition of the selected
    registration either reads standard input or was supplied, [process]
    calls the handler; a definition whose key is absent from the command
    line gets no value. *)
Theorem terminal_mode_satisfies_stdin_arguments s args index r pos specified :
  selects s args index r pos specified →
  stdin_isatty s = true →
  NoDup (heap s !!! reg_named r) →
  forallb (valid_item (heap s !!! reg_named r)) specified = true →
  (∀ d, d ∈ heap s !!! reg_named r → na_min_occurrence d > 0 →
        stdin_enabled d = true
        ∨ ∃ item, item ∈ specified
                  ∧ find_definition item.1 (heap s !!! reg_named r) = Some d) →
  ∃ effective s1,
    effective_arguments r specified s = (Ok effective, s1)
    ∧ CallHandler index pos effective ∈ trace (run (process args) s).2
    ∧ run (process args) s
      = run (try_except (invoke index r pos effective) handle_exception) s1
    ∧ ∀ d, d ∈ heap s !!! reg_named r →
           dict_get (na_name d) specified = None →
           dict_get (na_name d) effective = Some [].
Proof.
  intros Hsel Htty Hnodup Hvalid Hreq.
  set (expected := heap s !!! reg_named r) in *.
  pose proof (effective_arguments_spec r specified s) as Hspec.
  cbn zeta in Hspec. fold expected in Hspec. rewrite Htty in Hspec.
  assert (Hacc : accepts expected specified true (stdin_lines s) = true).
  { unfold accepts. rewrite Hvalid. cbn [andb].
    apply forallb_forall. intros d Hd%list_elem_of_In.
    unfold optional. apply negb_true_iff. rewrite Z.gtb_ltb. apply Z.ltb_ge.
    destruct (Z_le_gt_dec (na_min_occurrence d) 0) as [?|Hmin]; [done|].
    exfalso. unfold assemble in Hd.
    assert (Hd1 : d ∈ unsatisfied_after_check expected specified expected)
      by (by apply craft_unsatisfied_subset in Hd).
    assert (Hd0 : d ∈ expected)
      by (by apply unsatisfied_after_check_subset in Hd1).
    destruct (Hreq d Hd0 Hmin) as [Hstdin|(item & Hitem & Hfind)].
    - revert Hd. apply craft_unsatisfied_terminal; [|done..]. cbn.
      by apply unsatisfied_after_check_NoDup.
    - revert Hd1. by eapply unsatisfied_after_check_supplied. }
  rewrite Hacc in Hspec. destruct Hspec as [s1 Heff].
  eexists _, s1. split; [exact Heff|].
  destruct (process_calls_handler _ _ _ _ _ _ _ _ Hsel Heff) as [Hrun Hcall].
  split_and!; [done..|].
  intros d Hd Hnone. unfold assemble.
  rewrite craft_effective_terminal by done.
  unfold effective_values. by rewrite Hnone.
Qed.

Lemma terminal_mode_satisfies_stdin_arguments_witness :
  ∃ r effective s1,
    selects (Sample.password_state true []) ["run"] 0 r ["run"] []
    ∧ stdin_isatty (Sample.password_state true []) = true
    ∧ heap (Sample.password_state true []) !!! reg_named r
      = [Sample.named 0 "pw" true 1 1]
    ∧ effective_arguments r [] (Sample.password_state true [])
      = (Ok effective, s1)
    ∧ CallHandler 0 ["run"] effective
      ∈ trace (run (process ["run"]) (Sample.password_state true [])).2
    ∧ dict_get "pw" effective = Some [].
Proof.
  set (st := Sample.password_state true []).
  set (r := Build_registration (Sample.returns (VInt 0))
              [Build_PositionalArgument "run"] 0).
  assert (Hsel : selects st ["run"] 0 r ["run"] []).
  { split; [reflexivity|]. split; [by exists 1|reflexivity]. }
  assert (Hexp : heap st !!! reg_named r = [Sample.named 0 "pw" true 1 1])
    by reflexivity.
  assert (Hnodup : NoDup (heap st !!! reg_named r)).
  { rewrite Hexp. apply NoDup_singleton. }
  assert (Hreq : ∀ d, d ∈ heap st !!! reg_named r → na_min_occurrence d > 0 →
            stdin_enabled d = true
            ∨ ∃ item : string * list string, item ∈ ([] : dict)
                      ∧ find_definition item.1 (heap st !!! reg_named r) = Some d).
  { intros d Hd _. rewrite Hexp in Hd.
    apply list_elem_of_singleton in Hd as ->. by left. }
  destruct (terminal_mode_satisfies_stdin_arguments st ["run"] 0 r ["run"] []
              Hsel eq_refl Hnodup eq_refl Hreq)
    as (effective & s1 & Heff & Hcall & _ & Hvalues).
  exists r, effective, s1. split_and!; try done.
  apply (Hvalues (Sample.named 0 "pw" true 1 1)); [|done].
  rewrite Hexp. by apply list_elem_of_singleton.
Defined.

(** C2, against the claim as stated: with a required definition that reads
    standard input, absent from the command line, and a terminal as standard
    input, [process] reports nothing and returns what the handler returns.
    The branch for a terminal ("running in terminal mode") removes the
    definition from the not-yet-satisfied list, as a line read does. *)
Lemma terminal_mode_does_not_fail :
  (run (process ["run"]) (Sample.password_state true [])).1 = Returned (VInt 0)
  ∧ trace (run (process ["run"]) (Sample.password_state true [])).2
    = [CallHandler 0 ["run"] [("pw", [])]].
Proof. split; reflexivity. Qed.

(** With no terminal and no input the same invocation does fail. *)
Example piped_empty_input_fails :
  (run (process ["run"]) (Sample.password_state false [])).1
  = Returned (VInt 2)
  ∧ trace (run (process ["run"]) (Sample.password_state false [])).2
    = [LogError "The named argument '--pw' must be specified. ";
       PrintError "ERROR: The named argument '--pw' must be specified. "].
Proof. split; reflexivity. Qed.

(** ** The search for the best fit *)

Lemma split_arguments_length args pos named pos' named' :
  split_arguments args pos named = Some (pos', named') →
  (length pos' ≤ length pos + length args)%nat.
Proof.
  revert pos named. induction args as [|a args IH]; intros pos named H.
  - injection H as <- <-. lia.
  - cbn [split_arguments] in H. destruct (Str.startswith _ _).
    + destruct (0 <? _)%nat; [|done]. apply IH in H. cbn. lia.
    + apply IH in H. rewrite length_app in H. cbn in *. lia.
Qed.

(** The inner loop counts the whole of [expected] exactly when the names
    match; the index stays within the arguments. *)
Lemma count_matches_spec args expected i c :
  (i + length expected ≤ length args)%nat →
  ∃ c', count_matches args expected i c = inr c'
        ∧ c ≤ c' ≤ c + Z.of_nat (length expected)
        ∧ (c' = c + Z.of_nat (length expected)
           ↔ names_match (drop i args) expected = true).
Proof.
  revert i c. induction expected as [|p rest IH]; intros i c Hlen.
  - exists c. cbn. split; [done|]. split; [lia|]. split; [done|lia].
  - cbn [length] in Hlen. cbn [count_matches].
    destruct (lookup_lt_is_Some_2 args i ltac:(lia)) as [a Ha].
    rewrite Ha, (drop_S _ _ _ Ha). cbn [names_match].
    destruct (decide (Str.lower a = Str.lower (pa_name p))) as [Heq|Hne].
    + rewrite bool_decide_eq_false_2 by auto.
      rewrite bool_decide_eq_true_2 by done. cbn [andb].
      destruct (IH (S i) (c + 1) ltac:(lia)) as (c' & -> & Hb & Hiff).
      exists c'. cbn [length]. split; [done|]. split; [lia|].
      rewrite <- Hiff. lia.
    + rewrite bool_decide_eq_true_2 by done.
      rewrite bool_decide_eq_false_2 by done. cbn [andb length].
      exists c. split; [done|]. split; [lia|]. split; [lia|done].
Qed.

Lemma best_so_far_skip args specified seen r bi bc :
  fully_matches args specified r = false →
  best_so_far args specified seen bi bc →
  best_so_far args specified (seen ++ [r]) bi bc.
Proof.
  intros Hr [(-> & -> & Hnone)|(i & r0 & -> & Hi & Hfit & -> & Hbest)].
  - left. split_and!; try done. intros j r' Hj.
    apply lookup_snoc_Some in Hj as [[_ Hj]|[_ <-]]; [by eapply Hnone|done].
  - right. exists i, r0. split_and!; try done.
    + by apply lookup_app_l_Some.
    + intros j r' Hj Hfit'.
      apply lookup_snoc_Some in Hj as [[_ Hj]|[_ <-]]; [by eapply Hbest|].
      congruence.
Qed.

Lemma best_so_far_tie args specified seen r bi bc :
  Z.of_nat (length (reg_positional r)) ≤ bc →
  best_so_far args specified seen bi bc →
  best_so_far args specified (seen ++ [r]) bi bc.
Proof.
  intros Hle [(-> & -> & Hnone)|(i & r0 & -> & Hi & Hfit & -> & Hbest)]; [lia|].
  right. exists i, r0. split_and!; try done.
  - by apply lookup_app_l_Some.
  - intros j r' Hj Hfit'.
    apply lookup_snoc_Some in Hj as [[_ Hj]|[-> <-]]; [by eapply Hbest|].
    split; [lia|]. intros _. apply lookup_lt_Some in Hi. lia.
Qed.

Lemma best_so_far_better args specified seen r bi bc :
  fully_matches args specified r = true →
  Z.of_nat (length (reg_positional r)) > bc →
  best_so_far args specified seen bi bc →
  best_so_far args specified (seen ++ [r]) (Z.of_nat (length seen))
    (Z.of_nat (length (reg_positional r))).
Proof.
  intros Hr Hgt Hseen. right. exists (length seen), r. split_and!; try done.
  - by apply list_lookup_middle.
  - intros j r' Hj Hfit'.
    apply lookup_snoc_Some in Hj as [[Hlt Hj]|[-> <-]]; [|done].
    destruct Hseen as [(_ & _ & Hnone)|(i & r0 & _ & Hi & _ & -> & Hbest)].
    + rewrite (Hnone _ _ Hj) in Hfit'. done.
    + destruct (Hbest _ _ Hj Hfit') as [Hle _]. lia.
Qed.

(** The search keeps [best_so_far] and never raises. *)
Lemma best_fit_invariant args specified rest seen bi bc :
  (specified ≤ length args)%nat →
  best_so_far args specified seen bi bc →
  ∃ bi' bc',
    best_fit args specified rest (Z.of_nat (length seen)) bi bc = inr (bi', bc')
    ∧ best_so_far args specified (seen ++ rest) bi' bc'.
Proof.
  intros Hargs. revert seen bi bc.
  induction rest as [|r rest IH]; intros seen bi bc Hseen.
  - exists bi, bc. by rewrite app_nil_r.
  - cbn [best_fit].
    replace (Z.of_nat (length seen) + 1) with (Z.of_nat (length (seen ++ [r])))
      by (rewrite length_app; cbn; lia).
    rewrite (cons_middle r seen rest), app_assoc.
    destruct (specified <? length (reg_positional r))%nat eqn:Hlen.
    + apply IH, best_so_far_skip; [|done].
      unfold fully_matches. apply Nat.ltb_lt in Hlen.
      rewrite (proj2 (Nat.leb_gt _ _)) by lia. done.
    + apply Nat.ltb_ge in Hlen.
      destruct (count_matches_spec args (reg_positional r) 0 0 ltac:(lia))
        as (c & -> & Hc & Hiff).
      assert (Hfit : fully_matches args specified r
                     = (c =? Z.of_nat (length (reg_positional r)))).
      { unfold fully_matches. rewrite (proj2 (Nat.leb_le _ _)) by lia.
        cbn [andb]. rewrite drop_0 in Hiff.
        destruct (c =? _) eqn:E.
        - apply Z.eqb_eq in E. apply Hiff. lia.
        - apply Z.eqb_neq in E. apply not_true_is_false. intros H.
          apply Hiff in H. lia. }
      destruct (c =? Z.of_nat (length (reg_positional r))) eqn:Heq;
        cbn [andb].
      * apply Z.eqb_eq in Heq. subst c.
        destruct (Z.of_nat (length (reg_positional r)) >? bc) eqn:Hgt.
        -- apply IH. eapply best_so_far_better; [done| |exact Hseen].
           apply Z.gtb_lt in Hgt. lia.
        -- apply IH, best_so_far_tie; [|done].
           rewrite Z.gtb_ltb in Hgt. by apply Z.ltb_ge in Hgt.
      * by apply IH, best_so_far_skip.
Qed.

(** C1, as the code has it: for an invocation whose tokens all pass the
    split (no named token with an empty key), either no registration fully
    matches and [process] returns [None] and leaves the state as it was, so
    that no handler is called; or [process] goes on with a registration that
    fully matches, has at least as many positional definitions as every
    other fully matching one, and comes before every fully matching one with
    as many. *)
Theorem best_fit_selection s args pos specified :
  split_arguments args [] [] = Some (pos, specified) →
  ((∀ j r, cmdline_handlers s !! j = Some r →
           fully_matches args (length pos) r = false)
   ∧ run (process args) s = (NotHandled, s))
  ∨ (∃ index r,
       cmdline_handlers s !! index = Some r
       ∧ fully_matches args (length pos) r = true
       ∧ (∀ (j : nat) r', cmdline_handlers s !! j = Some r' →
            fully_matches args (length pos) r' = true →
            (length (reg_positional r') ≤ length (reg_positional r))%nat
            ∧ (length (reg_positional r') = length (reg_positional r) →
               (index ≤ j)%nat))
       ∧ selects s args index r pos specified
       ∧ process args s
         = try_except (dispatch index r pos specified) handle_exception s).
Proof.
  intros Hsplit.
  assert (Hargs : (length pos ≤ length args)%nat).
  { apply split_arguments_length in Hsplit. cbn in Hsplit. lia. }
  assert (Hinit : best_so_far args (length pos) [] (-1) (-1)).
  { left. split; [done|]. split; [done|].
    intros j r Hj. by rewrite lookup_nil in Hj. }
  destruct (best_fit_invariant args (length pos) (cmdline_handlers s) []
              (-1) (-1) Hargs Hinit) as (bi & bc & Hfit & Hbest).
  change (Z.of_nat (length [])) with 0 in Hfit. rewrite app_nil_l in Hbest.
  destruct Hbest as [(-> & -> & Hnone)|(i & r & -> & Hi & Hr & -> & Hbest)].
  - left. split; [exact Hnone|].
    unfold run, process. rewrite Hsplit.
    unfold mbind, M_bind, gets. cbv beta iota. by rewrite Hfit.
  - right. exists i, r.
    assert (Hsel : selects s args i r pos specified).
    { split; [done|]. split; [by eexists|done]. }
    split_and!; try done. by apply process_selects.
Qed.

Lemma best_fit_selection_witness :
  split_arguments ["run"] [] [] = Some (["run"], [])
  ∧ ∃ r, selects Sample.run_state ["run"] 0 r ["run"] []
         ∧ fully_matches ["run"] 1 r = true.
Proof.
  split; [reflexivity|].
  destruct (best_fit_selection Sample.run_state ["run"] ["run"] [] eq_refl)
    as [[Hnone _]|(index & r & Hr & Hfit & _ & Hsel & _)].
  - exfalso.
    specialize (Hnone 0%nat
      (Build_registration (Sample.returns (VInt 0))
         [Build_PositionalArgument "run"] 0) eq_refl).
    discriminate Hnone.
  - destruct index as [|index]; [|by destruct index].
    exists r. by split.
Defined.

(** C1, against the claim as stated: with a named token whose key is empty,
    [process] returns exit code 2 although no registration fully matches.
    The split of the tokens comes before the search and returns by itself. *)
Lemma no_match_yet_not_unhandled :
  (∀ r, r ∈ cmdline_handlers Sample.run_state →
        fully_matches ["stop"; "--"] 1 r = false)
  ∧ (run (process ["stop"; "--"]) Sample.run_state).1 = Returned (VInt 2)
  ∧ (run (process ["stop"; "--"]) Sample.run_state).1 ≠ NotHandled.
Proof.
  split; [|split; [reflexivity|discriminate]].
  intros r Hr. apply list_elem_of_singleton in Hr as ->. reflexivity.
Qed.

(** ** Names of named definitions *)

(** C5, at the failing input: with a definition named ["Name"], the supplied
    [--NAME=x] is looked up as ["name"], compared with ["Name"] as it is
    written, and refused; while a positional name is compared with both
    sides lower-cased, and a definition named ["name"] is found. *)
Theorem mixed_case_definition_is_not_found :
  find_definition (key_of "--NAME=x") [Sample.named 0 "Name" false 0 1] = None
  ∧ (run (process ["run"; "--NAME=x"]) Sample.mixed_case_state).1
    = Returned (VInt 2)
  ∧ trace (run (process ["run"; "--NAME=x"]) Sample.mixed_case_state).2
    = [LogError (msg_not_allowed "name");
       PrintError ("ERROR: " +:+ msg_not_allowed "name")]
  ∧ find_definition (key_of "--NAME=x") [Sample.named 0 "name" false 0 1]
    = Some (Sample.named 0 "name" false 0 1)
  ∧ names_match ["RUN"] [Build_PositionalArgument "Run"] = true.
Proof. repeat split; reflexivity. Qed.

Lemma lower_char_idempotent c :
  Str.lower_char (Str.lower_char c) = Str.lower_char c.
Proof. by destruct c as [[] [] [] [] [] [] [] []]. Qed.

Lemma lower_idempotent s : Str.lower (Str.lower s) = Str.lower s.
Proof.
  induction s as [|c s IH]; [done|]. cbn. by rewrite lower_char_idempotent, IH.
Qed.

(** A definition is found for a key only if its name is written in lower
    case. *)
Lemma find_definition_lower arg_name expected d :
  find_definition arg_name expected = Some d →
  na_name d = Str.lower arg_name ∧ Str.lower (na_name d) = na_name d.
Proof.
  unfold find_definition. intros H. apply find_some in H as [_ H].
  apply bool_decide_eq_true in H. split; [done|].
  by rewrite <- H, lower_idempotent.
Qed.

(** ** Scenarios of the specification *)

(** [add_handler(h, Positional("run"), Named("name", max_occurrence=3))]
    and the invocation [run --name=a --name=b]. *)
Example scenario_repeated_named_argument :
  let s := Sample.after
             [add_handler (Sample.returns (VInt 0))
                [Sample.run_cmd; ANamed (Sample.named 0 "name" false 0 3)]]
             (Sample.fresh_state false []) in
  (run (process ["run"; "--name=a"; "--name=b"]) s).1 = Returned (VInt 0)
  ∧ trace (run (process ["run"; "--name=a"; "--name=b"]) s).2
    = [CallHandler 0 ["run"] [("name", ["a"; "b"])]].
Proof. split; reflexivity. Qed.

Example scenario_unknown_command :
  run (process ["unknown"]) Sample.run_state = (NotHandled, Sample.run_state).
Proof. reflexivity. Qed.

(** The same named argument twice with [max_occurrence = 1]. *)
Example scenario_too_many_occurrences :
  (run (process ["run"; "--pw=a"; "--pw=b"]) (Sample.password_state true [])).1
  = Returned (VInt 2)
  ∧ trace (run (process ["run"; "--pw=a"; "--pw=b"])
             (Sample.password_state true [])).2
    = [LogError (msg_at_most "pw" 1);
       PrintError ("ERROR: " +:+ msg_at_most "pw" 1)].
Proof. split; reflexivity. Qed.

(** The longer of two fully matching registrations is taken, and of two with
    as many positional definitions the first. *)
Example scenario_longest_then_first :
  let s := Sample.after
             [add_handler (Sample.returns (VInt 10)) [Sample.run_cmd];
              add_handler (Sample.returns (VInt 11))
                [Sample.run_cmd; APositional {| pa_name := "now" |}];
              add_handler (Sample.returns (VInt 12))
                [Sample.run_cmd; APositional {| pa_name := "NOW" |}]]
             (Sample.fresh_state false []) in
  (run (process ["Run"; "now"]) s).1 = Returned (VInt 11)
  ∧ (run (process ["run"]) s).1 = Returned (VInt 10).
Proof. split; reflexivity. Qed.

(** The token of a named argument in front of the positional ones keeps a
    registration from matching: names are compared with the arguments as
    given. *)
Example scenario_named_token_first :
  run (process ["--x=1"; "run"]) Sample.run_state = (NotHandled, Sample.run_state).
Proof. reflexivity. Qed.

(** * Further properties of the dispatcher *)

(** ** What [process] returns *)

(** X1: when the checks pass and the handler returns an integer, [process]
    returns that integer, and the call of the handler is the only thing
    that happens after the checks: no exception route is consulted. *)
Theorem handler_result_is_returned
    s args index r pos specified effective s1 z :
  selects s args index r pos specified →
  effective_arguments r specified s = (Ok effective, s1) →
  reg_handler r pos effective = HReturn (VInt z) →
  run (process args) s
  = (Returned (VInt z), emit (CallHandler index pos effective) s1).
Proof.
  intros Hsel Heff Hh.
  destruct (process_calls_handler _ _ _ _ _ _ _ _ Hsel Heff) as [-> _].
  unfold run, try_except, invoke, call_handler, mbind, M_bind.
  by rewrite Hh.
Qed.

Lemma handler_result_is_returned_witness :
  ∃ r s1,
    selects Sample.run_state ["run"] 0 r ["run"] []
    ∧ effective_arguments r [] Sample.run_state = (Ok [], s1)
    ∧ run (process ["run"]) Sample.run_state
      = (Returned (VInt 0), emit (CallHandler 0 ["run"] []) s1).
Proof.
  eexists _, _.
  assert (Hsel : selects Sample.run_state ["run"] 0
                   (Build_registration (Sample.returns (VInt 0))
                      [Build_PositionalArgument "run"] 0) ["run"] []).
  { split; [reflexivity|]. split; [by exists 1|reflexivity]. }
  split; [exact Hsel|]. split; [reflexivity|].
  exact (handler_result_is_returned _ _ _ _ _ _ _ _ 0 Hsel eq_refl eq_refl).
Defined.

(** The search among the routes returns the first route whose kind is the
    class looked for, with its index. *)
Lemma find_route_spec routes t i0 :
  match find_route routes t i0 with
  | Some (i, h) =>
      ∃ k, i = (i0 + k)%nat ∧ routes !! k = Some (h, t)
           ∧ ∀ j h' t', (j < k)%nat → routes !! j = Some (h', t') → t' ≠ t
  | None => ∀ j h' t', routes !! j = Some (h', t') → t' ≠ t
  end.
Proof.
  revert i0. induction routes as [|[h t'] routes IH]; intros i0; cbn.
  - intros j h' t'' Hj. by rewrite lookup_nil in Hj.
  - destruct (bool_decide (t' = t)) eqn:E.
    + apply bool_decide_eq_true in E as ->. exists 0%nat.
      split; [lia|]. split; [done|]. intros j h' t'' Hj. lia.
    + apply bool_decide_eq_false in E. specialize (IH (S i0)).
      destruct (find_route routes t (S i0)) as [[i h1]|].
      * destruct IH as (k & -> & Hk & Hbefore). exists (S k).
        split; [lia|]. split; [done|]. intros [|j] h' t'' Hj Hlook.
        -- cbn in Hlook. by injection Hlook as <- <-.
        -- cbn in Hlook. eapply Hbefore; [|done]. lia.
      * intros [|j] h' t'' Hlook; cbn in Hlook.
        -- by injection Hlook as <- <-.
        -- by eapply IH.
Qed.

(** X2: the route taken for an exception is the first registered one whose
    kind is exactly the class of the exception; a route for another class,
    a base class included, is passed over. *)
Theorem find_route_first_exact_match routes t :
  match find_route routes t 0 with
  | Some (i, h) =>
      routes !! i = Some (h, t)
      ∧ ∀ j h' t', (j < i)%nat → routes !! j = Some (h', t') → t' ≠ t
  | None => ∀ j h' t', routes !! j = Some (h', t') → t' ≠ t
  end.
Proof.
  pose proof (find_route_spec routes t 0) as H.
  destruct (find_route routes t 0) as [[i h]|]; [|done].
  by destruct H as (k & -> & Hk & Hbefore).
Qed.

(** X3: when the handler raises, the first route registered for exactly the
    class of the exception is called with it and what it returns or raises is
    the result of [process]. With no such route, an exception of a class
    derived from [ExitCodeError] has its message printed and its exit code
    returned (if the message cannot be formatted, the formatting error
    propagates instead); any other exception propagates. *)
Theorem handler_exception_routing
    s args index r pos specified effective s1 e :
  selects s args index r pos specified →
  effective_arguments r specified s = (Ok effective, s1) →
  reg_handler r pos effective = HRaise e →
  run (process args) s
  = let s2 := emit (CallHandler index pos effective) s1 in
    match find_route (exception_handlers s) (exn_type e) 0 with
    | Some (i, h) => (outcome_of (h e), emit (CallExceptionHandler i e) s2)
    | None =>
        if issubclass (exn_type e) ExitCodeError then
          match Str.format0 (exn_message e) with
          | Some m =>
              (Returned (exn_exitcode e), emit (PrintError ("ERROR: " +:+ m)) s2)
          | None => (Raised (raise_plain FormatError (exn_message e)), s2)
          end
        else (Raised e, s2)
    end.
Proof.
  intros Hsel Heff Hh.
  destruct (process_calls_handler _ _ _ _ _ _ _ _ Hsel Heff) as [-> _].
  pose proof (preserves_effective_arguments r specified s) as [(_ & Hroutes & _) _].
  rewrite Heff in Hroutes. cbn in Hroutes. rewrite <- Hroutes.
  unfold run, try_except, invoke, call_handler, mbind, M_bind.
  rewrite Hh. cbn.
  unfold handle_exception, mbind, M_bind, gets. cbn.
  destruct (find_route _ _ _) as [[i h]|].
  - unfold call_exception_handler. by destruct (h e).
  - destruct (issubclass _ _); [|done].
    unfold print_error. by destruct (Str.format0 _).
Qed.

Lemma handler_exception_routing_witness :
  ∃ r s1,
    selects More.raising_state ["run"] 0 r ["run"] []
    ∧ effective_arguments r [] More.raising_state = (Ok [], s1)
    ∧ run (process ["run"]) More.raising_state
      = (Returned (VInt 2),
         emit (PrintError "ERROR: bad") (emit (CallHandler 0 ["run"] []) s1)).
Proof.
  eexists _, _.
  assert (Hsel : selects More.raising_state ["run"] 0
                   (Build_registration (More.raises More.bad_arguments)
                      [Build_PositionalArgument "run"] 0) ["run"] []).
  { split; [reflexivity|]. split; [by exists 1|reflexivity]. }
  split; [exact Hsel|]. split; [reflexivity|].
  exact (handler_exception_routing _ _ _ _ _ _ _ _ More.bad_arguments
           Hsel eq_refl eq_refl).
Defined.

(** ** What the checks never do *)

Lemma command_calls_emit e s :
  command_calls (emit e s)
  = command_calls s ++ (if is_command_call e then [e] else []).
Proof.
  unfold command_calls. cbn. rewrite filter_app. f_equal.
  destruct (is_command_call e) eqn:E.
  - by rewrite filter_cons_True.
  - rewrite filter_cons_False; [done|congruence].
Qed.

#[local] Instance same_command_calls_preorder : PreOrder same_command_calls.
Proof.
  split.
  - by intros s.
  - intros s1 s2 s3 H1 H2. unfold same_command_calls in *. congruence.
Qed.

#[local] Instance same_stdin_preorder : PreOrder same_stdin.
Proof.
  split.
  - by intros s.
  - intros s1 s2 s3 H1 H2. unfold same_stdin in *. congruence.
Qed.

Section calm.
Context (R : relation state) `{!PreOrder R}.

(** Steps that emit no call of a command handler. *)
Hypothesis R_event : ∀ e s, is_command_call e = false → R s (emit e s).
Hypothesis R_heap : ∀ h s, R s (with_heap h s).
Hypothesis R_stdin : ∀ v s, R s (with_stdin_lines v s).

Lemma calm_write_debug text args : preserves R (Log_write_debug text args).
Proof.
  intros s. unfold Log_write_debug.
  destruct (debug_level_enabled _); cbn; [by apply R_event|reflexivity].
Qed.

Lemma calm_write_error text : preserves R (Log_write_error text).
Proof.
  intros s. unfold Log_write_error.
  destruct (error_level_enabled _); cbn; [|reflexivity].
  destruct (Str.format0 _); cbn; [by apply R_event|reflexivity].
Qed.

Lemma calm_print_error text : preserves R (print_error text).
Proof.
  intros s. unfold print_error.
  destruct (Str.format0 _); cbn; [by apply R_event|reflexivity].
Qed.

Lemma calm_fail_command_line {A} error : preserves R (@fail_command_line A error).
Proof.
  apply preserves_bind; [done| |intros _; by apply preserves_return].
  apply preserves_bind; [done|apply calm_write_error|intros _].
  apply preserves_bind; [done|by apply preserves_gets|intros b].
  destruct (negb b); [apply calm_print_error|by apply preserves_skip].
Qed.

Lemma calm_remove_if_present l x : preserves R (remove_if_present l x).
Proof.
  intros s. unfold remove_if_present, list_contains, list_remove, gets, skip,
    mbind, M_bind, mret, M_ret.
  destruct (bool_decide _) eqn:E; cbn; [|reflexivity].
  rewrite E. cbn. apply R_heap.
Qed.

Lemma calm_check_specified expected l item :
  preserves R (check_specified expected l item).
Proof.
  unfold check_specified. destruct (find_definition _ _).
  - apply preserves_bind; [done|apply calm_remove_if_present|intros _].
    repeat case_match;
      auto using preserves_skip, calm_fail_command_line.
  - apply calm_fail_command_line.
Qed.

Lemma calm_check_required d : preserves R (check_required d).
Proof.
  unfold check_required.
  destruct (_ >? _); [apply calm_fail_command_line|by apply preserves_skip].
Qed.

Lemma calm_handle_exception e : preserves R (handle_exception e).
Proof.
  apply preserves_bind; [done|by apply preserves_gets|intros routes].
  destruct (find_route _ _ _) as [[i h]|].
  - apply preserves_bind; [done| |intros v; by apply preserves_return].
    intros s. unfold call_exception_handler. destruct (h e); cbn; by apply R_event.
  - destruct (issubclass _ _); [|by apply preserves_raise].
    apply preserves_bind; [done|apply calm_print_error|intros _].
    by apply preserves_return.
Qed.

Lemma calm_readline_if_no_tty : preserves R readline_if_no_tty.
Proof.
  apply preserves_bind; [done|by apply preserves_gets|intros tty].
  destruct (negb tty); [|by apply preserves_ret].
  apply preserves_bind; [done| |].
  - intros s. unfold stdin_readline.
    destruct (stdin_lines s); cbn; [reflexivity|apply R_stdin].
  - intros line. destruct (_ <? _)%nat; by apply preserves_ret.
Qed.

Lemma calm_read_stdin_value d l : preserves R (read_stdin_value d l).
Proof.
  unfold read_stdin_value. destruct (_ && _); [|by apply preserves_ret].
  apply preserves_bind; [done|apply calm_readline_if_no_tty|].
  intros [line|].
  - apply preserves_bind; [done|apply calm_write_debug|intros _].
    apply preserves_bind; [done|apply calm_remove_if_present|intros _].
    by apply preserves_ret.
  - apply preserves_bind; [done|by apply preserves_gets|intros tty].
    destruct tty.
    + apply preserves_bind; [done|apply calm_write_debug|intros _].
      apply preserves_bind; [done|apply calm_remove_if_present|intros _].
      by apply preserves_ret.
    + apply preserves_bind; [done|apply calm_write_debug|intros _].
      by apply preserves_ret.
Qed.

Lemma calm_craft_argument specified l effective d :
  preserves R (craft_argument specified l effective d).
Proof.
  unfold craft_argument.
  apply preserves_bind; [done|apply calm_write_debug|intros _].
  apply preserves_bind; [done|apply calm_read_stdin_value|intros v].
  apply preserves_bind; [done| |intros vs; by apply preserves_ret].
  unfold read_command_line_values.
  destruct (dict_get _ _); [|by apply preserves_ret].
  apply preserves_for_fold; [done|]. intros a x.
  apply preserves_bind; [done|apply calm_write_debug|intros _].
  by apply preserves_ret.
Qed.

Lemma calm_effective_arguments r specified :
  preserves R (effective_arguments r specified).
Proof.
  unfold effective_arguments.
  apply preserves_bind; [done|by apply preserves_gets|intros expected].
  apply preserves_bind; [done| |intros l].
  { intros s. unfold list_copy. cbn. apply R_heap. }
  apply preserves_bind; [done| |intros _].
  { apply preserves_for_each; [done|]. intros x. apply calm_check_specified. }
  apply preserves_bind; [done| |intros eff].
  { apply preserves_for_fold; [done|]. intros a x. apply calm_craft_argument. }
  apply preserves_bind; [done|by apply preserves_gets|intros rem].
  apply preserves_bind; [done| |intros _; by apply preserves_ret].
  apply preserves_for_each; [done|]. intros x. apply calm_check_required.
Qed.

End calm.

Lemma same_command_calls_event e s :
  is_command_call e = false → same_command_calls s (emit e s).
Proof.
  intros E. unfold same_command_calls.
  by rewrite command_calls_emit, E, app_nil_r.
Qed.

Lemma effective_arguments_calls r specified s :
  command_calls (effective_arguments r specified s).2 = command_calls s.
Proof.
  by apply (calm_effective_arguments same_command_calls);
    auto using same_command_calls_event.
Qed.

Lemma handle_exception_calls e s :
  command_calls (handle_exception e s).2 = command_calls s.
Proof.
  by apply (calm_handle_exception same_command_calls);
    auto using same_command_calls_event.
Qed.

(** X4: [process] calls the command handler of the selected registration at
    most once: once, with the positional tokens and the assembled effective
    arguments, when the supplied keys are valid and no required definition
    is left unsatisfied, and not at all otherwise. *)
Theorem command_handler_called_iff_accepted s args index r pos specified :
  selects s args index r pos specified →
  command_calls (run (process args) s).2
  = command_calls s
    ++ (if accepts (heap s !!! reg_named r) specified (stdin_isatty s)
             (stdin_lines s)
        then [CallHandler index pos
                (assemble (heap s !!! reg_named r) specified (stdin_isatty s)
                   (stdin_lines s)).1.1]
        else []).
Proof.
  intros Hsel. rewrite run_state, (process_selects _ _ _ _ _ _ Hsel).
  pose proof (effective_arguments_spec r specified s) as Hspec.
  pose proof (effective_arguments_calls r specified s) as Hcalls.
  cbn zeta in Hspec. unfold try_except, dispatch, mbind, M_bind.
  destruct (accepts _ _ _ _).
  - destruct Hspec as [s1 Heff]. rewrite Heff in *. cbn in Hcalls.
    unfold invoke, call_handler, mbind, M_bind.
    set (s2 := emit _ s1).
    assert (Hs2 : command_calls s2 = command_calls s ++ [CallHandler index pos
              (assemble (heap s !!! reg_named r) specified (stdin_isatty s)
                 (stdin_lines s)).1.1]).
    { unfold s2. by rewrite command_calls_emit, Hcalls. }
    destruct (reg_handler r pos _) as [v|e]; cbn.
    + destruct (is_int v); cbn; [done|].
      by rewrite handle_exception_calls.
    + by rewrite handle_exception_calls.
  - rewrite app_nil_r.
    destruct (effective_arguments r specified s) as [[eff|v|e] s1] eqn:Heff.
    + by destruct (Hspec eff s1).
    + done.
    + cbn in *. by rewrite handle_exception_calls.
Qed.

Lemma command_handler_called_iff_accepted_witness :
  selects (More.login_state false []) ["run"; "--user=bob"] 0
    More.login_registration ["run"] [("user", ["bob"])]
  ∧ command_calls (run (process ["run"; "--user=bob"])
                     (More.login_state false [])).2
    = [].
Proof.
  assert (Hsel : selects (More.login_state false []) ["run"; "--user=bob"] 0
                   More.login_registration ["run"] [("user", ["bob"])]).
  { split; [reflexivity|]. split; [by exists 1|reflexivity]. }
  split; [exact Hsel|].
  exact (command_handler_called_iff_accepted _ _ _ _ _ _ Hsel).
Defined.

(** ** What [process] reads from standard input *)

Lemma same_stdin_emit e s : same_stdin s (emit e s).
Proof. done. Qed.

Lemma bind_stops {A B} (m : M A) (f : A → M B) s :
  (∀ a s', m s ≠ (Ok a, s')) →
  ((m ≫= f) s).2 = (m s).2 ∧ ∀ b s', (m ≫= f) s ≠ (Ok b, s').
Proof.
  intros H. unfold mbind, M_bind.
  destruct (m s) as [[a|v|e] s1] eqn:E; [by destruct (H a s1)|done..].
Qed.

Lemma try_except_stdin (body : M unit) s :
  stdin_lines (try_except body handle_exception s).2 = stdin_lines (body s).2.
Proof.
  unfold try_except. destruct (body s) as [[a|v|e] s1]; [done..|]. cbn.
  apply (preserves_handle_exception same_stdin); auto using same_stdin_emit
    with typeclass_instances.
Qed.

Lemma dispatch_stdin index r pos specified s :
  stdin_lines (dispatch index r pos specified s).2
  = stdin_lines (effective_arguments r specified s).2.
Proof.
  unfold dispatch, mbind, M_bind.
  destruct (effective_arguments r specified s) as [[eff|v|e] s1]; [|done..].
  apply (preserves_invoke same_stdin); auto using same_stdin_emit
    with typeclass_instances.
Qed.

Lemma effective_arguments_stdin_invalid r specified s :
  forallb (valid_item (heap s !!! reg_named r)) specified = false →
  stdin_lines (effective_arguments r specified s).2 = stdin_lines s.
Proof.
  intros Hinvalid. unfold effective_arguments.
  rewrite (bind_ok (list_read _) _ s (heap s !!! reg_named r) s) by done.
  destruct (list_copy_fresh (reg_named r) s) as (l & Hcopy & Hfresh).
  rewrite (bind_ok _ _ _ _ _ Hcopy).
  set (s0 := with_heap _ s).
  assert (Hl0 : heap s0 !! l = Some (heap s !!! reg_named r))
    by apply lookup_insert_eq.
  pose proof (check_loop_spec (heap s !!! reg_named r) l specified _ s0 Hl0)
    as Hcheck.
  rewrite Hinvalid in Hcheck.
  match goal with |- stdin_lines ((_ ≫= ?f) s0).2 = _ =>
    destruct (bind_stops _ f s0 Hcheck) as [-> _] end.
  change (same_stdin s0
            (for_each specified
               (check_specified (heap s !!! reg_named r) l) s0).2).
  apply (preserves_for_each same_stdin). intros item.
  by apply (calm_check_specified same_stdin).
Qed.

(** X5: a supplied named argument without a definition, or with too few or
    too many values, is rejected before standard input is read: the input is
    left as it was. *)
Theorem invalid_argument_reads_no_input s args index r pos specified :
  selects s args index r pos specified →
  forallb (valid_item (heap s !!! reg_named r)) specified = false →
  stdin_lines (run (process args) s).2 = stdin_lines s.
Proof.
  intros Hsel Hinvalid.
  rewrite run_state, (process_selects _ _ _ _ _ _ Hsel), try_except_stdin.
  rewrite dispatch_stdin. by apply effective_arguments_stdin_invalid.
Qed.

Lemma invalid_argument_reads_no_input_witness :
  selects (Sample.password_state false [Sample.line "abc"])
    ["run"; "--user=bob"] 0 More.login_registration ["run"] [("user", ["bob"])]
  ∧ stdin_lines (run (process ["run"; "--user=bob"])
                   (Sample.password_state false [Sample.line "abc"])).2
    = [Sample.line "abc"].
Proof.
  assert (Hsel : selects (Sample.password_state false [Sample.line "abc"])
                   ["run"; "--user=bob"] 0 More.login_registration ["run"]
                   [("user", ["bob"])]).
  { split; [reflexivity|]. split; [by exists 1|reflexivity]. }
  split; [exact Hsel|].
  exact (invalid_argument_reads_no_input _ _ _ _ _ _ Hsel eq_refl).
Defined.

Lemma craft_lines_terminal specified expected acc :
  (foldl (craft_step specified true) acc expected).2 = acc.2.
Proof.
  revert acc. induction expected as [|d rest IH]; intros acc; [done|].
  cbn [foldl]. rewrite IH, craft_step_lines. by destruct (stdin_enabled d).
Qed.

Lemma effective_arguments_stdin_valid r specified s :
  forallb (valid_item (heap s !!! reg_named r)) specified = true →
  stdin_lines (effective_arguments r specified s).2
  = if stdin_isatty s then stdin_lines s
    else drop (stdin_reads (heap s !!! reg_named r)) (stdin_lines s).
Proof.
  intros Hvalid. set (expected := heap s !!! reg_named r) in *.
  unfold effective_arguments.
  rewrite (bind_ok (list_read _) _ s expected s) by done.
  destruct (list_copy_fresh (reg_named r) s) as (l & Hcopy & Hfresh).
  fold expected in Hcopy. rewrite (bind_ok _ _ _ _ _ Hcopy).
  set (s0 := with_heap (<[l := expected]> (heap s)) s).
  assert (Hl0 : heap s0 !! l = Some expected) by apply lookup_insert_eq.
  pose proof (check_loop_spec expected l specified expected s0 Hl0) as Hcheck.
  rewrite Hvalid in Hcheck. rewrite (bind_ok _ _ _ _ _ Hcheck).
  set (s0' := with_heap _ s0).
  assert (Hview : loop_view l (unsatisfied_after_check expected specified expected)
                    (stdin_lines s) (stdin_isatty s) s0').
  { split; [apply lookup_insert_eq|done]. }
  destruct (craft_loop_view specified l expected [] _ _ _ _ Hview)
    as (s2 & Hcraft & _ & Hlines & _).
  rewrite (bind_ok _ _ _ _ _ Hcraft).
  transitivity (stdin_lines s2).
  - match goal with |- stdin_lines (?m s2).2 = _ =>
      assert (Hm : preserves same_stdin m) end; [|apply Hm].
    apply preserves_bind; [apply _|by apply preserves_gets; apply _|intros rem].
    apply preserves_bind; [apply _| |intros _; apply preserves_ret, _].
    apply preserves_for_each; [apply _|]. intros d.
    by apply (calm_check_required same_stdin).
  - rewrite Hlines. destruct (stdin_isatty s).
    + by rewrite craft_lines_terminal.
    + by rewrite craft_lines_piped.
Qed.

(** X6: once the supplied keys are valid, [process] takes from a standard
    input that is not a terminal one line for each definition of the
    selected registration that reads standard input, whether or not the key
    was supplied on the command line, and none from a terminal. *)
Theorem input_read_once_per_definition s args index r pos specified :
  selects s args index r pos specified →
  forallb (valid_item (heap s !!! reg_named r)) specified = true →
  stdin_lines (run (process args) s).2
  = if stdin_isatty s then stdin_lines s
    else drop (stdin_reads (heap s !!! reg_named r)) (stdin_lines s).
Proof.
  intros Hsel Hvalid.
  rewrite run_state, (process_selects _ _ _ _ _ _ Hsel), try_except_stdin.
  rewrite dispatch_stdin. by apply effective_arguments_stdin_valid.
Qed.

Lemma input_read_once_per_definition_witness :
  selects (More.login_state false [Sample.line "abc"; Sample.line "def"])
    ["run"; "--user=bob"; "--pw=x"] 0 More.login_registration ["run"]
    [("user", ["bob"]); ("pw", ["x"])]
  ∧ stdin_lines (run (process ["run"; "--user=bob"; "--pw=x"])
                   (More.login_state false
                      [Sample.line "abc"; Sample.line "def"])).2
    = [Sample.line "def"].
Proof.
  assert (Hsel : selects
            (More.login_state false [Sample.line "abc"; Sample.line "def"])
            ["run"; "--user=bob"; "--pw=x"] 0 More.login_registration ["run"]
            [("user", ["bob"]); ("pw", ["x"])]).
  { split; [reflexivity|]. split; [by exists 1|reflexivity]. }
  split; [exact Hsel|].
  exact (input_read_once_per_definition _ _ _ _ _ _ Hsel eq_refl).
Defined.

(** ** The split of the tokens *)

Lemma dict_get_append_values k k' x d :
  default [] (dict_get k (dict_append k' x d))
  = default [] (dict_get k d) ++ (if bool_decide (k' = k) then [x] else []).
Proof.
  unfold dict_append. destruct (decide (k' = k)) as [->|Hne].
  - rewrite bool_decide_eq_true_2 by done.
    destruct (dict_get k d) as [vs|]; by rewrite dict_get_set_eq.
  - rewrite bool_decide_eq_false_2 by done. rewrite app_nil_r.
    destruct (dict_get k' d); by rewrite dict_get_set_ne.
Qed.

Lemma split_arguments_spec args pos named pos' named' :
  split_arguments args pos named = Some (pos', named') →
  pos' = pos ++ positional_tokens args
  ∧ ∀ k, default [] (dict_get k named')
         = default [] (dict_get k named) ++ values_for k args.
Proof.
  revert pos named. induction args as [|a args IH]; intros pos named H.
  - injection H as <- <-. split; [by rewrite app_nil_r|].
    intros k. by rewrite app_nil_r.
  - cbn [split_arguments] in H. unfold positional_tokens, values_for.
    fold (is_named a) in H. destruct (is_named a) eqn:Ha.
    + fold (key_of a) (value_of a) in H.
      destruct (0 <? String.length (key_of a))%nat; [|done].
      apply IH in H as [-> Hk]. split.
      * by rewrite filter_cons_False by (by rewrite Ha).
      * intros k. rewrite Hk, dict_get_append_values, <- app_assoc. f_equal.
        destruct (decide (key_of a = k)) as [Hkey|Hkey].
        -- rewrite bool_decide_eq_true_2 by done.
           by rewrite filter_cons_True by done.
        -- rewrite bool_decide_eq_false_2 by done.
           by rewrite filter_cons_False by (by intros [_ ?]).
    + apply IH in H as [-> Hk]. split.
      * rewrite filter_cons_True by done. cbn. by rewrite <- app_assoc.
      * intros k. rewrite Hk.
        by rewrite filter_cons_False by (intros [? _]; congruence).
Qed.

(** X7: the positional tokens handed on are the tokens that do not start
    with the marker, stripped, in the order given; and for every key the
    values are those of the tokens with that key, in the order given,
    wherever the tokens stand among the positional ones. *)
Theorem tokens_keep_their_order args pos named :
  split_arguments args [] [] = Some (pos, named) →
  pos = positional_tokens args
  ∧ ∀ k, dict_get k named
         = match values_for k args with [] => None | vs => Some vs end.
Proof.
  intros H. pose proof (split_arguments_spec _ _ _ _ _ H) as [-> Hk].
  split; [done|]. intros k. specialize (Hk k). cbn in Hk. rewrite <- Hk.
  destruct (dict_get k named) as [vs|] eqn:E; [|done]. cbn.
  pose proof (split_arguments_values _ _ _ _ _ H ltac:(done) _ _ E).
  by destruct vs.
Qed.

Lemma tokens_keep_their_order_witness :
  split_arguments ["--b=1"; "run"; "--a=x"; " now "; "--B=2"] [] []
  = Some (["run"; "now"], [("b", ["1"; "2"]); ("a", ["x"])])
  ∧ ["run"; "now"]
    = positional_tokens ["--b=1"; "run"; "--a=x"; " now "; "--B=2"]
  ∧ dict_get "b" [("b", ["1"; "2"]); ("a", ["x"])] = Some ["1"; "2"].
Proof.
  assert (H : split_arguments ["--b=1"; "run"; "--a=x"; " now "; "--B=2"] [] []
              = Some (["run"; "now"], [("b", ["1"; "2"]); ("a", ["x"])]))
    by reflexivity.
  split; [exact H|].
  destruct (tokens_keep_their_order _ _ _ H) as [Hpos Hk].
  split; [exact Hpos|]. exact (Hk "b").
Defined.

(** X8: the split fails exactly when some token starts with the marker and
    has an empty key. *)
Theorem split_fails_iff_malformed args :
  split_arguments args [] [] = None ↔ ∃ t, t ∈ args ∧ malformed t.
Proof.
  split; [|apply split_arguments_malformed].
  generalize (@nil string) as pos. generalize (@nil (string * list string)) as named.
  induction args as [|a args IH]; intros named pos H; [done|].
  cbn [split_arguments] in H.
  destruct (Str.startswith "--" (Str.strip a)) eqn:Ha.
  - fold (key_of a) in H.
    destruct (0 <? String.length (key_of a))%nat eqn:Hkey.
    + destruct (IH _ _ H) as (t & Ht & Hm). exists t. split; [by right|done].
    + exists a. split; [by left|]. split; [done|].
      by destruct (key_of a).
  - destruct (IH _ _ H) as (t & Ht & Hm). exists t. split; [by right|done].
Qed.

Lemma split_join s : Str.join "=" (Str.split "="%char s) = s.
Proof.
  unfold Str.join. induction s as [|c r IH]; [done|]. cbn [Str.split].
  destruct (Ascii.eqb c "="%char) eqn:E.
  - apply Ascii.eqb_eq in E as ->.
    destruct (Str.split "="%char r) as [|h t] eqn:Hs; [by destruct r|].
    cbn [String.concat]. cbn. by rewrite <- IH.
  - destruct (Str.split "="%char r) as [|h t] eqn:Hs; [by destruct r|].
    destruct t as [|h' t]; cbn in *; by rewrite <- IH.
Qed.

Lemma split_key k v :
  lacks "="%char k = true →
  Str.split "="%char (k +:+ "=" +:+ v) = k :: Str.split "="%char v.
Proof.
  induction k as [|c k IH]; intros H; [done|].
  cbn in H. apply andb_prop in H as [Hc Hk]. apply negb_true_iff in Hc.
  change (String c k +:+ "=" +:+ v) with (String c (k +:+ "=" +:+ v)).
  cbn [Str.split]. by rewrite Hc, (IH Hk).
Qed.

Lemma startswith_marker body : Str.startswith "--" ("--" +:+ body) = true.
Proof. cbn. by destruct body. Qed.

(** X9: a token written as the marker, a key without [=], an [=] and a
    value, with no white space around it, gives that key (lower-cased and
    stripped) and that value back, further [=] signs in the value
    included. *)
Theorem named_token_round_trip k v :
  lacks "="%char k = true →
  Str.strip ("--" +:+ k +:+ "=" +:+ v) = "--" +:+ k +:+ "=" +:+ v →
  is_named ("--" +:+ k +:+ "=" +:+ v) = true
  ∧ key_of ("--" +:+ k +:+ "=" +:+ v) = Str.strip (Str.lower k)
  ∧ value_of ("--" +:+ k +:+ "=" +:+ v) = v.
Proof.
  intros Hk Hstrip. unfold is_named, key_of, value_of. rewrite Hstrip.
  split; [apply startswith_marker|].
  change (Str.drop 2 ("--" +:+ k +:+ "=" +:+ v)) with (k +:+ "=" +:+ v).
  rewrite (split_key _ _ Hk). cbn [hd tl]. split; [done|]. apply split_join.
Qed.

Lemma named_token_round_trip_witness :
  lacks "="%char "Name" = true
  ∧ key_of "--Name=a=b" = "name" ∧ value_of "--Name=a=b" = "a=b".
Proof.
  split; [reflexivity|].
  destruct (named_token_round_trip "Name" "a=b" eq_refl eq_refl)
    as (_ & Hkey & Hvalue).
  split; [exact Hkey|exact Hvalue].
Defined.

(** ** What the handler receives *)

Lemma craft_keys specified tty expected acc name :
  is_Some (dict_get name (foldl (craft_step specified tty) acc expected).1.1)
  ↔ is_Some (dict_get name acc.1.1) ∨ ∃ d, d ∈ expected ∧ na_name d = name.
Proof.
  revert acc. induction expected as [|d rest IH]; intros acc.
  - cbn. split; [auto|]. intros [?|(d & Hd & _)]; [done|].
    by apply elem_of_nil in Hd.
  - cbn [foldl]. rewrite IH.
    destruct (craft_step_effective specified tty acc d) as (v & -> & _).
    destruct (decide (na_name d = name)) as [<-|Hne].
    + rewrite dict_get_set_eq. split; [|by eauto].
      intros _. right. exists d. split; [by left|done].
    + rewrite dict_get_set_ne by done. split.
      * intros [?|(d' & Hd' & Hn)]; [by left|]. right. exists d'.
        split; [by right|done].
      * intros [?|(d' & Hd' & Hn)]; [by left|].
        apply elem_of_cons in Hd' as [->|Hd']; [done|]. right. by exists d'.
Qed.

(** X10: when the handler is called, the effective arguments have an entry,
    possibly with no value, for the name of every named definition of the
    registration, and for no other key. *)
Theorem effective_arguments_keys r specified s effective s1 name :
  effective_arguments r specified s = (Ok effective, s1) →
  is_Some (dict_get name effective)
  ↔ ∃ d, d ∈ heap s !!! reg_named r ∧ na_name d = name.
Proof.
  intros H. apply effective_arguments_accepted in H as [_ ->].
  unfold assemble. rewrite craft_keys. cbn. split; [|by right].
  intros [[? ?]|?]; done.
Qed.

Lemma effective_arguments_keys_witness :
  ∃ s1, effective_arguments More.login_registration [("user", ["bob"])]
          (More.login_state true [])
        = (Ok [("user", ["bob"]); ("pw", [])], s1)
        ∧ is_Some (dict_get "pw" [("user", ["bob"]); ("pw", [])]).
Proof.
  eexists. split; [reflexivity|].
  apply (effective_arguments_keys More.login_registration [("user", ["bob"])]
           (More.login_state true []) _ _ "pw" eq_refl).
  exists (Sample.named 1 "pw" true 1 1). split; [|reflexivity].
  apply list_elem_of_In. right. left. reflexivity.
Defined.

Lemma lower_lstrip s : Str.lower s = s → Str.lower (Str.lstrip s) = Str.lstrip s.
Proof.
  induction s as [|c r IH]; [done|]. cbn. intros H.
  injection H as Hc Hr. destruct (Str.isspace c); [by apply IH|].
  cbn. by rewrite Hc, Hr.
Qed.

Lemma lower_rstrip s : Str.lower s = s → Str.lower (Str.rstrip s) = Str.rstrip s.
Proof.
  induction s as [|c r IH]; [done|]. cbn. intros H.
  injection H as Hc Hr. specialize (IH Hr).
  destruct (Str.rstrip r) as [|c' r'] eqn:E.
  - destruct (Str.isspace c); [done|]. cbn. by rewrite Hc.
  - cbn [Str.lower] in *. by rewrite Hc, IH.
Qed.

Lemma key_of_lower token : Str.lower (key_of token) = key_of token.
Proof.
  unfold key_of, Str.strip. apply lower_lstrip, lower_rstrip, lower_idempotent.
Qed.

Lemma dict_get_elem k vs (d : dict) : dict_get k d = Some vs → (k, vs) ∈ d.
Proof.
  induction d as [|[k' v'] d IH]; [done|]. cbn.
  destruct (bool_decide (k' = k)) eqn:E.
  - apply bool_decide_eq_true in E as ->. intros [= ->]. by left.
  - intros H. right. by apply IH.
Qed.

Lemma dict_get_append_key k k' x d :
  is_Some (dict_get k (dict_append k' x d)) → k = k' ∨ is_Some (dict_get k d).
Proof.
  intros H. destruct (decide (k = k')) as [?|Hne]; [by left|]. right.
  unfold dict_append in H.
  destruct (dict_get k' d); by rewrite dict_get_set_ne in H.
Qed.

(** The supplied keys are in lower case. *)
Lemma split_arguments_keys args pos named pos' named' :
  split_arguments args pos named = Some (pos', named') →
  (∀ k, is_Some (dict_get k named) → Str.lower k = k) →
  ∀ k, is_Some (dict_get k named') → Str.lower k = k.
Proof.
  revert pos named. induction args as [|a args IH]; intros pos named H Hn.
  - by injection H as <- <-.
  - cbn [split_arguments] in H. destruct (Str.startswith _ _).
    + fold (key_of a) in H. destruct (0 <? _)%nat; [|done].
      eapply IH; [exact H|]. intros k Hk.
      apply dict_get_append_key in Hk as [->|Hk]; [apply key_of_lower|by apply Hn].
    + by eapply IH.
Qed.

Lemma craft_values_by_name specified tty expected acc k X :
  (∀ d v, na_name d = k → effective_values specified d v = X) →
  (∃ d, d ∈ expected ∧ na_name d = k) →
  dict_get k (foldl (craft_step specified tty) acc expected).1.1 = Some X.
Proof.
  intros HX. revert acc.
  induction expected as [|d' rest IH] using rev_ind; intros acc (d & Hd & Hn).
  - by apply elem_of_nil in Hd.
  - rewrite foldl_app. cbn [foldl].
    destruct (craft_step_effective specified tty
                (foldl (craft_step specified tty) acc rest) d') as (v & -> & _).
    destruct (decide (na_name d' = k)) as [Hk|Hk].
    + rewrite <- Hk at 1. rewrite dict_get_set_eq. f_equal. by apply HX.
    + rewrite dict_get_set_ne by done. apply IH. exists d. split; [|done].
      apply elem_of_app in Hd as [?|Hd]; [done|].
      apply list_elem_of_singleton in Hd. congruence.
Qed.

(** X11: when the handler is called, it receives for every key supplied on
    the command line exactly the values supplied for it, in order, whatever
    standard input holds. *)
Theorem supplied_values_reach_handler
    s args index r pos specified effective s1 k vs :
  selects s args index r pos specified →
  effective_arguments r specified s = (Ok effective, s1) →
  dict_get k specified = Some vs →
  dict_get k effective = Some vs.
Proof.
  intros (Hsplit & _) Heff Hk.
  apply effective_arguments_accepted in Heff as [Hacc ->].
  unfold accepts in Hacc. apply andb_prop in Hacc as [Hvalid _].
  rewrite forallb_forall in Hvalid.
  pose proof (dict_get_elem _ _ _ Hk) as Hin.
  apply list_elem_of_In, Hvalid in Hin. unfold valid_item in Hin. cbn in Hin.
  destruct (find_definition k (heap s !!! reg_named r)) as [d|] eqn:Hfind;
    [|done].
  assert (Hlow : Str.lower k = k).
  { eapply (split_arguments_keys _ _ _ _ _ Hsplit); [|by rewrite Hk].
    intros k' Hk'. by destruct Hk'. }
  assert (Hvs : vs ≠ [])
    by exact (split_arguments_values _ _ _ _ _ Hsplit ltac:(done) _ _ Hk).
  unfold assemble. apply craft_values_by_name.
  - intros d' v Hd'. unfold effective_values. rewrite Hd', Hk.
    by destruct vs.
  - exists d. pose proof (find_definition_lower _ _ _ Hfind) as [Hname _].
    split; [|congruence].
    unfold find_definition in Hfind. apply find_some in Hfind as [Hd _].
    by apply list_elem_of_In.
Qed.

Lemma supplied_values_reach_handler_witness :
  ∃ s1,
    selects (More.login_state false [Sample.line "abc"])
      ["run"; "--user=bob"; "--pw=x"] 0 More.login_registration ["run"]
      [("user", ["bob"]); ("pw", ["x"])]
    ∧ effective_arguments More.login_registration
        [("user", ["bob"]); ("pw", ["x"])]
        (More.login_state false [Sample.line "abc"])
      = (Ok [("user", ["bob"]); ("pw", ["x"])], s1)
    ∧ dict_get "pw" [("user", ["bob"]); ("pw", ["x"])] = Some ["x"].
Proof.
  eexists.
  assert (Hsel : selects (More.login_state false [Sample.line "abc"])
                   ["run"; "--user=bob"; "--pw=x"] 0 More.login_registration
                   ["run"] [("user", ["bob"]); ("pw", ["x"])]).
  { split; [reflexivity|]. split; [by exists 1|reflexivity]. }
  split; [exact Hsel|]. split; [reflexivity|].
  exact (supplied_values_reach_handler _ _ _ _ _ _ _ _ "pw" ["x"]
           Hsel eq_refl eq_refl).
Defined.

(** ** Registrations without positional definitions, and later routes *)

(** X12: a registration without positional definitions fully matches every
    invocation, so that with one in the registry every invocation whose
    tokens pass the split is dispatched to some registration, and is never
    left unhandled for want of a match. *)
Theorem registration_without_positionals_is_default
    s args pos specified r0 :
  split_arguments args [] [] = Some (pos, specified) →
  r0 ∈ cmdline_handlers s →
  reg_positional r0 = [] →
  ∃ index r, selects s args index r pos specified
             ∧ fully_matches args (length pos) r = true.
Proof.
  intros Hsplit Hr0 Hpos0.
  assert (Hargs : (length pos ≤ length args)%nat).
  { apply split_arguments_length in Hsplit. cbn in Hsplit. lia. }
  assert (Hinit : best_so_far args (length pos) [] (-1) (-1)).
  { left. split; [done|]. split; [done|].
    intros j r Hj. by rewrite lookup_nil in Hj. }
  destruct (best_fit_invariant args (length pos) (cmdline_handlers s) []
              (-1) (-1) Hargs Hinit) as (bi & bc & Hfit & Hbest).
  change (Z.of_nat (length [])) with 0 in Hfit. rewrite app_nil_l in Hbest.
  destruct Hbest as [(-> & -> & Hnone)|(i & r & -> & Hi & Hr & -> & Hbest)].
  - apply list_elem_of_lookup in Hr0 as [j Hj].
    specialize (Hnone _ _ Hj). unfold fully_matches in Hnone.
    by rewrite Hpos0 in Hnone.
  - exists i, r. split; [|done]. split; [done|]. split; [by eexists|done].
Qed.

Lemma registration_without_positionals_is_default_witness :
  ∃ index r,
    selects More.default_state ["stop"; "now"] index r ["stop"; "now"] []
    ∧ fully_matches ["stop"; "now"] 2 r = true.
Proof.
  apply (registration_without_positionals_is_default More.default_state
           ["stop"; "now"] ["stop"; "now"] []
           (Build_registration (Sample.returns (VInt 7)) [] 1) eq_refl);
    [|reflexivity].
  apply list_elem_of_In. right. left. reflexivity.
Defined.

Lemma find_route_app routes routes' t i0 :
  find_route (routes ++ routes') t i0
  = match find_route routes t i0 with
    | Some found => Some found
    | None => find_route routes' t (i0 + length routes)
    end.
Proof.
  revert i0. induction routes as [|[h t'] routes IH]; intros i0; cbn.
  - by rewrite Nat.add_0_r.
  - destruct (bool_decide (t' = t)); [done|].
    rewrite IH. by replace (S i0 + length routes)%nat
      with (i0 + S (length routes))%nat by lia.
Qed.

(** X13: [add_exception_handler] appends: a route added for a class that
    already has one is never found, and a route added for a class without
    one is found at the end, after all the routes there were. *)
Theorem later_route_never_shadows h t s t' :
  find_route (exception_handlers (add_exception_handler h t s).2) t' 0
  = match find_route (exception_handlers s) t' 0 with
    | Some found => Some found
    | None =>
        if bool_decide (t = t')
        then Some (length (exception_handlers s), h) else None
    end.
Proof.
  unfold add_exception_handler, modify. cbn. rewrite find_route_app. cbn.
  by destruct (find_route _ _ _).
Qed.

(** ** Messages of exit-code errors *)

(** X14: the message of an exit-code error is formatted twice, once by the
    constructor and once more when the dispatcher prints it. When a handler
    raises what [CommandLineArgumentError], [FileNotFoundError] or [IoError]
    built from [message], and no route is registered for that class,
    [process] prints the twice-formatted message and returns 2, 3 or 4; if
    the message the constructor stored does not format again (a doubled
    brace it unescaped, say), the formatting error leaves [process] and
    nothing is printed. *)
Theorem exit_code_error_message_is_formatted_twice
    s args index r pos specified effective s1 ctor code message e :
  (ctor, code) ∈ [ (Errors.new_CommandLineArgumentError, 2);
                   (Errors.new_FileNotFoundError, 3);
                   (Errors.new_IoError, 4) ] →
  ctor message = inr e →
  selects s args index r pos specified →
  effective_arguments r specified s = (Ok effective, s1) →
  reg_handler r pos effective = HRaise e →
  find_route (exception_handlers s) (exn_type e) 0 = None →
  Str.format0 message = Some (exn_message e)
  ∧ run (process args) s
    = let s2 := emit (CallHandler index pos effective) s1 in
      match Str.format0 (exn_message e) with
      | Some m => (Returned (VInt code), emit (PrintError ("ERROR: " +:+ m)) s2)
      | None => (Raised (raise_plain FormatError (exn_message e)), s2)
      end.
Proof.
  intros Hctor Hbuilt Hsel Heff Hh Hroute.
  assert (Hshape : Str.format0 message = Some (exn_message e)
                   ∧ issubclass (exn_type e) ExitCodeError = true
                   ∧ exn_exitcode e = VInt code).
  { rewrite !elem_of_cons, elem_of_nil in Hctor.
    destruct Hctor as [Hc|[Hc|[Hc|[]]]]; injection Hc as -> ->;
      revert Hbuilt;
      unfold Errors.new_CommandLineArgumentError, Errors.new_FileNotFoundError,
        Errors.new_IoError, Errors.subclass_init; cbn;
      unfold Errors.ExitCodeError_init;
      (destruct (Str.format0 message); [|done]);
      intros [= <-]; done. }
  destruct Hshape as (Hfmt & Hsub & Hcode). split; [done|].
  destruct (process_calls_handler _ _ _ _ _ _ _ _ Hsel Heff) as [-> _].
  pose proof (preserves_effective_arguments r specified s) as [(_ & Hroutes & _) _].
  rewrite Heff in Hroutes. cbn in Hroutes. rewrite <- Hroutes in Hroute.
  unfold run, try_except, invoke, call_handler, mbind, M_bind.
  rewrite Hh. cbn.
  unfold handle_exception, mbind, M_bind, gets. cbn.
  rewrite Hroute, Hsub. cbn.
  unfold print_error. rewrite Hcode.
  destruct (Str.format0 (exn_message e)); reflexivity.
Qed.

Lemma exit_code_error_message_is_formatted_twice_witness :
  ∃ r s1,
    selects Cases.escaped_state ["run"] 0 r ["run"] []
    ∧ effective_arguments r [] Cases.escaped_state = (Ok [], s1)
    ∧ Errors.new_CommandLineArgumentError Cases.escaped_message
      = inr Cases.escaped_error
    ∧ run (process ["run"]) Cases.escaped_state
      = (Raised (raise_plain FormatError "use {name}"),
         emit (CallHandler 0 ["run"] []) s1).
Proof.
  eexists _, _.
  assert (Hsel : selects Cases.escaped_state ["run"] 0
                   (Build_registration (More.raises Cases.escaped_error)
                      [Build_PositionalArgument "run"] 0) ["run"] []).
  { split; [reflexivity|]. split; [by exists 1|reflexivity]. }
  split; [exact Hsel|]. split; [reflexivity|]. split; [reflexivity|].
  refine (proj2 (exit_code_error_message_is_formatted_twice
            _ _ _ _ _ _ _ _ Errors.new_CommandLineArgumentError 2
            Cases.escaped_message Cases.escaped_error
            _ eq_refl Hsel eq_refl eq_refl eq_refl)).
  apply elem_of_cons. by left.
Defined.

(** ** Construction of a named definition, for any arguments *)

(** X15: [NamedArgument(name, from_stdin, min_occurrence, max_occurrence)]
    builds an instance only from a string, a boolean and two integers (a
    boolean is not taken for a count), and every instance built has
    [min_occurrence <= max_occurrence] and, when it is read from the input,
    [max_occurrence <= 1]. A failure is a [TypeError] exactly when an
    argument has the wrong type, whatever the counts are; otherwise it is a
    [ValueError]. *)
Theorem NamedArgument_init_classification
    self name from_stdin min_occurrence max_occurrence :
  let well_typed :=
    ∃ n b mn mx, name = VStr n ∧ from_stdin = VBool b
                 ∧ min_occurrence = VInt mn ∧ max_occurrence = VInt mx in
  match NamedArgument_init self name from_stdin min_occurrence
          max_occurrence with
  | inr a =>
      name = VStr (na_name a) ∧ from_stdin = VBool (na_from_stdin a)
      ∧ min_occurrence = VInt (na_min_occurrence a)
      ∧ max_occurrence = VInt (na_max_occurrence a)
      ∧ na_id a = self
      ∧ na_min_occurrence a ≤ na_max_occurrence a
      ∧ (na_from_stdin a = true → na_max_occurrence a ≤ 1)
  | inl e =>
      (exn_type e = TypeError ∧ ¬ well_typed)
      ∨ (exn_type e = ValueError ∧ well_typed)
  end.
Proof.
  intros well_typed. unfold NamedArgument_init.
  destruct name as [| | |n|];
    try (left; split; [done|]; by intros (?&?&?&?&?&?&?&?)).
  destruct from_stdin as [|b| | |];
    try (left; split; [done|]; by intros (?&?&?&?&?&?&?&?)).
  destruct min_occurrence as [| |mn| |];
    try (left; split; [done|]; by intros (?&?&?&?&?&?&?&?)).
  destruct max_occurrence as [| |mx| |];
    try (left; split; [done|]; by intros (?&?&?&?&?&?&?&?)).
  assert (well_typed) by (by exists n, b, mn, mx).
  destruct (mn >? mx) eqn:Hmn; [by right|].
  destruct b; cbn.
  - destruct (mx >? 1) eqn:Hmx; [by right|]. cbn. split_and!; try done; lia.
  - split_and!; try done; lia.
Qed.

(** ** Reading a line of the input *)

Lemma rstrip_no_trailing_space s : Helpers.ends_with_space (Str.rstrip s) = false.
Proof.
  induction s as [|c r IH]; [done|]. cbn [Str.rstrip].
  destruct (Str.rstrip r) as [|c' r'] eqn:E.
  - destruct (Str.isspace c) eqn:Hc; [done|]. cbn. exact Hc.
  - exact IH.
Qed.

(** X16: [readline_if_no_tty] never raises and writes nothing. On a
    terminal it returns [None] and the input is left as it is. Otherwise it
    takes exactly one line off the input; a line read gives that line
    without its trailing white space (so the result never ends in white
    space, and a blank line gives the empty string, not [None]), and the
    end of the input gives [None]. *)
Theorem readline_if_no_tty_result s :
  match readline_if_no_tty s with
  | (Ok (Some v), s') =>
      stdin_isatty s = false
      ∧ Helpers.ends_with_space v = false
      ∧ ∃ line rest, stdin_lines s = line :: rest ∧ line ≠ EmptyString
                     ∧ v = Str.rstrip line ∧ s' = with_stdin_lines rest s
  | (Ok None, s') =>
      (stdin_isatty s = true ∧ s' = s)
      ∨ (stdin_isatty s = false ∧ stdin_lines s = [] ∧ s' = s)
      ∨ (stdin_isatty s = false
         ∧ ∃ rest, stdin_lines s = EmptyString :: rest
                   ∧ s' = with_stdin_lines rest s)
  | _ => False
  end.
Proof.
  unfold readline_if_no_tty, stdin_isatty_, stdin_readline, mbind, M_bind, gets.
  cbn. destruct (stdin_isatty s) eqn:Htty; cbn; [by left|].
  destruct (stdin_lines s) as [|line rest] eqn:Hlines; cbn.
  - right. by left.
  - destruct line as [|c line]; cbn -[Str.rstrip].
    + right. right. split; [done|]. by exists rest.
    + split; [done|]. split; [apply rstrip_no_trailing_space|].
      by exists (String c line), rest.
Qed.

(** ** Passwords *)

Lemma join_picked_spec {C} (chars : list C) bytes :
  match Helpers.join_picked chars bytes with
  | inr password =>
      (bytes = [] ∨ chars ≠ [])
      ∧ length password = length bytes
      ∧ ∀ i c, bytes !! i = Some c →
          ∃ ch, password !! i = Some ch
                ∧ chars !! N.to_nat (c mod N.of_nat (length chars)) = Some ch
  | inl e => e = Helpers.zero_division ∧ chars = [] ∧ bytes ≠ []
  end.
Proof.
  induction bytes as [|c rest IH]; cbn [Helpers.join_picked].
  - split; [by left|]. split; [done|]. intros i c Hi. by rewrite lookup_nil in Hi.
  - destruct chars as [|ch0 chars'] eqn:Hchars; [done|]. rewrite <- Hchars in *.
    assert (Hlen : length chars ≠ 0%nat) by (rewrite Hchars; done).
    destruct (chars !! N.to_nat (c mod N.of_nat (length chars))) as [ch|] eqn:Hch.
    + destruct (Helpers.join_picked chars rest) as [e|password].
      * destruct IH as (_ & Hnil & _). by rewrite Hchars in Hnil.
      * destruct IH as (_ & Hl & Hi). split; [right; by rewrite Hchars|].
        split; [cbn; by rewrite Hl|].
        intros [|i] c' Hlook; cbn in Hlook.
        -- injection Hlook as <-. by exists ch.
        -- by apply Hi.
    + apply lookup_ge_None in Hch.
      pose proof (N.mod_upper_bound c (N.of_nat (length chars))). lia.
Qed.

(** X17: [generate_password(length, chars)] returns a password exactly when
    [length] is an integer of at least 1 and the alphabet is not empty. The
    password then has [length] characters, the one at each position being
    the character of the alphabet at the random byte of that position
    modulo the size of the alphabet. A [length] that is not an integer or
    is below 1 raises [ValueError]; an empty alphabet raises
    [ZeroDivisionError]. *)
Theorem generate_password_result {C} (urandom : Z → list N) (length_ : pyval)
    (chars : list C) :
  (∀ n, 0 ≤ n → length (urandom n) = Z.to_nat n) →
  match Helpers.generate_password urandom length_ chars with
  | inr password =>
      ∃ n, Helpers.as_int length_ = Some n ∧ 1 ≤ n ∧ chars ≠ []
           ∧ length password = Z.to_nat n
           ∧ ∀ i, (i < Z.to_nat n)%nat →
               ∃ c ch, urandom n !! i = Some c ∧ password !! i = Some ch
                       ∧ chars !! N.to_nat (c mod N.of_nat (length chars))
                         = Some ch
  | inl e =>
      (exn_type e = ValueError ∧ ∀ n, Helpers.as_int length_ = Some n → n < 1)
      ∨ (e = Helpers.zero_division ∧ chars = []
         ∧ ∃ n, Helpers.as_int length_ = Some n ∧ 1 ≤ n)
  end.
Proof.
  intros Hlen. unfold Helpers.generate_password.
  destruct (Helpers.as_int length_) as [n|]; [|left; by split].
  destruct (n <? 1) eqn:Hn; [left; split; [done|]; intros ? [= <-]; lia|].
  assert (1 ≤ n) by lia.
  pose proof (join_picked_spec chars (urandom n)) as Hspec.
  destruct (Helpers.join_picked chars (urandom n)) as [e|password].
  - destruct Hspec as (-> & -> & _). right. split; [done|]. split; [done|].
    by exists n.
  - destruct Hspec as (Hne & Hl & Hi). exists n. split; [done|]. split; [done|].
    split.
    { destruct Hne as [Hnil|Hne]; [|done].
      apply (f_equal length) in Hnil. rewrite Hlen in Hnil by lia.
      cbn in Hnil. lia. }
    split; [rewrite Hl; apply Hlen; lia|].
    intros i Hlt.
    destruct (lookup_lt_is_Some_2 (urandom n) i) as [c Hc];
      [rewrite Hlen by lia; done|].
    destruct (Hi i c Hc) as (ch & ? & ?). by exists c, ch.
Qed.

Lemma generate_password_result_witness :
  (∀ n, 0 ≤ n → length (Cases.counting n) = Z.to_nat n)
  ∧ ∃ password,
      Helpers.generate_password Cases.counting (VInt 8) ["a"; "b"; "c"]
      = inr password
      ∧ length password = 8%nat.
Proof.
  assert (H : ∀ n, 0 ≤ n → length (Cases.counting n) = Z.to_nat n).
  { intros n _. unfold Cases.counting. by rewrite length_fmap, length_seq. }
  split; [exact H|].
  pose proof (generate_password_result Cases.counting (VInt 8)
                ["a"; "b"; "c"] H) as R.
  destruct (Helpers.generate_password Cases.counting (VInt 8) ["a"; "b"; "c"])
    as [e|password] eqn:E; [vm_compute in E; discriminate|].
  exists password. split; [done|].
  destruct R as (n & Hn & _ & _ & Hl & _). injection Hn as <-. exact Hl.
Defined.

(** ** Mount points *)

(** X18: [is_mount_point_readonly(mnt)] returns a value exactly when
    [does_mount_point_exist(mnt)] returns [True]. When the latter returns
    [False] the former raises the [ValueError] of a missing mount point, and
    a line that makes one of them fail (it has not six fields) makes the
    other fail with the same error. *)
Theorem readonly_defined_iff_mount_point_exists lines mnt :
  match Helpers.does_mount_point_exist lines mnt with
  | inr true => ∃ b, Helpers.is_mount_point_readonly lines mnt = inr b
  | inr false =>
      Helpers.is_mount_point_readonly lines mnt
      = inl (raise_plain ValueError
               ("Mount point " +:+ mnt +:+ " doesn't exist"))
  | inl e => Helpers.is_mount_point_readonly lines mnt = inl e
  end.
Proof.
  induction lines as [|line rest IH];
    cbn [Helpers.does_mount_point_exist Helpers.is_mount_point_readonly];
    [done|].
  destruct (Helpers.unpack_mount_line line) as [e|[mount_point flags]]; [done|].
  destruct (bool_decide (mount_point = mnt)); [by eexists|exact IH].
Qed.

(** X19: the first line of the mount table that names the mount point
    decides: with well-formed lines for other mount points before it, the
    mount point exists and is read-only exactly when [ro] is among the
    comma-separated flags of that line, whatever follows, later lines for
    the same mount point and ill-formed lines included. *)
Theorem first_mount_line_decides before line after mnt flags :
  Forall (fun l => ∃ mount_point flags',
            Helpers.unpack_mount_line l = inr (mount_point, flags')
            ∧ mount_point ≠ mnt) before →
  Helpers.unpack_mount_line line = inr (mnt, flags) →
  Helpers.does_mount_point_exist (before ++ line :: after) mnt = inr true
  ∧ Helpers.is_mount_point_readonly (before ++ line :: after) mnt
    = inr (bool_decide ("ro" ∈ flags)).
Proof.
  intros Hbefore Hline.
  induction Hbefore as [|l before (mount_point & flags' & Hl & Hne) _ IH];
    cbn [app Helpers.does_mount_point_exist Helpers.is_mount_point_readonly].
  - rewrite Hline. by rewrite bool_decide_eq_true_2.
  - rewrite Hl. by rewrite bool_decide_eq_false_2.
Qed.

Lemma first_mount_line_decides_witness :
  Helpers.does_mount_point_exist Cases.mounts "/data" = inr true
  ∧ Helpers.is_mount_point_readonly Cases.mounts "/data" = inr true.
Proof.
  refine (first_mount_line_decides
            [ "overlay / overlay rw,relatime 0 0"
              +:+ String "010"%char EmptyString ]
            ("/dev/sda1 /data ext4 ro,relatime 0 0"
             +:+ String "010"%char EmptyString)
            [ "tmpfs /data tmpfs rw,nosuid 0 0"
              +:+ String "010"%char EmptyString;
              "proc /proc" ]
            "/data" ["ro"; "relatime"] _ eq_refl).
  constructor; [|constructor].
  exists "/", ["rw"; "relatime"]. split; [reflexivity|discriminate].
Defined.

(** ** Kernel modules *)

Lemma split_head sep s name :
  hd EmptyString (Str.split sep s) = name
  ↔ lacks sep name = true
    ∧ (s = name ∨ ∃ rest, s = name +:+ String sep rest).
Proof.
  revert name. induction s as [|c r IH]; intros name.
  - cbn. split.
    + intros <-. split; [done|]. by left.
    + intros [_ [<-|[rest Hr]]]; [done|]. by destruct name.
  - cbn [Str.split]. destruct (Ascii.eqb c sep) eqn:E.
    + apply Ascii.eqb_eq in E as ->. cbn. split.
      * intros <-. split; [done|]. right. by exists r.
      * intros [Hl Hs]. destruct name as [|c' n']; [done|].
        cbn in Hl. apply andb_prop in Hl as [Hc _].
        apply negb_true_iff, Ascii.eqb_neq in Hc.
        destruct Hs as [Hs|[rest Hs]]; injection Hs as <- _; done.
    + assert (Hne : c ≠ sep) by (by apply Ascii.eqb_neq).
      assert (Hhd : hd EmptyString
                      match Str.split sep r with
                      | [] => [String c EmptyString]
                      | h :: t => String c h :: t
                      end
                    = String c (hd EmptyString (Str.split sep r))).
      { destruct (Str.split sep r) eqn:Hs; [by destruct r|done]. }
      rewrite Hhd. split.
      * intros <-. destruct (proj1 (IH _) eq_refl) as [Hl Hs].
        split; [cbn; by rewrite E, Hl|].
        destruct Hs as [Hs|[rest Hs]].
        -- left. by rewrite <- Hs.
        -- right. exists rest. rewrite Hs at 1. reflexivity.
      * intros [Hl Hs]. destruct name as [|c' n'].
        { destruct Hs as [Hs|[rest Hs]]; [discriminate|].
          injection Hs as -> _. done. }
        cbn in Hl. apply andb_prop in Hl as [_ Hl].
        assert (c' = c ∧ (r = n' ∨ ∃ rest, r = n' +:+ String sep rest))
          as [-> Hr].
        { destruct Hs as [Hs|[rest Hs]]; injection Hs as <- ->;
            (split; [done|]); [by left|right; by exists rest]. }
        f_equal. apply IH. by split.
Qed.

(** X20: a kernel module is reported as loaded exactly when some line of the
    module table, stripped, is the module name or begins with the module
    name followed by a space. So a name that is only the beginning of
    another module's name is not taken for it, and a name with a space in it
    is never reported. *)
Theorem kernel_module_loaded_iff lines module_name :
  Helpers.is_kernel_module_loaded lines module_name = true
  ↔ lacks " "%char module_name = true
    ∧ ∃ line, line ∈ lines
              ∧ (Str.strip line = module_name
                 ∨ ∃ rest, Str.strip line
                           = module_name +:+ String " "%char rest).
Proof.
  unfold Helpers.is_kernel_module_loaded. rewrite existsb_exists. split.
  - intros (line & Hin & Hhd). apply bool_decide_eq_true in Hhd.
    apply split_head in Hhd as [Hl Hs]. split; [done|].
    exists line. split; [by apply list_elem_of_In|done].
  - intros (Hl & line & Hin & Hs). exists line.
    split; [by apply list_elem_of_In|].
    apply bool_decide_eq_true, split_head. by split.
Qed.

(** ** Levels of a logger *)

(** X21: [set_verbosity(level)] enables the [level] most severe of the five
    levels (error, warning, note, info, debug), none for a level of 0 or
    less and all for 5 or more: a level is never enabled without the more
    severe ones. A new logger has all but 'debug'. *)
Theorem set_verbosity_enables_most_severe level :
  let l := Logger.set_verbosity level in
  let k := Z.to_nat (Z.max 0 (Z.min level 5)) in
  [ Logger.error_enabled l; Logger.warning_enabled l; Logger.note_enabled l;
    Logger.info_enabled l; Logger.debug_enabled l ]
  = replicate k true ++ replicate (5 - k) false
  ∧ Logger.init = Logger.set_verbosity 4.
Proof.
  cbn zeta. split; [|done]. unfold Logger.set_verbosity. cbn.
  destruct (Z.gtb_spec level 0), (Z.gtb_spec level 1), (Z.gtb_spec level 2),
    (Z.gtb_spec level 3), (Z.gtb_spec level 4); try (exfalso; lia).
  - replace (Z.to_nat (Z.max 0 (Z.min level 5))) with 5%nat by lia.
    reflexivity.
  - replace (Z.to_nat (Z.max 0 (Z.min level 5))) with 4%nat by lia.
    reflexivity.
  - replace (Z.to_nat (Z.max 0 (Z.min level 5))) with 3%nat by lia.
    reflexivity.
  - replace (Z.to_nat (Z.max 0 (Z.min level 5))) with 2%nat by lia.
    reflexivity.
  - replace (Z.to_nat (Z.max 0 (Z.min level 5))) with 1%nat by lia.
    reflexivity.
  - replace (Z.to_nat (Z.max 0 (Z.min level 5))) with 0%nat by lia.
    reflexivity.
Qed.

(** ** The loop over the command processors *)

Lemma run_processors_app before after args exitcode s :
  App.goes_on exitcode = true →
  App.run_processors (before ++ after) args exitcode s
  = match App.run_processors before args exitcode s with
    | (Returned code, s') =>
        if App.goes_on code then App.run_processors after args code s'
        else (Returned code, s')
    | (Raised e, s') => (Raised e, s')
    end.
Proof.
  revert exitcode s. induction before as [|p before IH]; intros exitcode s Hgo.
  - cbn. by rewrite Hgo.
  - cbn [app App.run_processors].
    destruct (App.processor_process p args s) as [[code|e] s']; [|done].
    destruct (App.ne_None code) eqn:Hnone.
    + destruct (App.ne_zero code) eqn:Hzero.
      * unfold App.goes_on. by rewrite Hnone, Hzero.
      * apply IH. unfold App.goes_on. rewrite Hzero. apply orb_true_r.
    + by apply IH.
Qed.

(** X22: the application stops at the first command processor that fails.
    When the processors consulted so far have left the code at [None] or
    zero, and the next one raises or returns a code that is neither [None]
    nor zero, that is the result of the loop and the state is the one this
    processor left: the processors after it are not consulted. *)
Theorem later_processors_are_not_consulted
    before p after args s exitcode s1 result s2 :
  App.run_processors before args VNone s = (Returned exitcode, s1) →
  App.goes_on exitcode = true →
  App.processor_process p args s1 = (result, s2) →
  match result with
  | Returned code => App.goes_on code = false
  | Raised _ => True
  end →
  App.run_processors (before ++ p :: after) args VNone s = (result, s2).
Proof.
  intros Hbefore Hgo Hp Hstop.
  rewrite run_processors_app by done. rewrite Hbefore, Hgo.
  cbn [App.run_processors]. rewrite Hp.
  destruct result as [code|e]; [|done].
  unfold App.goes_on in Hstop. apply orb_false_iff in Hstop as [Hn Hz].
  apply negb_false_iff in Hn, Hz. by rewrite Hn, Hz.
Qed.

Lemma later_processors_are_not_consulted_witness :
  ∃ s1 s2,
    App.run_processors [Cases.knows_run] ["stop"] VNone Cases.third_set_up
    = (Returned VNone, s1)
    ∧ App.processor_process Cases.fails_on_stop ["stop"] s1
      = (Returned (VInt 3), s2)
    ∧ App.run_processors
        [Cases.knows_run; Cases.fails_on_stop; Cases.succeeds_on_stop]
        ["stop"] VNone Cases.third_set_up
      = (Returned (VInt 3), s2).
Proof.
  eexists _, _. split; [reflexivity|]. split; [reflexivity|].
  exact (later_processors_are_not_consulted
           [Cases.knows_run] Cases.fails_on_stop [Cases.succeeds_on_stop]
           ["stop"] Cases.third_set_up VNone _ (Returned (VInt 3)) _
           eq_refl eq_refl eq_refl eq_refl).
Defined.

Lemma run_processors_None processors args exitcode s s' :
  App.run_processors processors args exitcode s = (Returned VNone, s') →
  exitcode = VNone.
Proof.
  revert exitcode s. induction processors as [|p rest IH]; intros exitcode s.
  - cbn. by intros [= -> _].
  - cbn [App.run_processors].
    destruct (App.processor_process p args s) as [[code|e] s0]; [|done].
    destruct (App.ne_None code) eqn:Hnone; [|apply IH].
    destruct (App.ne_zero code).
    + intros [= -> _]. done.
    + intros H. apply IH in H as ->. done.
Qed.

(** X23: the loop ends with [None] only when no processor handled the
    command: every processor was consulted, each in the state the ones
    before it left, and each returned [None]. *)
Theorem unhandled_command_reaches_every_processor
    processors args s s' before p after :
  App.run_processors processors args VNone s = (Returned VNone, s') →
  processors = before ++ p :: after →
  ∃ s1 s2,
    App.run_processors before args VNone s = (Returned VNone, s1)
    ∧ App.processor_process p args s1 = (Returned VNone, s2)
    ∧ App.run_processors after args VNone s2 = (Returned VNone, s').
Proof.
  intros Hrun ->. rewrite run_processors_app in Hrun by done.
  destruct (App.run_processors before args VNone s) as [[code|e] s1] eqn:Hb;
    [|done].
  assert (code = VNone) as ->.
  { destruct (App.goes_on code) eqn:Hgo.
    - by apply run_processors_None in Hrun.
    - by injection Hrun as -> _. }
  cbn in Hrun.
  destruct (App.processor_process p args s1) as [[code|e] s2] eqn:Hp; [|done].
  exists s1, s2. split; [done|].
  destruct (App.ne_None code) eqn:Hnone.
  - exfalso. destruct (App.ne_zero code).
    + by injection Hrun as -> _.
    + apply run_processors_None in Hrun as ->. done.
  - unfold App.ne_None in Hnone. apply negb_false_iff, bool_decide_eq_true in Hnone.
    by subst code.
Qed.

Lemma unhandled_command_reaches_every_processor_witness :
  ∃ s' s1 s2,
    App.run_processors [Cases.knows_run; Cases.knows_run] ["stop"] VNone
      Cases.third_set_up
    = (Returned VNone, s')
    ∧ App.run_processors [Cases.knows_run] ["stop"] VNone Cases.third_set_up
      = (Returned VNone, s1)
    ∧ App.processor_process Cases.knows_run ["stop"] s1 = (Returned VNone, s2)
    ∧ App.run_processors [] ["stop"] VNone s2 = (Returned VNone, s').
Proof.
  eexists.
  destruct (unhandled_command_reaches_every_processor
              [Cases.knows_run; Cases.knows_run] ["stop"] Cases.third_set_up
              _ [Cases.knows_run] Cases.knows_run [] eq_refl eq_refl)
    as (s1 & s2 & H1 & H2 & H3).
  exists s1, s2. split; [reflexivity|]. by split.
Defined.

(** ** Settings in environment variables *)

Lemma brace_free_app a b :
  Str.brace_free (a +:+ b) = Str.brace_free a && Str.brace_free b.
Proof.
  induction a as [|c a IH]; [done|].
  change (String c a +:+ b) with (String c (a +:+ b)). cbn [Str.brace_free].
  rewrite IH. by rewrite andb_assoc.
Qed.

Lemma format0_app_l a b :
  Str.brace_free a = true →
  Str.format0 (a +:+ b) = (fun x => a +:+ x) <$> Str.format0 b.
Proof.
  induction a as [|c a IH]; intros Ha.
  - change (EmptyString +:+ b) with b. by destruct (Str.format0 b).
  - cbn in Ha. apply andb_prop in Ha as [Hc Ha].
    apply andb_prop in Hc as [Ho Hcl]. apply negb_true_iff in Ho, Hcl.
    change (String c a +:+ b) with (String c (a +:+ b)). cbn [Str.format0].
    rewrite Ho, Hcl, (IH Ha). by destruct (Str.format0 b).
Qed.

Lemma format0_cons c r :
  Str.format0 (String c r)
  = if Ascii.eqb c "{" then
      match r with
      | String c' r' =>
          if Ascii.eqb c' "{" then String "{"%char <$> Str.format0 r' else None
      | EmptyString => None
      end
    else if Ascii.eqb c "}" then
      match r with
      | String c' r' =>
          if Ascii.eqb c' "}" then String "}"%char <$> Str.format0 r' else None
      | EmptyString => None
      end
    else String c <$> Str.format0 r.
Proof. reflexivity. Qed.

Lemma format0_app_r v w :
  Str.brace_free w = true →
  Str.format0 (v +:+ w) = (fun x => x +:+ w) <$> Str.format0 v.
Proof.
  intros Hw.
  assert (Hw0 : Str.format0 w = Some w) by (by apply format0_brace_free).
  assert (Hlone : ∀ c, Ascii.eqb c "{" || Ascii.eqb c "}" = true →
                       match w with
                       | String c' r' =>
                           Ascii.eqb c' "{" = false ∧ Ascii.eqb c' "}" = false
                       | EmptyString => True
                       end).
  { intros _ _. destruct w as [|c' w']; [done|]. cbn in Hw.
    apply andb_prop in Hw as [Hc _]. apply andb_prop in Hc as [Ho Hcl].
    by apply negb_true_iff in Ho, Hcl. }
  cut ((Str.format0 (v +:+ w) = (fun x => x +:+ w) <$> Str.format0 v)
       ∧ ∀ c, Str.format0 (String c v +:+ w)
              = (fun x => x +:+ w) <$> Str.format0 (String c v)).
  { by intros [? _]. }
  induction v as [|c v [IH0 IH1]].
  - split; [change (EmptyString +:+ w) with w; by rewrite Hw0|].
    intros c. change (String c EmptyString +:+ w) with (String c w).
    cbn [Str.format0].
    destruct (Ascii.eqb c "{") eqn:Ho.
    { specialize (Hlone c). rewrite Ho in Hlone.
      destruct w as [|c' w']; [done|]. destruct (Hlone eq_refl) as [-> _]. done. }
    destruct (Ascii.eqb c "}") eqn:Hcl.
    { specialize (Hlone c). rewrite Ho, Hcl in Hlone.
      destruct w as [|c' w']; [done|]. destruct (Hlone eq_refl) as [_ ->]. done. }
    by rewrite Hw0.
  - split; [apply IH1|]. intros c2.
    change (String c2 (String c v) +:+ w) with (String c2 (String c (v +:+ w))).
    rewrite (format0_cons c2 (String c (v +:+ w))),
      (format0_cons c2 (String c v)). cbv beta iota.
    destruct (Ascii.eqb c2 "{").
    { destruct (Ascii.eqb c "{"); [|done]. rewrite IH0.
      by destruct (Str.format0 v). }
    destruct (Ascii.eqb c2 "}").
    { destruct (Ascii.eqb c "}"); [|done]. rewrite IH0.
      by destruct (Str.format0 v). }
    change (String c (v +:+ w)) with (String c v +:+ w). rewrite IH1.
    by destruct (Str.format0 (String c v)).
Qed.

Lemma pretty_N_go_brace_free x s :
  Str.brace_free s = true → Str.brace_free (pretty_N_go x s) = true.
Proof.
  revert s. induction (N.lt_wf_0 x) as [x _ IH]; intros s Hs.
  assert (x = 0 ∨ 0 < x)%N as [->|?] by lia.
  - by rewrite pretty_N_go_0.
  - rewrite pretty_N_go_step by done. apply IH.
    { by apply N.div_lt. }
    cbn [Str.brace_free]. rewrite Hs.
    unfold pretty_N_char. by repeat case_match.
Qed.

Lemma str_int_brace_free z : Str.brace_free (Env.str_int z) = true.
Proof.
  assert (HN : ∀ n : N, Str.brace_free (pretty n) = true).
  { intros n. unfold pretty, pretty_N. case_decide; [done|].
    by apply pretty_N_go_brace_free. }
  unfold Env.str_int, pretty, pretty_Z. destruct z as [|p|p]; [done|..].
  - apply HN.
  - rewrite brace_free_app. cbn. apply HN.
Qed.

Lemma write_info_then_quiet {A} info text (k : Env.logged A) :
  info = false ∨ Str.brace_free text = true →
  (Env.write_info_then info text k).1 = k.1.
Proof.
  unfold Env.write_info_then. intros [->|Hb]; [done|].
  destruct info; [|done]. by rewrite (format0_brace_free _ Hb).
Qed.

(** X24: a variable set to the empty string counts as not set: each of the
    three getters does exactly what it does when the variable is removed
    from the environment, returning the default value. *)
Theorem empty_setting_is_unset
    environ info int10 var_name default_bool default_int min max default_str :
  environ !! var_name = Some EmptyString →
  Env.get_env_setting_bool environ info var_name default_bool
  = Env.get_env_setting_bool (delete var_name environ) info var_name
      default_bool
  ∧ Env.get_env_setting_integer environ info int10 var_name default_int min max
    = Env.get_env_setting_integer (delete var_name environ) info int10
        var_name default_int min max
  ∧ Env.get_env_setting_string environ info var_name default_str
    = Env.get_env_setting_string (delete var_name environ) info var_name
        default_str
  ∧ (info = false →
     (Env.get_env_setting_bool environ info var_name default_bool).1
     = inr default_bool
     ∧ (Env.get_env_setting_integer environ info int10 var_name default_int
          min max).1
       = inr default_int
     ∧ (Env.get_env_setting_string environ info var_name default_str).1
       = inr default_str).
Proof.
  intros H.
  unfold Env.get_env_setting_bool, Env.get_env_setting_integer,
    Env.get_env_setting_string.
  rewrite H, lookup_delete_eq. cbn [Env.truthy].
  split; [done|]. split; [done|]. split; [done|]. by intros ->.
Qed.

Lemma empty_setting_is_unset_witness :
  Cases.environ !! "EMPTY" = Some EmptyString
  ∧ (Env.get_env_setting_bool Cases.environ false "EMPTY" (Some true)).1
    = inr (Some true).
Proof.
  split; [reflexivity|].
  exact (proj1 (proj2 (proj2 (proj2
           (empty_setting_is_unset Cases.environ false Cases.decimal "EMPTY"
              (Some true) None None None None eq_refl))) eq_refl)).
Defined.

(** X25: a non-empty value is never replaced by the default. With a name
    the logger can format, [get_env_setting_bool] returns [True] exactly for
    [1] and for [true] in any mix of cases, [False] exactly for [0] and for
    [false] in any mix of cases, and for every other value it raises
    [NameError] (the exception class it means to raise is not bound in the
    module). *)
Theorem boolean_setting_values environ info var_name default_value value :
  environ !! var_name = Some value →
  value ≠ EmptyString →
  info = false ∨ Str.brace_free var_name = true →
  let result :=
    (Env.get_env_setting_bool environ info var_name default_value).1 in
  (result = inr (Some true)
   ↔ value = "1" ∨ Str.lower value = "true")
  ∧ (result = inr (Some false)
     ↔ value = "0" ∨ Str.lower value = "false")
  ∧ (result = inr (Some true) ∨ result = inr (Some false)
     ∨ result = inl (raise_plain NameError "ConfigurationError")).
Proof.
  intros Hv Hne Hlog. cbn zeta. unfold Env.get_env_setting_bool.
  rewrite Hv. destruct value as [|c value]; [done|]. cbn [Env.truthy].
  set (v := String c value).
  assert (Hquiet : ∀ (tail : string) k,
            Str.brace_free tail = true →
            (Env.write_info_then (A:=option bool) info
               ("Environment variable '" +:+ var_name +:+ tail) k).1 = k.1).
  { intros tail k Htail. apply write_info_then_quiet.
    destruct Hlog as [?|Hb]; [by left|right].
    by rewrite !brace_free_app, Hb, Htail. }
  destruct (bool_decide (v = "0") || bool_decide (Str.lower v = "false"))
    eqn:Hfalse.
  - rewrite (Hquiet "' is set to 'false'." _ eq_refl). cbn [fst].
    apply orb_true_iff in Hfalse.
    rewrite !bool_decide_eq_true in Hfalse.
    split; [|split; [|by right; left]].
    + split; [done|]. intros [H1|H1]; destruct Hfalse as [H0|H0];
        rewrite ?H0 in H1; try rewrite H1 in H0; done.
    + done.
  - apply orb_false_iff in Hfalse as [H0 Hf].
    apply bool_decide_eq_false in H0, Hf.
    destruct (bool_decide (v = "1") || bool_decide (Str.lower v = "true"))
      eqn:Htrue.
    + rewrite (Hquiet "' is set to 'true'." _ eq_refl). cbn [fst].
      apply orb_true_iff in Htrue. rewrite !bool_decide_eq_true in Htrue.
      split; [done|]. split; [|by left]. split; [done|]. by intros [?|?].
    + apply orb_false_iff in Htrue as [H1 Ht].
      apply bool_decide_eq_false in H1, Ht. cbn [fst Env.raise_ConfigurationError].
      split; [split; [done|by intros [?|?]]|].
      split; [split; [done|by intros [?|?]]|]. by right; right.
Qed.

Lemma boolean_setting_values_witness :
  Cases.environ !! "VERBOSE" = Some "TRUE"
  ∧ (Env.get_env_setting_bool Cases.environ true "VERBOSE" None).1
    = inr (Some true).
Proof.
  split; [reflexivity|].
  apply (boolean_setting_values Cases.environ true "VERBOSE" None "TRUE"
           eq_refl); [discriminate|by right|by right].
Defined.

(** X26: with the 'info' level enabled, [get_env_setting_string] formats
    the value once more while logging it. For a name without braces it
    returns the value as it is set, and writes the message with the value
    formatted, when the value formats; a value with a brace that does not
    format makes the getter raise instead of returning the value. With the
    level disabled the value is returned whatever it contains. *)
Theorem string_setting_is_formatted_when_logged
    environ var_name default_value value :
  environ !! var_name = Some value →
  value ≠ EmptyString →
  Str.brace_free var_name = true →
  Env.get_env_setting_string environ false var_name default_value
  = (inr (Some value), [])
  ∧ match Str.format0 value with
    | Some shown =>
        Env.get_env_setting_string environ true var_name default_value
        = (inr (Some value),
           ["Environment variable '" +:+ var_name +:+ "' is set to '"
            +:+ shown +:+ "'."])
    | None =>
        ∃ e, Env.get_env_setting_string environ true var_name default_value
             = (inl e, [])
             ∧ exn_type e = FormatError
    end.
Proof.
  intros Hv Hne Hname. unfold Env.get_env_setting_string. rewrite Hv.
  destruct value as [|c value]; [done|]. cbn [Env.truthy].
  set (v := String c value). split; [done|].
  unfold Env.write_info_then.
  rewrite (format0_app_l "Environment variable '") by done.
  rewrite (format0_app_l var_name) by done.
  rewrite (format0_app_l "' is set to '") by done.
  rewrite (format0_app_r v "'.") by done.
  destruct (Str.format0 v) as [shown|]; cbn; [done|]. by eexists.
Qed.

Lemma string_setting_is_formatted_when_logged_witness :
  Cases.environ !! "PATTERN" = Some "a{b"
  ∧ ∃ e, Env.get_env_setting_string Cases.environ true "PATTERN" None
         = (inl e, [])
         ∧ exn_type e = FormatError.
Proof.
  split; [reflexivity|].
  exact (proj2 (string_setting_is_formatted_when_logged Cases.environ
                  "PATTERN" None "a{b" eq_refl
                  ltac:(discriminate) eq_refl)).
Defined.

(** X27: [get_env_setting_integer] returns the number read exactly when it
    respects the bounds that are given and are not zero: a bound of 0 is
    not enforced, so with [min = 0] a negative setting is returned. A
    setting outside an enforced bound, or one that is not a number, raises
    [NameError]; the default is not used for it. *)
Theorem integer_setting_bounds
    environ info int10 var_name default_value min max text value :
  environ !! var_name = Some text →
  text ≠ EmptyString →
  int10 text = Some value →
  info = false ∨ Str.brace_free var_name = true →
  let result :=
    (Env.get_env_setting_integer environ info int10 var_name default_value
       min max).1 in
  (result = inr (Some value)
   ↔ (∀ b, min = Some b → b = 0 ∨ b ≤ value)
     ∧ (∀ b, max = Some b → b = 0 ∨ value ≤ b))
  ∧ (result = inr (Some value)
     ∨ result = inl (raise_plain NameError "ConfigurationError")).
Proof.
  intros Hv Hne Hint Hlog. cbn zeta. unfold Env.get_env_setting_integer.
  rewrite Hv. destruct text as [|c text]; [done|]. cbn [Env.truthy].
  rewrite Hint. rewrite write_info_then_quiet; cycle 1.
  { destruct Hlog as [?|Hb]; [by left|right].
    by rewrite !brace_free_app, Hb, str_int_brace_free. }
  unfold Env.truthy_int, Env.raise_ConfigurationError.
  destruct min as [lo|], max as [hi|]; cbn [fst];
    repeat match goal with
           | |- context [if ?b =? 0 then _ else _] =>
               destruct (Z.eqb_spec b 0)
           | |- context [if ?a <? ?b then _ else _] =>
               destruct (Z.ltb_spec a b)
           | |- context [if ?a >? ?b then _ else _] =>
               destruct (Z.gtb_spec a b)
           end; cbn [fst];
    (split;
     [split;
      [ intros Hres; try discriminate Hres; split; intros b Hb; simplify_eq; lia
      | intros [Hlo Hhi]; try done;
        try (pose proof (Hlo _ eq_refl)); try (pose proof (Hhi _ eq_refl)); lia ]
     |by auto]).
Qed.

Lemma integer_setting_bounds_witness :
  Cases.environ !! "OFFSET" = Some "-5"
  ∧ Cases.decimal "-5" = Some (-5)
  ∧ (Env.get_env_setting_integer Cases.environ true Cases.decimal "OFFSET"
       None (Some 0) None).1
    = inr (Some (-5)).
Proof.
  split; [reflexivity|]. split; [reflexivity|].
  apply (integer_setting_bounds Cases.environ true Cases.decimal "OFFSET"
           None (Some 0) None "-5" (-5) eq_refl);
    [discriminate|reflexivity|by right|].
  split; intros b [= <-]. by left.
Defined.
